(** * WFM Scanner: the scan-results ledger and its command gate

    A shallow embedding of
    - [src/database/resultsDatabase.js] (class [ResultsDatabase]),
    - the rate limiter (class [RateLimiter]),
    - the IPC validator (class [IPCValidator]),
    with the parts of their environment they rely on (JavaScript
    values, [JSON], [Date] and SQLite timestamps, Node's [path]),
    followed by the properties of the design document that are checked
    against them.

    Conventions of the embedding.
    - A SQLite table is the list of its rows in rowid order; a [WHERE]
      clause is a boolean function on rows; [DELETE] reports the number
      of rows it removed ([this.changes]).
    - [DATETIME] columns hold text; SQLite compares text with [memcmp],
      which is [String.compare] on byte strings.
    - A promise is the value it settles with ([Resolved], [Rejected]) or
      [Pending] when no path of the code settles it.
    - The sqlite3 driver runs the statements of one connection in the
      order they were queued and calls their callbacks in that order, so
      every method is a sequence of steps on the connection.  Failures
      of the storage engine itself (I/O, lock) are not modelled; the
      constraint failures the schema declares ([NOT NULL],
      [PRIMARY KEY]) are. *)

From Stdlib Require Import ZArith String Ascii List Lia Bool.
From Stdlib Require Import DecimalString DecimalN.
From Stdlib Require Import Sorting.Permutation Sorting.Sorted.
From stdpp Require Import base option list gmap strings.

Set Warnings "-register-all".
Open Scope string_scope.
Open Scope list_scope.
Open Scope Z_scope.

(** ** JavaScript values *)

Module Js.

(** The values that cross the IPC boundary.  Numbers are the
    integer-valued ones and [NaN]; [VFun] stands for a function
    object, such as the members a plain object inherits from
    [Object.prototype]. *)
Inductive value : Type :=
| VUndefined
| VNull
| VBool (b : bool)
| VNum (n : Z)
| VStr (s : string)
| VFun
| VObj (fields : gmap string value)
| VNaN.

(** [typeof v] *)
Definition typeof (v : value) : string :=
  match v with
  | VUndefined => "undefined"
  | VNull => "object"
  | VBool _ => "boolean"
  | VNum _ => "number"
  | VStr _ => "string"
  | VFun => "function"
  | VObj _ => "object"
  | VNaN => "number"
  end.

(** [Boolean(v)], the coercion behind [v ? a : b], [!v] and [v || d]. *)
Definition truthy (v : value) : bool :=
  match v with
  | VUndefined | VNull | VNaN => false
  | VBool b => b
  | VNum n => negb (n =? 0)
  | VStr s => negb (String.eqb s "")
  | VFun | VObj _ => true
  end.

(** [v === undefined || v === null] *)
Definition nullish (v : value) : bool :=
  match v with
  | VUndefined | VNull => true
  | _ => false
  end.

(** The number nearest to the integer [z]: [z] itself below 2^53 in
    magnitude, and from there on [z] rounded to 53 significant bits,
    to the even one of two nearest. *)
Definition to_double (z : Z) : Z :=
  let a := Z.abs z in
  if a <? 2 ^ 53 then z
  else
    let e := Z.log2 a - 52 in
    let q := a / 2 ^ e in
    let r := a mod 2 ^ e in
    let half := 2 ^ (e - 1) in
    let q' := if (half <? r) || ((r =? half) && Z.odd q) then q + 1 else q in
    Z.sgn z * (q' * 2 ^ e).

(** [z] is the value of a 32-bit integer. *)
Definition int32 (z : Z) : bool := (- 2 ^ 31 <=? z) && (z <? 2 ^ 31).

(** The names every plain object inherits from [Object.prototype]:
    [o[name]] is defined (and truthy) for them whatever [o] declares. *)
Definition Object_prototype : list string :=
  [ "constructor"; "__defineGetter__"; "__defineSetter__"; "hasOwnProperty";
    "__lookupGetter__"; "__lookupSetter__"; "isPrototypeOf";
    "propertyIsEnumerable"; "toString"; "valueOf"; "__proto__";
    "toLocaleString" ].

Definition inherited (name : string) : bool :=
  existsb (String.eqb name) Object_prototype.

(** What [table[name]] finds in an object literal [table] used as a
    lookup table keyed by a caller-supplied name. *)
Inductive property (A : Type) :=
| Own (a : A)
| Inherited
| Absent.
Arguments Own {A} a.
Arguments Inherited {A}.
Arguments Absent {A}.

Definition get_property {A} (table : list (string * A)) (name : string) : property A :=
  match List.find (fun kv => String.eqb (fst kv) name) table with
  | Some kv => Own (snd kv)
  | None => if inherited name then Inherited else Absent
  end.

(** A settled or unsettled promise. *)
Inductive promise (E A : Type) :=
| Resolved (a : A)
| Rejected (e : E)
| Pending.
Arguments Resolved {E A} a.
Arguments Rejected {E A} e.
Arguments Pending {E A}.

(** Synchronous code: a returned value or a thrown error. *)
Inductive completion (E A : Type) :=
| Return (a : A)
| Throw (e : E).
Arguments Return {E A} a.
Arguments Throw {E A} e.

End Js.

(** ** JSON texts

    [JSON.stringify] and [JSON.parse] on JSON data, for the compact
    texts [JSON.stringify] emits (no white space), the only ones the
    database holds.  Numbers are integers, printed with all their
    digits.  Texts are byte strings: a character below 0x20 is escaped,
    every other byte is copied. *)

Module JSON.

Inductive json : Type :=
| JNull
| JBool (b : bool)
| JNum (n : Z)
| JStr (s : string)
| JArr (elements : list json)
| JObj (members : list (string * json)).

(** The double quote, character 34. *)
Definition dquote : ascii := ascii_of_N 34.

Definition hex_digit (n : N) : ascii :=
  ascii_of_N (if (n <? 10)%N then 48 + n else 87 + n).

Definition hex_value (c : ascii) : option N :=
  let n := N_of_ascii c in
  if ((48 <=? n) && (n <=? 57))%N then Some (n - 48)%N
  else if ((97 <=? n) && (n <=? 102))%N then Some (n - 87)%N
  else if ((65 <=? n) && (n <=? 70))%N then Some (n - 55)%N
  else None.

(** One character of a string literal, followed by [k]. *)
Definition escape_char (c : ascii) (k : string) : string :=
  let n := N_of_ascii c in
  if Ascii.eqb c dquote then String "\" (String dquote k)
  else if Ascii.eqb c "\" then String "\" (String "\" k)
  else if (n =? 8)%N then String "\" (String "b" k)
  else if (n =? 12)%N then String "\" (String "f" k)
  else if (n =? 10)%N then String "\" (String "n" k)
  else if (n =? 13)%N then String "\" (String "r" k)
  else if (n =? 9)%N then String "\" (String "t" k)
  else if (n <? 32)%N then
    String "\" (String "u" (String "0" (String "0"
      (String (hex_digit (n / 16)) (String (hex_digit (n mod 16)) k)))))
  else String c k.

Fixpoint escape (s : string) (k : string) : string :=
  match s with
  | EmptyString => k
  | String c s' => escape_char c (escape s' k)
  end.

Definition quote (s : string) (k : string) : string :=
  String dquote (escape s (String dquote k)).

Definition print_number (n : Z) (k : string) : string :=
  match n with
  | Zneg p => String "-" (NilZero.string_of_uint (N.to_uint (Npos p)) ++ k)
  | _ => NilZero.string_of_uint (N.to_uint (Z.to_N n)) ++ k
  end.

Section Sequences.

(** The text of one value followed by a continuation. *)
Variable print : json -> string -> string.

(** The elements of an array, separated by commas. *)
Fixpoint print_elements (l : list json) (k : string) : string :=
  match l with
  | [] => k
  | [v] => print v k
  | v :: vs => print v (String "," (print_elements vs k))
  end.

(** The members of an object, separated by commas. *)
Fixpoint print_members (l : list (string * json)) (k : string) : string :=
  match l with
  | [] => k
  | [(key, v)] => quote key (String ":" (print v k))
  | (key, v) :: kvs =>
      quote key (String ":" (print v (String "," (print_members kvs k))))
  end.

End Sequences.

(** [print v k] is the text of [v] followed by [k]. *)
Fixpoint print (v : json) (k : string) : string :=
  match v with
  | JNull => "null" ++ k
  | JBool true => "true" ++ k
  | JBool false => "false" ++ k
  | JNum n => print_number n k
  | JStr s => quote s k
  | JArr l => String "[" (print_elements print l (String "]" k))
  | JObj l => String "{" (print_members print l (String "}" k))
  end.

(** [JSON.stringify(v)] *)
Definition stringify (v : json) : string := print v "".

Definition is_digit (c : ascii) : bool :=
  let n := N_of_ascii c in ((48 <=? n) && (n <=? 57))%N.

(** The longest prefix of digits, and what follows it. *)
Fixpoint span_digits (s : string) : string * string :=
  match s with
  | String c s' =>
      if is_digit c then let '(d, r) := span_digits s' in (String c d, r)
      else ("", s)
  | EmptyString => ("", "")
  end.

(** A run of digits is a number when it is ["0"] or starts with a
    digit other than zero. *)
Definition parse_digits (s : string) : option (N * string) :=
  let '(d, r) := span_digits s in
  match d with
  | EmptyString => None
  | String c d' =>
      if Ascii.eqb c "0" && negb (String.eqb d' "") then None
      else match NilZero.uint_of_string d with
           | Some u => Some (N.of_uint u, r)
           | None => None
           end
  end.

Definition parse_number (s : string) : option (Z * string) :=
  match s with
  | EmptyString => None
  | String c s' =>
      if Ascii.eqb c "-" then
        match parse_digits s' with
        | Some (n, r) => Some (- Z.of_N n, r)
        | None => None
        end
      else
        match parse_digits s with
        | Some (n, r) => Some (Z.of_N n, r)
        | None => None
        end
  end.

Definition cons_char (c : ascii) (r : option (string * string)) : option (string * string) :=
  match r with
  | Some (s, k) => Some (String c s, k)
  | None => None
  end.

(** The characters of a string literal after its opening quote, up to
    and including the closing quote. *)
Fixpoint parse_chars (s : string) : option (string * string) :=
  match s with
  | EmptyString => None
  | String c s' =>
      if Ascii.eqb c dquote then Some ("", s')
      else if Ascii.eqb c "\" then
        match s' with
        | String e s'' =>
            if Ascii.eqb e dquote then cons_char dquote (parse_chars s'')
            else if Ascii.eqb e "\" then cons_char "\" (parse_chars s'')
            else if Ascii.eqb e "/" then cons_char "/" (parse_chars s'')
            else if Ascii.eqb e "b" then cons_char (ascii_of_N 8) (parse_chars s'')
            else if Ascii.eqb e "f" then cons_char (ascii_of_N 12) (parse_chars s'')
            else if Ascii.eqb e "n" then cons_char (ascii_of_N 10) (parse_chars s'')
            else if Ascii.eqb e "r" then cons_char (ascii_of_N 13) (parse_chars s'')
            else if Ascii.eqb e "t" then cons_char (ascii_of_N 9) (parse_chars s'')
            else if Ascii.eqb e "u" then
              match s'' with
              | String h1 (String h2 (String h3 (String h4 r))) =>
                  match hex_value h1, hex_value h2, hex_value h3, hex_value h4 with
                  | Some a, Some b, Some c, Some d =>
                      if ((a =? 0) && (b =? 0))%N
                      then cons_char (ascii_of_N (c * 16 + d)) (parse_chars r)
                      else None
                  | _, _, _, _ => None
                  end
              | _ => None
              end
            else None
        | EmptyString => None
        end
      else if (N_of_ascii c <? 32)%N then None
      else cons_char c (parse_chars s')
  end.

(** The rest of [s] after the literal [word]. *)
Fixpoint expect (word : string) (s : string) (v : json) : option (json * string) :=
  match word with
  | EmptyString => Some (v, s)
  | String c word' =>
      match s with
      | String c' s' => if Ascii.eqb c c' then expect word' s' v else None
      | EmptyString => None
      end
  end.

(** A value at the head of [s] and the rest of [s]; [fuel] bounds the
    number of nested calls. *)
Fixpoint parse_value (fuel : nat) (s : string) : option (json * string) :=
  match fuel with
  | O => None
  | S fuel =>
      match s with
      | EmptyString => None
      | String c s' =>
          if Ascii.eqb c "n" then expect "ull" s' JNull
          else if Ascii.eqb c "t" then expect "rue" s' (JBool true)
          else if Ascii.eqb c "f" then expect "alse" s' (JBool false)
          else if Ascii.eqb c dquote then
            match parse_chars s' with
            | Some (str, r) => Some (JStr str, r)
            | None => None
            end
          else if Ascii.eqb c "[" then
            match s' with
            | EmptyString => None
            | String c' r =>
                if Ascii.eqb c' "]" then Some (JArr [], r)
                else match parse_elements fuel s' with
                     | Some (l, r) => Some (JArr l, r)
                     | None => None
                     end
            end
          else if Ascii.eqb c "{" then
            match s' with
            | EmptyString => None
            | String c' r =>
                if Ascii.eqb c' "}" then Some (JObj [], r)
                else match parse_members fuel s' with
                     | Some (l, r) => Some (JObj l, r)
                     | None => None
                     end
            end
          else
            match parse_number s with
            | Some (n, r) => Some (JNum n, r)
            | None => None
            end
      end
  end
with parse_elements (fuel : nat) (s : string) : option (list json * string) :=
  match fuel with
  | O => None
  | S fuel =>
      match parse_value fuel s with
      | Some (v, String c r) =>
          if Ascii.eqb c "," then
            match parse_elements fuel r with
            | Some (vs, r') => Some (v :: vs, r')
            | None => None
            end
          else if Ascii.eqb c "]" then Some ([v], r)
          else None
      | _ => None
      end
  end
with parse_members (fuel : nat) (s : string) : option (list (string * json) * string) :=
  match fuel with
  | O => None
  | S fuel =>
      match s with
      | EmptyString => None
      | String q s' =>
          if negb (Ascii.eqb q dquote) then None else
          match parse_chars s' with
          | Some (key, String c r) =>
              if negb (Ascii.eqb c ":") then None else
              match parse_value fuel r with
              | Some (v, String c' r') =>
                  if Ascii.eqb c' "," then
                    match parse_members fuel r' with
                    | Some (kvs, r'') => Some ((key, v) :: kvs, r'')
                    | None => None
                    end
                  else if Ascii.eqb c' "}" then Some ([(key, v)], r')
                  else None
              | _ => None
              end
          | _ => None
          end
      end
  end.

(** The number of values in [v], which bounds the nesting of calls
    that parse its text. *)
Fixpoint size (v : json) : nat :=
  match v with
  | JArr l => S (list_sum (List.map (fun v => S (size v)) l))
  | JObj l => S (list_sum (List.map (fun kv => S (size (snd kv))) l))
  | _ => 1
  end.

(** A text that can follow a number: it does not go on with a digit. *)
Definition no_digit_head (k : string) : Prop :=
  match k with
  | EmptyString => True
  | String c _ => is_digit c = false
  end.

(** The text of [v], followed by any text a number can be followed by,
    is read back as [v]. *)
Definition reads_back (v : json) : Prop :=
  forall fuel k, (size v <= fuel)%nat -> no_digit_head k ->
    parse_value fuel (print v k) = Some (v, k).

(** The text of [v] has at least as many characters as [v] has
    values. *)
Definition fits (v : json) : Prop :=
  forall k, (size v + String.length k <= String.length (print v k))%nat.

(** [JSON.parse(text)]: a value, or [None] for the [SyntaxError]. *)
Definition parse (text : string) : option json :=
  match parse_value (S (String.length text)) text with
  | Some (v, EmptyString) => Some v
  | _ => None
  end.

End JSON.

(** ** Instants and their two text forms *)

Module Time.

(** A JavaScript [Date], by its UTC calendar fields. *)
Record Date := mkDate {
  year : Z;
  month : Z;
  day : Z;
  hours : Z;
  minutes : Z;
  seconds : Z;
  milliseconds : Z
}.

(** Calendar fields in their ranges (four-digit years). *)
Definition valid (d : Date) : Prop :=
  0 <= year d <= 9999 /\ 1 <= month d <= 12 /\ 1 <= day d <= 31 /\
  0 <= hours d <= 23 /\ 0 <= minutes d <= 59 /\ 0 <= seconds d <= 59 /\
  0 <= milliseconds d <= 999.

(** The position of an instant on the time line: the fields, most
    significant first, in a mixed radix that leaves room for each. *)
Definition ticks (d : Date) : Z :=
  (((((year d * 100 + month d) * 100 + day d) * 100 + hours d) * 100
      + minutes d) * 100 + seconds d) * 1000 + milliseconds d.

(** The calendar day of an instant, as a number. *)
Definition day_number (d : Date) : Z := (year d * 100 + month d) * 100 + day d.

(** [a] is strictly older than [b]. *)
Definition before (a b : Date) : Prop := ticks a < ticks b.

(** The character of the last decimal digit of [n]. *)
Definition digit (n : Z) : ascii := ascii_of_N (Z.to_N (48 + n mod 10)).

(** The last two, three and four decimal digits of [n], followed by
    [k]. *)
Definition pad2 (n : Z) (k : string) : string :=
  String (digit (n / 10)) (String (digit n) k).

Definition pad3 (n : Z) (k : string) : string :=
  String (digit (n / 100)) (pad2 n k).

Definition pad4 (n : Z) (k : string) : string :=
  pad2 (n / 100) (pad2 n k).

(** [YYYY-MM-DD] followed by [k]. *)
Definition calendar_date (d : Date) (k : string) : string :=
  pad4 (year d) (String "-" (pad2 (month d) (String "-" (pad2 (day d) k)))).

(** [HH:MM:SS] followed by [k]. *)
Definition clock_time (d : Date) (k : string) : string :=
  pad2 (hours d) (String ":" (pad2 (minutes d) (String ":" (pad2 (seconds d) k)))).

(** SQLite's [CURRENT_TIMESTAMP] at the instant [d]:
    [YYYY-MM-DD HH:MM:SS], in UTC. *)
Definition CURRENT_TIMESTAMP (d : Date) : string :=
  calendar_date d (String " " (clock_time d "")).

(** [d.toISOString()]: [YYYY-MM-DDTHH:MM:SS.sssZ]. *)
Definition toISOString (d : Date) : string :=
  calendar_date d (String "T" (clock_time d (String "." (pad3 (milliseconds d) "Z")))).

End Time.

(** ** The results database ([ResultsDatabase]) *)

Module ResultsDatabase.
Import Js.

(** *** Rows of the three tables ([createTables]) *)

Record scan_session := mkSession {
  ss_id : string;
  ss_started_at : string;
  ss_completed_at : option string;
  ss_total_items : Z;
  ss_processed_items : Z;
  ss_success_count : Z;
  ss_failed_count : Z;
  ss_status : string
}.

Record scan_result := mkResult {
  sr_id : Z;
  sr_session_id : string;
  sr_store : string;
  sr_asin : string;
  sr_success : Z;
  sr_timestamp : string;
  sr_extracted_name : option string;
  sr_name : option string;
  sr_price : option string;
  sr_image_url : option string;
  sr_product_url : option string;
  sr_load_time : option Z;
  sr_error_message : option string;
  sr_retry_count : Z;
  sr_variations : option string;
  sr_bundle_parts : option string;
  sr_extraction_details : option string;
  sr_merchandising_data : option string
}.

Record scan_progress := mkProgress {
  sp_session_id : string;
  sp_current_store : option string;
  sp_current_item : option Z;
  sp_total_items : option Z;
  sp_last_updated : string
}.

(** The database file: the rows of each table in rowid order and the
    [AUTOINCREMENT] counter of [scan_results]. *)
Record tables := mkTables {
  sessions : list scan_session;
  results : list scan_result;
  progress : list scan_progress;
  last_result_id : Z
}.

(** The single connection [this.db]: the rows its statements see, and
    the rows to restore on [ROLLBACK] while a transaction is open. *)
Record connection := mkConnection {
  current : tables;
  begun : option tables
}.

Definition empty_tables : tables := mkTables [] [] [] 0.

(** The connection after [initialize] on a new file. *)
Definition fresh : connection := mkConnection empty_tables None.

Inductive error :=
| SQLITE_CONSTRAINT (detail : string)
| SyntaxError
| BatchInsertFailed (failures : nat)
| SQLITE_MISMATCH.

(** *** Statements *)

(** A number in the place of [LIMIT ?] or [OFFSET ?].  The number
    whose exact value is [n] reaches the driver as the double
    [to_double n]; the driver binds a 32-bit integer as an [INTEGER]
    and any other number as a [REAL]; and SQLite takes the [REAL] for
    an integer when it has no fraction and lies strictly between
    -2^63 and 2^63.  On any other [REAL] the statement fails with
    [SQLITE_MISMATCH]. *)
Definition must_be_int (n : Z) : bool :=
  let d := to_double n in
  int32 d || ((- 2 ^ 63 <? d) && (d <? 2 ^ 63)).

(** [DELETE FROM t WHERE w]: the remaining rows and [this.changes]. *)
Definition sql_delete {A} (w : A -> bool) (rows : list A) : list A * nat :=
  (List.filter (fun r => negb (w r)) rows, length (List.filter w rows)).

(** [BEGIN TRANSACTION]; an error inside a transaction, which the
    callers do not look at. *)
Definition sql_begin (db : connection) : connection :=
  match begun db with
  | None => mkConnection (current db) (Some (current db))
  | Some _ => db
  end.

Definition sql_commit (db : connection) : connection :=
  mkConnection (current db) None.

Definition sql_rollback (db : connection) : connection :=
  match begun db with
  | Some saved => mkConnection saved None
  | None => db
  end.

(** A statement run on the rows the connection sees. *)
Definition on_current (f : tables -> tables) (db : connection) : connection :=
  mkConnection (f (current db)) (begun db).

(** *** Sessions *)

(** [INSERT INTO scan_sessions (id, total_items) VALUES (?, ?)] *)
Definition createSession (db : connection) (now : Time.Date)
    (sessionId : string) (totalItems : Z) : connection * promise error string :=
  let t := current db in
  if existsb (fun s => String.eqb (ss_id s) sessionId) (sessions t)
  then (db, Rejected (SQLITE_CONSTRAINT "UNIQUE constraint failed: scan_sessions.id"))
  else
    let row := mkSession sessionId (Time.CURRENT_TIMESTAMP now) None totalItems 0 0 0 "running" in
    (on_current (fun t => mkTables (sessions t ++ [row]) (results t) (progress t) (last_result_id t)) db,
     Resolved sessionId).

(** [UPDATE scan_sessions SET completed_at = CURRENT_TIMESTAMP,
    status = 'completed' WHERE id = ?] *)
Definition complete_row (now : Time.Date) (sessionId : string) (s : scan_session) : scan_session :=
  if String.eqb (ss_id s) sessionId
  then mkSession (ss_id s) (ss_started_at s) (Some (Time.CURRENT_TIMESTAMP now))
         (ss_total_items s) (ss_processed_items s) (ss_success_count s)
         (ss_failed_count s) "completed"
  else s.

Definition completeSession (db : connection) (now : Time.Date)
    (sessionId : string) : connection * promise error unit :=
  (on_current (fun t => mkTables (List.map (complete_row now sessionId) (sessions t))
                          (results t) (progress t) (last_result_id t)) db,
   Resolved tt).

(** *** Results *)

(** A result object as the scanner hands it over; [None] is a field
    that is [undefined] or [null].  The four payloads are lists and
    maps of JSON data. *)
Record result := mkResultObject {
  store : option string;
  asin : option string;
  success : value;
  extractedName : option string;
  name : option string;
  price : option string;
  imageUrl : option string;
  productUrl : option string;
  loadTime : option Z;
  errorMessage : option string;
  retryCount : option Z;
  variations : option (list JSON.json);
  bundleParts : option (list JSON.json);
  extractionDetails : option (list (string * JSON.json));
  merchandisingData : option (list (string * JSON.json))
}.

(** [JSON.stringify(l || [])] and [JSON.stringify(m || {})] *)
Definition stringify_list (l : option (list JSON.json)) : string :=
  JSON.stringify (JSON.JArr (default [] l)).

Definition stringify_map (m : option (list (string * JSON.json))) : string :=
  JSON.stringify (JSON.JObj (default [] m)).

(** The [INSERT INTO scan_results] of [insertResult] on the tables:
    the new tables and [this.lastID], or the constraint that failed. *)
Definition insert_scan_result (t : tables) (now : Time.Date)
    (sessionId : string) (r : result) : completion error (tables * Z) :=
  match store r, asin r with
  | None, _ => Throw (SQLITE_CONSTRAINT "NOT NULL constraint failed: scan_results.store")
  | Some _, None => Throw (SQLITE_CONSTRAINT "NOT NULL constraint failed: scan_results.asin")
  | Some st, Some a =>
      let lastID := last_result_id t + 1 in
      let row :=
        mkResult lastID sessionId st a
          (if truthy (success r) then 1 else 0)
          (Time.CURRENT_TIMESTAMP now)
          (extractedName r) (name r) (price r) (imageUrl r) (productUrl r)
          (loadTime r) (errorMessage r)
          (default 0 (retryCount r))
          (Some (stringify_list (variations r)))
          (Some (stringify_list (bundleParts r)))
          (Some (stringify_map (extractionDetails r)))
          (Some (stringify_map (merchandisingData r))) in
      Return (mkTables (sessions t) (results t ++ [row]) (progress t) lastID, lastID)
  end.

Definition insertResult (db : connection) (now : Time.Date)
    (sessionId : string) (r : result) : connection * promise error Z :=
  match insert_scan_result (current db) now sessionId r with
  | Return (t, lastID) => (mkConnection t (begun db), Resolved lastID)
  | Throw e => (db, Rejected e)
  end.

Record batch_report := mkBatchReport {
  inserted : nat;
  errors : list error
}.

(** The state the handlers of [insertBatch] share. *)
Record batch := mkBatch {
  b_db : connection;
  b_completed : nat;
  b_errors : list error;
  b_outcome : promise error batch_report
}.

(** A promise keeps the first value it is settled with. *)
Definition settle {E A} (p q : promise E A) : promise E A :=
  match p with
  | Pending => q
  | _ => p
  end.

(** One [insertResult] of the batch and the handler that runs when it
    settles: [.then] on success, [.catch] on failure. *)
Definition batch_step (now : Time.Date) (sessionId : string) (total : nat)
    (b : batch) (r : result) : batch :=
  match insertResult (b_db b) now sessionId r with
  | (db, Resolved _) =>
      let completed := S (b_completed b) in
      if Nat.eqb completed total
      then mkBatch (sql_commit db) completed (b_errors b)
             (settle (b_outcome b) (Resolved (mkBatchReport completed (b_errors b))))
      else mkBatch db completed (b_errors b) (b_outcome b)
  | (db, Rejected e) =>
      let errors := b_errors b ++ [e] in
      let completed := S (b_completed b) in
      if Nat.eqb completed total
      then mkBatch (sql_rollback db) completed errors
             (settle (b_outcome b) (Rejected (BatchInsertFailed (length errors))))
      else mkBatch db completed errors (b_outcome b)
  | (db, Pending) => mkBatch db (b_completed b) (b_errors b) (b_outcome b)
  end.

Definition insertBatch (db : connection) (now : Time.Date)
    (sessionId : string) (results : list result)
    : connection * promise error batch_report :=
  let b := fold_left (batch_step now sessionId (length results)) results
             (mkBatch (sql_begin db) 0 [] Pending) in
  (b_db b, b_outcome b).

(** [SELECT COUNT( * ) FROM scan_results WHERE session_id = ?] *)
Definition getResultCount (db : connection) (sessionId : string) : promise error nat :=
  Resolved (length (List.filter (fun r => String.eqb (sr_session_id r) sessionId)
                      (results (current db)))).

(** A result row with its payloads rehydrated. *)
Record deserialized := mkDeserialized {
  d_row : scan_result;
  d_success : bool;
  d_variations : JSON.json;
  d_bundleParts : JSON.json;
  d_extractionDetails : JSON.json;
  d_merchandisingData : JSON.json
}.

(** [column ? JSON.parse(column) : fallback] *)
Definition rehydrate (column : option string) (fallback : JSON.json) : completion error JSON.json :=
  match column with
  | None => Return fallback
  | Some text =>
      if String.eqb text "" then Return fallback
      else match JSON.parse text with
           | Some v => Return v
           | None => Throw SyntaxError
           end
  end.

Definition deserializeResult (row : scan_result) : completion error deserialized :=
  match rehydrate (sr_variations row) (JSON.JArr []) with
  | Throw e => Throw e
  | Return v =>
  match rehydrate (sr_bundle_parts row) (JSON.JArr []) with
  | Throw e => Throw e
  | Return b =>
  match rehydrate (sr_extraction_details row) (JSON.JObj []) with
  | Throw e => Throw e
  | Return x =>
  match rehydrate (sr_merchandising_data row) (JSON.JObj []) with
  | Throw e => Throw e
  | Return m =>
      Return (mkDeserialized row (negb (sr_success row =? 0)) v b x m)
  end end end end.

(** [INSERT OR REPLACE INTO scan_progress] *)
Definition updateProgress (db : connection) (now : Time.Date) (sessionId : string)
    (currentStore : option string) (currentItem totalItems : option Z)
    : connection * promise error unit :=
  let row := mkProgress sessionId currentStore currentItem totalItems (Time.CURRENT_TIMESTAMP now) in
  (on_current (fun t =>
     mkTables (sessions t) (results t)
       (List.filter (fun p => negb (String.eqb (sp_session_id p) sessionId)) (progress t) ++ [row])
       (last_result_id t)) db,
   Resolved tt).

(** *** Cleanup methods *)

Record cleanup_report := mkCleanupReport {
  deletedSessions : nat;
  deletedResults : nat
}.

(** [session_id IN (SELECT id FROM scan_sessions WHERE w)] *)
Definition session_in (w : scan_session -> bool) (t : tables) (sessionId : string) : bool :=
  existsb (fun s => String.eqb (ss_id s) sessionId) (List.filter w (sessions t)).

(** The three [DELETE]s the cleanup methods share, nested in this
    order: results, then progress, then sessions, each selecting the
    sessions with [w] in the tables as the previous one left them. *)
Definition delete_sessions_where (w : tables -> scan_session -> bool)
    (db : connection) : connection * promise error cleanup_report :=
  let t0 := current db in
  let '(rs, deletedResults) :=
    sql_delete (fun r => session_in (w t0) t0 (sr_session_id r)) (results t0) in
  let t1 := mkTables (sessions t0) rs (progress t0) (last_result_id t0) in
  let '(ps, _) :=
    sql_delete (fun p => session_in (w t1) t1 (sp_session_id p)) (progress t1) in
  let t2 := mkTables (sessions t1) (results t1) ps (last_result_id t1) in
  let '(ss, deletedSessions) := sql_delete (w t2) (sessions t2) in
  let t3 := mkTables ss (results t2) (progress t2) (last_result_id t2) in
  (mkConnection t3 (begun db), Resolved (mkCleanupReport deletedSessions deletedResults)).

Section Cleanup.

(** [Date.prototype.getDate] and [setDate], the calendar arithmetic
    of the runtime in the local time zone. *)
Variable getDate : Time.Date -> Z.
Variable setDate : Time.Date -> Z -> Time.Date.

(** [started_at < ?] *)
Definition started_before (cutoff : string) (s : scan_session) : bool :=
  String.ltb (ss_started_at s) cutoff.

Definition cleanupOldSessions (db : connection) (now : Time.Date)
    (daysToKeep : option Z) : connection * promise error cleanup_report :=
  let daysToKeep := default 3 daysToKeep in
  let cutoffDate := setDate now (getDate now - daysToKeep) in
  let cutoffISO := Time.toISOString cutoffDate in
  delete_sessions_where (fun _ => started_before cutoffISO) db.

End Cleanup.

(** [ORDER BY started_at DESC]: rows with equal keys stay in table
    order. *)
Fixpoint insert_desc (s : scan_session) (l : list scan_session) : list scan_session :=
  match l with
  | [] => [s]
  | x :: l' =>
      if String.leb (ss_started_at x) (ss_started_at s)
      then s :: l
      else x :: insert_desc s l'
  end.

Definition order_by_started_at_desc (l : list scan_session) : list scan_session :=
  fold_right insert_desc [] l.

(** [LIMIT 1 OFFSET ?] with the number of exact value [n]: the
    statement fails when SQLite cannot take the number for an integer;
    otherwise a negative offset is read as zero.  Rounding moves the
    number away from [n] only from 2^53 on, and a database file holds
    at most 2^32 pages of 2^16 bytes, so both are past the last row of
    any table: the row is looked up at [n]. *)
Definition limit_1_offset {A} (n : Z) (rows : list A) : completion error (option A) :=
  if must_be_int n then Return (nth_error rows (Z.to_nat (Z.max 0 n)))
  else Throw SQLITE_MISMATCH.

(** [(SELECT started_at FROM scan_sessions WHERE id = ?)] *)
Definition started_at_of (t : tables) (sessionId : string) : option string :=
  match List.find (fun s => String.eqb (ss_id s) sessionId) (sessions t) with
  | Some s => Some (ss_started_at s)
  | None => None
  end.

(** [started_at < (SELECT started_at ... WHERE id = ?)]; a comparison
    with [NULL] selects nothing. *)
Definition started_before_session (cutoffId : string) (t : tables) (s : scan_session) : bool :=
  match started_at_of t cutoffId with
  | Some cutoff => String.ltb (ss_started_at s) cutoff
  | None => false
  end.

Definition keepLatestScans (db : connection) (count : option Z)
    : connection * promise error cleanup_report :=
  let count := default 10 count in
  match limit_1_offset (count - 1) (order_by_started_at_desc (sessions (current db))) with
  | Throw err => (db, Rejected err)
  | Return None => (db, Resolved (mkCleanupReport 0 0))
  | Return (Some row) =>
      let cutoffId := ss_id row in
      delete_sessions_where (started_before_session cutoffId) db
  end.

Record delete_report := mkDeleteReport {
  dr_deletedResults : nat
}.

Definition deleteSession (db : connection) (sessionId : string)
    : connection * promise error delete_report :=
  let t0 := current db in
  let '(rs, deletedResults) :=
    sql_delete (fun r => String.eqb (sr_session_id r) sessionId) (results t0) in
  let '(ps, _) :=
    sql_delete (fun p => String.eqb (sp_session_id p) sessionId) (progress t0) in
  let '(ss, _) :=
    sql_delete (fun s => String.eqb (ss_id s) sessionId) (sessions t0) in
  (mkConnection (mkTables ss rs ps (last_result_id t0)) (begun db),
   Resolved (mkDeleteReport deletedResults)).

End ResultsDatabase.

(** ** The rate limiter ([RateLimiter]) *)

Module RateLimiter.
Import Js.

Record limit := mkLimit {
  maxCalls : Z;
  windowMs : Z
}.

(** [this.limits], set by the constructor. *)
Definition limits : list (string * limit) :=
  [ ("start-scan", mkLimit 1 60000);
    ("stop-scan", mkLimit 10 60000);
    ("export-results", mkLimit 5 60000);
    ("save-config", mkLimit 20 60000) ].

(** [this.calls]: the recorded call times of each channel, in
    milliseconds since the epoch. *)
Abbreviation calls := (gmap string (list Z)).

(** [this.calls] after the constructor. *)
Definition constructor : calls := ∅.

(** [Error(`Rate limit exceeded for ${channel}. Try again in
    ${resetTime} seconds.`)]; [resetTime] is [None] when it is not a
    finite number. *)
Inductive error :=
| RateLimitExceeded (channel : string) (resetTime : option Z).

(** [Math.min(...l)]; [None] is [Infinity]. *)
Definition Math_min (l : list Z) : option Z :=
  match l with
  | [] => None
  | x :: l' => Some (fold_left Z.min l' x)
  end.

(** [Math.ceil(x / 1000)] *)
Definition ceil_seconds (x : Z) : Z := - ((- x) / 1000).

(** [calls.filter(time => now - time < limit.windowMs)] *)
Definition in_window (now : Z) (window : Z) (times : list Z) : list Z :=
  List.filter (fun time => now - time <? window) times.

Definition checkLimit (state : calls) (now : Z) (channel : string)
    : calls * completion error bool :=
  match get_property limits channel with
  | Absent => (state, Return true)
  | Own limit =>
      let key := channel in
      let state := match state !! key with
                   | Some _ => state
                   | None => <[key := []]> state
                   end in
      let calls := default [] (state !! key) in
      let validCalls := in_window now (windowMs limit) calls in
      let state := <[key := validCalls]> state in
      if Z.of_nat (length validCalls) >=? maxCalls limit then
        let resetTime :=
          match Math_min validCalls with
          | Some oldestCall => Some (ceil_seconds (windowMs limit - (now - oldestCall)))
          | None => None
          end in
        (state, Throw (RateLimitExceeded channel resetTime))
      else
        (<[key := validCalls ++ [now]]> state, Return true)
  | Inherited =>
      (* [limit] is a member of [Object.prototype]: [limit.windowMs]
         and [limit.maxCalls] are [undefined], and a comparison with
         [undefined] is false *)
      let key := channel in
      let validCalls : list Z := List.filter (fun _ => false) (default [] (state !! key)) in
      (<[key := validCalls ++ [now]]> state, Return true)
  end.

(** [reset(channel)] *)
Definition reset (state : calls) (channel : option string) : calls :=
  match channel with
  | Some c => if String.eqb c "" then ∅ else delete c state
  | None => ∅
  end.

End RateLimiter.

(** ** The IPC validator ([IPCValidator]) *)

Module IPCValidator.
Import Js.

(** The functions of Node's [path] module the validator calls. *)
Class Path := {
  normalize : string -> string;
  resolve : string -> string;
  extname : string -> string
}.

(** Electron's [app.getPath]. *)
Class App := {
  getPath : string -> string
}.

Inductive error :=
| NoValidationSchema (channel : string)
| MissingRequiredField (key : string)
| MustBeAnObject (key : string)
| MustBeAString (key : string)
| MustBeANumber (key : string)
| MustBeABoolean (key : string)
| ExceedsMaximumLength (key : string) (maxLength : Z)
| MustBeAtLeast (key : string) (min : Z)
| MustBeAtMost (key : string) (max : Z)
| ValidationFailed (key : string) (validationResult : value)
| InvalidFileExtension (allowed : list string)
| ExportMustBeXlsx
| PathTraversalDetected
| NotInAllowedDirectory
| ExportNotInAllowedDirectory
| TypeError.

(** [s.toLowerCase()] on the letters of ASCII. *)
Definition lower (c : ascii) : ascii :=
  let n := N_of_ascii c in
  if ((65 <=? n) && (n <=? 90))%N then ascii_of_N (n + 32) else c.

Fixpoint toLowerCase (s : string) : string :=
  match s with
  | EmptyString => EmptyString
  | String c s' => String (lower c) (toLowerCase s')
  end.

(** [s.startsWith(p)] *)
Definition startsWith (s p : string) : bool := String.prefix p s.

(** [s.includes(needle)] *)
Fixpoint includes (s needle : string) : bool :=
  String.prefix needle s ||
  match s with
  | EmptyString => false
  | String _ s' => includes s' needle
  end.

Section Paths.
Context `{Path} `{App}.

(** [allowedDirs.some(dir => resolved.startsWith(path.resolve(dir)))] *)
Definition in_allowed_dirs (allowedDirs : list string) (resolved : string) : bool :=
  existsb (fun dir => startsWith resolved (resolve dir)) allowedDirs.

Definition validateFilePath (filePath : string) (allowedExtensions : list string)
    : completion error bool :=
  let normalized := normalize filePath in
  let resolved := resolve normalized in
  let ext := toLowerCase (extname resolved) in
  if negb (existsb (String.eqb ext) allowedExtensions) then
    Throw (InvalidFileExtension allowedExtensions)
  else if includes normalized ".." then
    Throw PathTraversalDetected
  else
    let allowedDirs :=
      [ getPath "userData"; getPath "documents"; getPath "downloads"; getPath "desktop" ] in
    if negb (in_allowed_dirs allowedDirs resolved) then
      Throw NotInAllowedDirectory
    else Return true.

Definition validateExportPath (exportPath : string) : completion error bool :=
  let normalized := normalize exportPath in
  let resolved := resolve normalized in
  let ext := toLowerCase (extname resolved) in
  if negb (String.eqb ext ".xlsx") then
    Throw ExportMustBeXlsx
  else if includes normalized ".." then
    Throw PathTraversalDetected
  else
    let allowedDirs :=
      [ getPath "documents"; getPath "downloads"; getPath "desktop" ] in
    if negb (in_allowed_dirs allowedDirs resolved) then
      Throw ExportNotInAllowedDirectory
    else Return true.

End Paths.

(** The rules a schema declares for one field; an absent rule is
    [None] ([false] for [required]). *)
Inductive rules :=
| Rules (type : option string) (required : bool)
    (maxLength : option Z) (min max : option Z)
    (properties : option (list (string * rules)))
    (validate : option (value -> completion error value)).

Abbreviation schema := (list (string * rules)).

(** [obj[key]] for a key written in a schema: the own property of the
    payload, [undefined] when it has none; reading a property of
    [undefined] or [null] throws. *)
Definition get (obj : value) (key : string) : completion error value :=
  match obj with
  | VObj fields => Return (default VUndefined (fields !! key))
  | VUndefined | VNull => Throw TypeError
  | _ => Return VUndefined
  end.

Definition is_type (type : option string) (t : string) : bool :=
  match type with
  | Some s => String.eqb s t
  | None => false
  end.

Section Entries.

(** What one turn of the loop does with a field: throw, [continue]
    ([None]), or set [validated[key]] ([Some]). *)
Variable field : string -> rules -> value -> completion error (option value).

(** [for (const [key, rules] of Object.entries(schema))] *)
Fixpoint for_entries (obj : value) (entries : schema)
    (validated : gmap string value) : completion error (gmap string value) :=
  match entries with
  | [] => Return validated
  | (key, rules) :: entries =>
      match get obj key with
      | Throw e => Throw e
      | Return value =>
          match field key rules value with
          | Throw e => Throw e
          | Return None => for_entries obj entries validated
          | Return (Some v) => for_entries obj entries (<[key := v]> validated)
          end
      end
  end.

End Entries.

(** [rules.maxLength && value.length > rules.maxLength] *)
Definition too_long (maxLength : option Z) (value : value) : bool :=
  match maxLength, value with
  | Some n, VStr s => negb (n =? 0) && (Z.of_nat (String.length s) >? n)
  | _, _ => false
  end.

(** [rules.min !== undefined && value < rules.min]; a comparison with
    [NaN] is false. *)
Definition below (min : option Z) (value : value) : bool :=
  match min, value with
  | Some lo, VNum x => x <? lo
  | _, _ => false
  end.

(** [rules.max !== undefined && value > rules.max]; a comparison with
    [NaN] is false. *)
Definition above (max : option Z) (value : value) : bool :=
  match max, value with
  | Some hi, VNum x => x >? hi
  | _, _ => false
  end.

(** The custom validation and the assignment [validated[key] = value]
    that ends the loop body: a custom predicate passes when it returns
    [true] or [undefined]. *)
Definition custom_validation (key : string)
    (validate : option (value -> completion error value)) (value : value)
    : completion error (option Js.value) :=
  match validate with
  | Some custom =>
      match custom value with
      | Throw e => Throw e
      | Return validationResult =>
          match validationResult with
          | VBool true | VUndefined => Return (Some value)
          | _ => Throw (ValidationFailed key validationResult)
          end
      end
  | None => Return (Some value)
  end.

(** The body of the loop of [validateObject]. *)
Fixpoint validate_field (key : string) (r : rules) (value : Js.value) {struct r}
    : completion error (option Js.value) :=
  match r with
  | Rules type required maxLength min max properties validate =>
      (* check required *)
      if required && nullish value then Throw (MissingRequiredField key)
      (* skip if optional and not provided *)
      else if negb required && nullish value then Return None
      (* type check *)
      else if is_type type "object" && negb (String.eqb (typeof value) "object")
      then Throw (MustBeAnObject key)
      else if is_type type "string" && negb (String.eqb (typeof value) "string")
      then Throw (MustBeAString key)
      else if is_type type "number" && negb (String.eqb (typeof value) "number")
      then Throw (MustBeANumber key)
      else if is_type type "boolean" && negb (String.eqb (typeof value) "boolean")
      then Throw (MustBeABoolean key)
      (* string validations *)
      else if is_type type "string" && too_long maxLength value
      then Throw (ExceedsMaximumLength key (default 0 maxLength))
      (* number validations *)
      else if is_type type "number" && below min value
      then Throw (MustBeAtLeast key (default 0 min))
      else if is_type type "number" && above max value
      then Throw (MustBeAtMost key (default 0 max))
      else
        match properties with
        | Some props =>
            if is_type type "object" then
              (* object validations (recursive) *)
              match for_entries validate_field value props ∅ with
              | Throw e => Throw e
              | Return sub => Return (Some (VObj sub))
              end
            else custom_validation key validate value
        | None => custom_validation key validate value
        end
  end.

Definition validateObject (obj : value) (schema : schema)
    : completion error (gmap string value) :=
  for_entries validate_field obj schema ∅.

(** A validated value holds only what the rules of its field declare:
    under an object rule with properties, an object each of whose
    fields is a property, again holding only what that property
    declares. *)
Fixpoint declared_by (r : rules) (v : value) {struct r} : Prop :=
  match r with
  | Rules type _ _ _ _ (Some props) _ =>
      if is_type type "object" then
        exists sub, v = VObj sub /\
          forall key v', sub !! key = Some v' ->
            (fix some_property (entries : list (string * rules)) : Prop :=
               match entries with
               | [] => False
               | (k, r') :: entries => (k = key /\ declared_by r' v') \/ some_property entries
               end) props
      else True
  | _ => True
  end.

(** The fields of [validated] are fields the schema declares. *)
Definition only_declared (schema : schema) (validated : gmap string value) : Prop :=
  forall key v, validated !! key = Some v ->
    exists r, In (key, r) schema /\ declared_by r v.

Section Schemas.
Context `{Path} `{App}.

(** [(value) => IPCValidator.validateFilePath(value, exts)] *)
Definition file_path_rule (exts : list string) (v : value) : completion error value :=
  match v with
  | VStr s =>
      match validateFilePath s exts with
      | Return b => Return (VBool b)
      | Throw e => Throw e
      end
  | _ => Throw TypeError
  end.

(** [(value) => !value || IPCValidator.validateFilePath(value, exts)] *)
Definition optional_file_path_rule (exts : list string) (v : value) : completion error value :=
  if negb (truthy v) then Return (VBool true) else file_path_rule exts v.

(** [(value) => IPCValidator.validateExportPath(value)] *)
Definition export_path_rule (v : value) : completion error value :=
  match v with
  | VStr s =>
      match validateExportPath s with
      | Return b => Return (VBool b)
      | Throw e => Throw e
      end
  | _ => Throw TypeError
  end.

Definition number_between (lo hi : Z) : rules :=
  Rules (Some "number") false None (Some lo) (Some hi) None None.

(** [IPCValidator.schemas] *)
Definition schemas : list (string * schema) :=
  [ ("start-scan",
      [ ("storeMappingFile",
          Rules (Some "string") true (Some 500) None None None
            (Some (file_path_rule [".csv"])));
        ("itemListFile",
          Rules (Some "string") false (Some 500) None None None
            (Some (optional_file_path_rule [".csv"; ".xlsx"])));
        ("settings",
          Rules (Some "object") true None None None
            (Some [ ("delayBetweenItems", number_between 500 60000);
                    ("delayBetweenStores", number_between 1000 120000);
                    ("pageTimeout", number_between 5000 300000);
                    ("maxRetries", number_between 1 10);
                    ("maxConcurrentAgents", number_between 1 31);
                    ("headless", Rules (Some "boolean") false None None None None None) ])
            None) ]);
    ("export-results",
      [ ("exportPath",
          Rules (Some "string") true (Some 500) None None None
            (Some export_path_rule)) ]);
    ("save-config",
      [ ("config", Rules (Some "object") true None None None None None) ]) ].

(** [IPCValidator.validate(channel, data)]; a channel that names a
    member of [Object.prototype] finds that member, which has no
    entries. *)
Definition validate (channel : string) (data : value)
    : completion error (gmap string value) :=
  match get_property schemas channel with
  | Absent => Throw (NoValidationSchema channel)
  | Own schema => validateObject data schema
  | Inherited => validateObject data []
  end.

End Schemas.

End IPCValidator.

(** ** Node's [path] module on POSIX

    [path.posix.normalize], [path.posix.resolve] (of one argument) and
    [path.posix.extname], for a process whose working directory is
    [cwd]. *)

Module Posix.

Definition slash : ascii := "/".

(** The segments between the slashes of [s]; [seg] is the segment
    being read. *)
Fixpoint split (s : string) (seg : string) : list string :=
  match s with
  | EmptyString => [seg]
  | String c s' =>
      if Ascii.eqb c slash then seg :: split s' ""
      else split s' (seg +:+ String c "")
  end.

Fixpoint join (segs : list string) : string :=
  match segs with
  | [] => ""
  | [seg] => seg
  | seg :: segs' => seg +:+ String slash (join segs')
  end.

(** One segment against the segments kept so far (last one first). *)
Definition push (allowAboveRoot : bool) (kept : list string) (seg : string) : list string :=
  if String.eqb seg "" || String.eqb seg "." then kept
  else if String.eqb seg ".." then
    match kept with
    | last :: kept' =>
        if String.eqb last ".." then seg :: kept else kept'
    | [] => if allowAboveRoot then [seg] else []
    end
  else seg :: kept.

(** [normalizeString(path, allowAboveRoot)] *)
Definition normalizeString (path : string) (allowAboveRoot : bool) : string :=
  join (rev (fold_left (push allowAboveRoot) (split path "") [])).

Definition isAbsolute (path : string) : bool :=
  match path with
  | String c _ => Ascii.eqb c slash
  | EmptyString => false
  end.

Fixpoint endsWithSlash (path : string) : bool :=
  match path with
  | EmptyString => false
  | String c EmptyString => Ascii.eqb c slash
  | String _ path' => endsWithSlash path'
  end.

Definition normalize (path : string) : string :=
  if String.eqb path "" then "."
  else
    let trailingSeparator := endsWithSlash path in
    let p := normalizeString path (negb (isAbsolute path)) in
    if String.eqb p "" then
      if isAbsolute path then "/"
      else if trailingSeparator then "./" else "."
    else
      let p := if trailingSeparator then p +:+ "/" else p in
      if isAbsolute path then String slash p else p.

Definition resolve (cwd : string) (path : string) : string :=
  let resolvedPath :=
    if String.eqb path "" then cwd
    else if isAbsolute path then path
    else cwd +:+ String slash path in
  String slash (normalizeString resolvedPath false).

(** The last segment of [segs] that is not empty. *)
Definition lastPart (segs : list string) : string :=
  match List.filter (fun seg => negb (String.eqb seg "")) (rev segs) with
  | seg :: _ => seg
  | [] => ""
  end.

(** The part of [s] from its last dot on, when the dot is not its
    first character; [seen] says whether a character came before. *)
Fixpoint fromLastDot (s : string) (seen : bool) : option string :=
  match s with
  | EmptyString => None
  | String c s' =>
      match fromLastDot s' true with
      | Some ext => Some ext
      | None => if Ascii.eqb c "." && seen then Some s else None
      end
  end.

Definition extname (path : string) : string :=
  let base := lastPart (split path "") in
  if String.eqb base ".." then ""
  else default "" (fromLastDot base false).

(** [path] has a segment that is [..]. *)
Definition has_parent_segment (path : string) : bool :=
  existsb (String.eqb "..") (split path "").

(** The [path] module of a process started in [cwd]. *)
Definition path (cwd : string) : IPCValidator.Path :=
  {| IPCValidator.normalize := normalize;
     IPCValidator.resolve := resolve cwd;
     IPCValidator.extname := extname |}.

(** [app.getPath] for a user whose home directory is [home], on
    Linux. *)
Definition app (home : string) : IPCValidator.App :=
  {| IPCValidator.getPath := fun name =>
       if String.eqb name "userData" then home +:+ "/.config/wfm-scanner"
       else if String.eqb name "documents" then home +:+ "/Documents"
       else if String.eqb name "downloads" then home +:+ "/Downloads"
       else if String.eqb name "desktop" then home +:+ "/Desktop"
       else home |}.

End Posix.

(** ** Vocabulary of the properties and the scenarios they are tried on *)

Module Scenario.
Import Js ResultsDatabase.

(** The invariant of the data model: every result row names a session
    that has a row. *)
Definition referential_integrity (t : tables) : Prop :=
  forall r, In r (results t) ->
    exists s, In s (sessions t) /\ ss_id s = sr_session_id r.

(** Two instants five seconds apart. *)
Definition nine_o_clock : Time.Date := Time.mkDate 2026 3 14 9 0 0 0.
Definition five_past : Time.Date := Time.mkDate 2026 3 14 9 0 5 0.

(** A well-formed result object. *)
Definition good_result : result :=
  mkResultObject (Some "10001") (Some "B08X4FN2K9") (VBool true)
    (Some "Organic Bananas") (Some "Bananas") (Some "$0.79")
    None None (Some 1200) None None
    (Some [JSON.JStr "1 lb"; JSON.JStr "2 lb"]) None
    (Some [("selector", JSON.JStr "h1"); ("attempts", JSON.JNum 2)]) None.

(** A malformed one: it has no store, which the table requires. *)
Definition malformed_result : result :=
  mkResultObject None (Some "B08X4FN2K9") (VBool false)
    None None None None None None (Some "timeout") None
    None None None None.

(** A database with the one running session [S1]. *)
Definition one_session : connection :=
  (createSession fresh nine_o_clock "S1" 5).1.


(** [getDate] and [setDate] in UTC, for day numbers that stay within
    the month. *)
Definition utc_getDate (d : Time.Date) : Z := Time.day d.

Definition utc_setDate (d : Time.Date) (n : Z) : Time.Date :=
  Time.mkDate (Time.year d) (Time.month d) n (Time.hours d) (Time.minutes d)
    (Time.seconds d) (Time.milliseconds d).

Definition first_of_march : Time.Date := Time.mkDate 2026 3 1 8 30 0 0.

(** An old session [S0] and a recent one [S1], each with one result
    and a progress row. *)
Definition two_sessions : connection :=
  let db := (createSession fresh first_of_march "S0" 1).1 in
  let db := (insertResult db first_of_march "S0" good_result).1 in
  let db := (updateProgress db first_of_march "S0" (Some "10001") (Some 1) (Some 1)).1 in
  let db := (createSession db nine_o_clock "S1" 5).1 in
  let db := (insertResult db nine_o_clock "S1" good_result).1 in
  (updateProgress db nine_o_clock "S1" (Some "10001") (Some 1) (Some 5)).1.

(** [a] comes before [b] in [ORDER BY started_at DESC]. *)
Definition not_older (a b : scan_session) : Prop :=
  String.leb (ss_started_at b) (ss_started_at a) = true.

(** The [n] most recently started sessions of a table. *)
Definition most_recent (n : nat) (l : list scan_session) : list scan_session :=
  firstn n (order_by_started_at_desc l).

(** Three sessions created within the same second. *)
Definition three_at_once : connection :=
  let db := (createSession fresh nine_o_clock "A" 1).1 in
  let db := (createSession db nine_o_clock "B" 1).1 in
  (createSession db nine_o_clock "C" 1).1.

(** Two sessions created on different days. *)
Definition two_days : connection :=
  let db := (createSession fresh first_of_march "S0" 1).1 in
  (createSession db nine_o_clock "S1" 5).1.

(** One call of [start-scan] on record, at second 1 of the epoch. *)
Definition one_recent_call : gmap string (list Z) := <["start-scan" := [1000]]> ∅.

(** The process of a Linux user. *)
Definition linux_path : IPCValidator.Path := Posix.path "/opt/wfm-scanner".
Definition linux_app : IPCValidator.App := Posix.app "/home/user".

(** [file] is the directory [dir] or lies below it: the segments of
    [dir] are the first segments of [file]. *)
Fixpoint first_segments (dir file : list string) : bool :=
  match dir, file with
  | [], _ => true
  | d :: dir', f :: file' => String.eqb d f && first_segments dir' file'
  | _ :: _, [] => false
  end.

Definition lies_in (dir file : string) : bool :=
  first_segments (Posix.split dir "") (Posix.split file "").

(** [file] lies in one of the directories [app.getPath] gives for the
    [names]. *)
Definition in_one_of (names : list string) (file : string) : bool :=
  existsb (fun name => lies_in (@IPCValidator.getPath linux_app name) file) names.

(** A [start-scan] payload with a field no schema declares, at the top
    and in the settings. *)
Definition settings_fields : gmap string value :=
  <["headless" := VBool true]> (<["maxRetries" := VNum 3]> ∅).

Definition payload_fields : gmap string value :=
  <["storeMappingFile" := VStr "/home/user/Documents/stores.csv"]>
    (<["settings" := VObj settings_fields]> ∅).

(** The schema of [start-scan] in that process. *)
Definition start_scan_schema : IPCValidator.schema :=
  match @IPCValidator.schemas linux_path linux_app with
  | (_, schema) :: _ => schema
  | [] => []
  end.

(** The inserts of a batch one after the other: the tables with the
    rows of those that succeed, and the errors of those that fail. *)
Fixpoint insert_each (t : tables) (now : Time.Date) (sessionId : string)
    (rs : list result) : tables * list error :=
  match rs with
  | [] => (t, [])
  | r :: rs =>
      match insert_scan_result t now sessionId r with
      | Return (t', _) => insert_each t' now sessionId rs
      | Throw e =>
          let '(t', errors) := insert_each t now sessionId rs in (t', e :: errors)
      end
  end.

(** Noon of the day three days before [five_past]. *)
Definition noon_on_the_eleventh : Time.Date := Time.mkDate 2026 3 11 12 0 0 0.

(** Every recorded call time of every channel is at most [now]. *)
Definition times_in_the_past (state : gmap string (list Z)) (now : Z) : Prop :=
  forall channel times time,
    state !! channel = Some times -> In time times -> time <= now.

End Scenario.

(** ** The read methods of the results database *)

Module ResultsQueries.
Import Js ResultsDatabase.

(** [ORDER BY id DESC] and [ORDER BY id] on [scan_results]. *)
Fixpoint insert_by_id_desc (r : scan_result) (l : list scan_result) : list scan_result :=
  match l with
  | [] => [r]
  | x :: l' =>
      if sr_id x <=? sr_id r then r :: l else x :: insert_by_id_desc r l'
  end.

Definition order_by_id_desc (l : list scan_result) : list scan_result :=
  fold_right insert_by_id_desc [] l.

Fixpoint insert_by_id (r : scan_result) (l : list scan_result) : list scan_result :=
  match l with
  | [] => [r]
  | x :: l' =>
      if sr_id r <=? sr_id x then r :: l else x :: insert_by_id r l'
  end.

Definition order_by_id (l : list scan_result) : list scan_result :=
  fold_right insert_by_id [] l.

(** The rows from [offset] on, at most [limit] of them: a negative
    offset is read as zero, a negative limit as no limit. *)
Definition slice {A} (limit offset : Z) (rows : list A) : list A :=
  let rows := skipn (Z.to_nat (Z.max 0 offset)) rows in
  if limit <? 0 then rows else firstn (Z.to_nat limit) rows.

(** [LIMIT ? OFFSET ?]: the statement fails when SQLite cannot take
    one of the two numbers for an integer. *)
Definition limit_offset {A} (limit offset : Z) (rows : list A)
    : completion error (list A) :=
  if must_be_int limit && must_be_int offset then Return (slice limit offset rows)
  else Throw SQLITE_MISMATCH.

(** [WHERE session_id = ?] *)
Definition of_session (sessionId : string) (rows : list scan_result) : list scan_result :=
  List.filter (fun r => String.eqb (sr_session_id r) sessionId) rows.

(** [rows.map(this.deserializeResult)] *)
Fixpoint deserialize_rows (rows : list scan_result) : completion error (list deserialized) :=
  match rows with
  | [] => Return []
  | row :: rows =>
      match deserializeResult row with
      | Throw e => Throw e
      | Return d =>
          match deserialize_rows rows with
          | Throw e => Throw e
          | Return ds => Return (d :: ds)
          end
      end
  end.

(** [getResultsRange]: an error of the statement rejects the promise;
    an exception of [deserializeResult] leaves the callback of the
    driver, and the promise is not settled. *)
Definition getResultsRange (db : connection) (sessionId : string) (offset limit : Z)
    : promise error (list deserialized) :=
  match limit_offset limit offset
          (order_by_id_desc (of_session sessionId (results (current db)))) with
  | Throw err => Rejected err
  | Return rows =>
      match deserialize_rows rows with
      | Return ds => Resolved ds
      | Throw _ => Pending
      end
  end.

(** [streamResults]: the caller's [callback] is run on each row in turn;
    it acts on the caller's state [V].  The promise resolves with the
    number of rows.  An exception of [deserializeResult] leaves the row
    callback: the rows before it have been visited and the promise is
    not settled. *)
Fixpoint stream_rows {V} (callback : deserialized -> V -> V)
    (rows : list scan_result) (v : V) (count : nat) : V * promise error nat :=
  match rows with
  | [] => (v, Resolved count)
  | row :: rows =>
      match deserializeResult row with
      | Throw _ => (v, Pending)
      | Return d => stream_rows callback rows (callback d v) (S count)
      end
  end.

Definition streamResults {V} (db : connection) (sessionId : string)
    (callback : deserialized -> V -> V) (v : V) : V * promise error nat :=
  stream_rows callback (order_by_id (of_session sessionId (results (current db)))) v 0.

(** [MIN(column)] and [MAX(column)] on text; [NULL] on no rows. *)
Definition text_min (l : list string) : option string :=
  match l with
  | [] => None
  | x :: l' => Some (fold_left (fun m y => if String.ltb y m then y else m) l' x)
  end.

Definition text_max (l : list string) : option string :=
  match l with
  | [] => None
  | x :: l' => Some (fold_left (fun m y => if String.ltb m y then y else m) l' x)
  end.

(** [SUM(CASE WHEN success = flag THEN 1 ELSE 0 END)]; [NULL] on no
    rows. *)
Definition sum_success (flag : Z) (rows : list scan_result) : option Z :=
  match rows with
  | [] => None
  | _ => Some (Z.of_nat (length (List.filter (fun r => sr_success r =? flag) rows)))
  end.

(** The load times that are not [NULL]. *)
Definition load_times (rows : list scan_result) : list Z :=
  omap sr_load_time rows.

(** The row [getStatistics] resolves with.  [avg_load_time] holds the
    sum and the number of the load times whose quotient [AVG] returns,
    [None] when there is none. *)
Record statistics := mkStatistics {
  st_total : nat;
  st_success_count : option Z;
  st_failed_count : option Z;
  st_avg_load_time : option (Z * nat);
  st_started_at : option string;
  st_last_updated : option string
}.

Definition getStatistics (db : connection) (sessionId : string) : promise error statistics :=
  let rows := of_session sessionId (results (current db)) in
  Resolved (mkStatistics
    (length rows)
    (sum_success 1 rows)
    (sum_success 0 rows)
    (match load_times rows with
     | [] => None
     | times => Some (fold_right Z.add 0 times, length times)
     end)
    (text_min (List.map sr_timestamp rows))
    (text_max (List.map sr_timestamp rows))).

(** A row of [getAllSessions]: the columns of the session, with the
    three aggregates over its results; [success_count] and
    [failed_count] take the place of the columns of these names. *)
Record session_summary := mkSummary {
  su_session : scan_session;
  su_result_count : nat;
  su_success_count : Z;
  su_failed_count : Z
}.

(** The group of one session in [scan_sessions s LEFT JOIN scan_results
    r ON s.id = r.session_id GROUP BY s.id]; [id] is the primary key, so
    a group holds one session. *)
Definition summarize (t : tables) (s : scan_session) : session_summary :=
  let rows := of_session (ss_id s) (results t) in
  mkSummary s (length rows)
    (Z.of_nat (length (List.filter (fun r => sr_success r =? 1) rows)))
    (Z.of_nat (length (List.filter (fun r => sr_success r =? 0) rows))).

Definition getAllSessions (db : connection) : promise error (list session_summary) :=
  let t := current db in
  Resolved (List.map (summarize t) (order_by_started_at_desc (sessions t))).

(** [(bytes / (1024 * 1024)).toFixed(2)] for the size of a file in
    bytes.  The quotient by a power of two is exact in binary floating
    point, and [toFixed] rounds the exact value to the nearest
    hundredth, upwards on a tie: the number of hundredths, and the
    text. *)
Definition hundredths_of_MB (bytes : Z) : Z := (200 * bytes + 1048576) / 2097152.

Definition toFixed2_MB (bytes : Z) : string :=
  let n := hundredths_of_MB bytes in
  JSON.print_number (n / 100) (String "." (Time.pad2 (n mod 100) "")).

(** The object [getDatabaseStats] resolves with. *)
Record database_stats := mkDatabaseStats {
  sessionCount : nat;
  resultCount : nat;
  fileSizeBytes : Z;
  fileSizeMB : string;
  oldestSession : option string;
  newestSession : option string
}.

(** [getDatabaseStats]; [size] is what [fs.statSync(this.dbPath).size]
    returns, [None] when [statSync] throws. *)
Definition getDatabaseStats (db : connection) (size : option Z)
    : promise error database_stats :=
  let t := current db in
  Resolved (mkDatabaseStats
    (length (sessions t))
    (length (results t))
    (match size with Some bytes => bytes | None => 0 end)
    (match size with Some bytes => toFixed2_MB bytes | None => "0.00" end)
    (text_min (List.map ss_started_at (sessions t)))
    (text_max (List.map ss_started_at (sessions t)))).

(** The second an instant falls in, on the time line of the fields. *)
Definition second_of (d : Time.Date) : Z := Time.ticks d / 1000.

(** *** The states the methods lead to *)

(** A database reached from a new file by the mutating methods. *)
Inductive reachable : connection -> Prop :=
| reach_fresh : reachable fresh
| reach_createSession db now sessionId totalItems :
    reachable db -> reachable (createSession db now sessionId totalItems).1
| reach_insertResult db now sessionId r :
    reachable db -> reachable (insertResult db now sessionId r).1
| reach_insertBatch db now sessionId rs :
    reachable db -> reachable (insertBatch db now sessionId rs).1
| reach_updateProgress db now sessionId currentStore currentItem totalItems :
    reachable db ->
    reachable (updateProgress db now sessionId currentStore currentItem totalItems).1
| reach_completeSession db now sessionId :
    reachable db -> reachable (completeSession db now sessionId).1
| reach_cleanupOldSessions getDate setDate db now daysToKeep :
    reachable db -> reachable (cleanupOldSessions getDate setDate db now daysToKeep).1
| reach_keepLatestScans db count :
    reachable db -> reachable (keepLatestScans db count).1
| reach_deleteSession db sessionId :
    reachable db -> reachable (deleteSession db sessionId).1.

(** A row as [insertResult] writes it: a success flag of 0 or 1 and
    payload columns that [deserializeResult] reads. *)
Definition well_stored (row : scan_result) : Prop :=
  (sr_success row = 0 \/ sr_success row = 1) /\
  exists d, deserializeResult row = Return d.

(** A session row as the methods write it: the three counters at
    their default, and a status of [running] with no completion time
    or of [completed] with one. *)
Definition as_written (s : scan_session) : Prop :=
  ss_processed_items s = 0 /\ ss_success_count s = 0 /\ ss_failed_count s = 0 /\
  ((ss_status s = "running" /\ ss_completed_at s = None) \/
   (ss_status s = "completed" /\ exists t, ss_completed_at s = Some t)).

(** The constraints the tables keep: session ids are unique, a session
    has at most one progress row, result ids grow with the rowid and
    stay at or below the [AUTOINCREMENT] counter, every result row is
    well stored and every session row is as the methods write it. *)
Record well_formed (t : tables) : Prop := mkWellFormed {
  wf_sessions : List.NoDup (List.map ss_id (sessions t));
  wf_progress : List.NoDup (List.map sp_session_id (progress t));
  wf_result_ids : StronglySorted Z.lt (List.map sr_id (results t));
  wf_last_id : List.Forall (fun r => sr_id r <= last_result_id t) (results t);
  wf_results : List.Forall well_stored (results t);
  wf_session_rows : List.Forall as_written (sessions t)
}.

(** The constraints hold of the rows the connection sees and of the
    rows a rollback would restore. *)
Definition consistent (db : connection) : Prop :=
  well_formed (current db) /\
  forall saved, begun db = Some saved -> well_formed saved.


(** No row is left without its session: every result row and every
    progress row names a session that has a row. *)
Definition no_orphans (t : tables) : Prop :=
  Scenario.referential_integrity t /\
  forall p, In p (progress t) ->
    exists s, In s (sessions t) /\ ss_id s = sp_session_id p.

(** *** Databases the properties are tried on *)

(** A result of a page that failed to load. *)
Definition failed_result : result :=
  mkResultObject (Some "10002") (Some "B000000000") (VBool false)
    None None None None None None (Some "timeout") (Some 2)
    None None None None.

(** The session [S1] with three results: found, failed, found. *)
Definition three_results : connection :=
  let db := (insertResult Scenario.one_session Scenario.nine_o_clock "S1"
               Scenario.good_result).1 in
  let db := (insertResult db Scenario.five_past "S1" failed_result).1 in
  (insertResult db Scenario.five_past "S1" Scenario.good_result).1.

End ResultsQueries.

(** ** Histories of the rate limiter *)

Module RateLimiterHistory.
Import Js RateLimiter.

(** A request: the time [Date.now()] returns when it is checked, and
    its channel. *)
Definition request : Type := Z * string.

(** [checkLimit] on each request in turn, on the one limiter of the
    process: the final state and, for each request, whether it was let
    through. *)
Fixpoint checks (state : calls) (requests : list request) : calls * list bool :=
  match requests with
  | [] => (state, [])
  | (now, channel) :: requests =>
      let '(state, outcome) := checkLimit state now channel in
      let '(final, outcomes) := checks state requests in
      (final, match outcome with Return _ => true | Throw _ => false end :: outcomes)
  end.

(** The times at which calls of [channel] were let through. *)
Definition times_of (channel : string) (history : list request) : list Z :=
  List.map fst (List.filter (fun r => String.eqb (snd r) channel) history).

(** The sliding window read on the whole history of the calls let
    through, of which nothing is forgotten: a call of a channel with a
    declared limit passes when fewer than [maxCalls] calls of the
    channel passed less than [windowMs] before it; a call of any other
    channel passes. *)
Definition passes (history : list request) (now : Z) (channel : string) : bool :=
  match get_property limits channel with
  | Own limit =>
      Z.of_nat (length (in_window now (windowMs limit) (times_of channel history)))
        <? maxCalls limit
  | _ => true
  end.

Fixpoint sliding_window (history : list request) (requests : list request) : list bool :=
  match requests with
  | [] => []
  | (now, channel) :: requests =>
      let allowed := passes history now channel in
      allowed ::
        sliding_window (if allowed then history ++ [(now, channel)] else history) requests
  end.

(** A clock that does not run backwards. *)
Definition clock_goes_forward (requests : list request) : Prop :=
  StronglySorted (fun a b => fst a <= fst b) requests.

(** The limiter remembers, for each channel with a declared limit, the
    calls let through that were in the window at some time [T] not
    after [bound]. *)
Definition remembers (state : calls) (history : list request) (bound : Z) : Prop :=
  forall channel limit,
    get_property limits channel = Own limit ->
    exists T, T <= bound /\
      default [] (state !! channel) =
      in_window T (windowMs limit) (times_of channel history).

(** Three calls of [start-scan]: at 0 s, 30 s and 60 s. *)
Definition three_starts : list request :=
  [ (0, "start-scan"); (30000, "start-scan"); (60000, "start-scan") ].

End RateLimiterHistory.

(** ** What the validator lets through *)

Module Conformance.
Import Js IPCValidator.

(** [rules.required] *)
Definition required_of (r : rules) : bool :=
  match r with
  | Rules _ required _ _ _ _ _ => required
  end.

(** The custom predicate of a field, if it has one, returned [true] or
    [undefined] on [v]. *)
Definition passed (validate : option (value -> completion error value)) (v : value) : Prop :=
  match validate with
  | Some custom => custom v = Return (VBool true) \/ custom v = Return VUndefined
  | None => True
  end.

(** A value as the rules of its field let it through: given, of the
    declared type, within the declared length, a number that is [NaN]
    or within the declared bounds, accepted by the custom predicate;
    under an object rule with properties, an object each of whose
    fields is a property and is as the rules of that property let it
    through. *)
Fixpoint conforms (r : rules) (v : value) {struct r} : Prop :=
  match r with
  | Rules type _ maxLength min max properties validate =>
      nullish v = false /\
      (is_type type "string" = true ->
         exists s, v = VStr s /\ too_long maxLength v = false) /\
      (is_type type "number" = true ->
         v = VNaN \/
         exists x, v = VNum x /\ below min v = false /\ above max v = false) /\
      (is_type type "boolean" = true -> exists b, v = VBool b) /\
      (is_type type "object" = true -> exists sub, v = VObj sub) /\
      match properties with
      | Some props =>
          if is_type type "object" then
            exists sub, v = VObj sub /\
              forall key v', sub !! key = Some v' ->
                (fix some_property (entries : list (string * rules)) : Prop :=
                   match entries with
                   | [] => False
                   | (k, r') :: entries => (k = key /\ conforms r' v') \/ some_property entries
                   end) props
          else passed validate v
      | None => passed validate v
      end
  end.

(** A number that is [NaN] or lies between [lo] and [hi]. *)
Definition number_in (lo hi : Z) (v : value) : Prop :=
  v = VNaN \/ exists x, v = VNum x /\ lo <= x <= hi.

(** The settings of a scan within the bounds of the [start-scan]
    schema; a setting may be missing. *)
Definition bounded_settings (settings : gmap string value) : Prop :=
  forall key v, settings !! key = Some v ->
    (key = "delayBetweenItems" /\ number_in 500 60000 v) \/
    (key = "delayBetweenStores" /\ number_in 1000 120000 v) \/
    (key = "pageTimeout" /\ number_in 5000 300000 v) \/
    (key = "maxRetries" /\ number_in 1 10 v) \/
    (key = "maxConcurrentAgents" /\ number_in 1 31 v) \/
    (key = "headless" /\ exists b, v = VBool b).

End Conformance.

(** ** [sanitizeASIN] *)

Module Sanitize.
Import Js.

(** [Error('ASIN must be a string')] and [Error('Invalid ASIN format
    (must be 10 alphanumeric characters)')]. *)
Inductive error :=
| ASINMustBeAString
| InvalidASINFormat.

(** The class [[A-Z0-9]]. *)
Definition upper_or_digit (c : ascii) : bool :=
  let n := N_of_ascii c in
  (((65 <=? n) && (n <=? 90)) || ((48 <=? n) && (n <=? 57)))%N.

(** [/^class{n}$/.test(s)]: the whole of [s] is [n] characters of the
    class. *)
Fixpoint test_repeat (class : ascii -> bool) (n : nat) (s : string) : bool :=
  match n, s with
  | O, EmptyString => true
  | S n', String c s' => class c && test_repeat class n' s'
  | _, _ => false
  end.

Definition sanitizeASIN (asin : value) : completion error string :=
  match asin with
  | VStr s =>
      if negb (test_repeat upper_or_digit 10 s) then Throw InvalidASINFormat
      else Return s
  | _ => Throw ASINMustBeAString
  end.

End Sanitize.

(** ** The guarded handlers of the main process ([setupIpcHandlers]) *)

Module Main.
Import Js.

(** The error a handler catches and reports as
    [{ success: false, error: error.message }]. *)
Inductive failure :=
| RateLimit (e : RateLimiter.error)
| Validation (e : IPCValidator.error).

(** What a handler returns: the reply of its body, or the failure it
    caught. *)
Inductive reply (A : Type) :=
| Success (a : A)
| Failure (e : failure).
Arguments Success {A} a.
Arguments Failure {A} e.

Section Handlers.
Context `{IPCValidator.Path} `{IPCValidator.App}.

(** The handler of [save-config], on the limiter of the process: the
    state of the limiter afterwards, the configuration handed to
    [saveConfig] if it is called, and the reply.  [saveConfig] catches
    the errors of the write itself. *)
Definition save_config (state : RateLimiter.calls) (now : Z) (config : value)
    : RateLimiter.calls * option value * reply unit :=
  match RateLimiter.checkLimit state now "save-config" with
  | (state, Throw e) => (state, None, Failure (RateLimit e))
  | (state, Return _) =>
      match IPCValidator.validate "save-config" (VObj {[ "config" := config ]}) with
      | Throw e => (state, None, Failure (Validation e))
      | Return _ => (state, Some config, Success tt)
      end
  end.

Section StartScan.

(** The rest of the handler of [start-scan], run on the validated
    configuration: the scan, the export and the reply, or the failure
    of one of them. *)
Variable R : Type.
Variable run_scan : gmap string value -> R.

(** The handler of [start-scan]. *)
Definition start_scan (state : RateLimiter.calls) (now : Z) (config : value)
    : RateLimiter.calls * reply R :=
  match RateLimiter.checkLimit state now "start-scan" with
  | (state, Throw e) => (state, Failure (RateLimit e))
  | (state, Return _) =>
      match IPCValidator.validate "start-scan" config with
      | Throw e => (state, Failure (Validation e))
      | Return validated => (state, Success (run_scan validated))
      end
  end.

End StartScan.

End Handlers.

End Main.

(** * Properties *)

(** ** Lists *)

Section ListFacts.
Context {A : Type}.
Implicit Types (f w : A -> bool) (l : list A).

Lemma filter_filter_same f l :
  List.filter f (List.filter f l) = List.filter f l.
Proof.
  induction l as [|x l IH]; simpl; [reflexivity|].
  destruct (f x) eqn:E; simpl; rewrite ?E, IH; reflexivity.
Qed.

Lemma filter_filter_negb w l :
  List.filter w (List.filter (fun x => negb (w x)) l) = [].
Proof.
  induction l as [|x l IH]; simpl; [reflexivity|].
  destruct (w x) eqn:E; simpl; rewrite ?E; exact IH.
Qed.

Lemma filter_none w l :
  (forall x, In x l -> w x = false) -> List.filter w l = [].
Proof.
  induction l as [|x l IH]; simpl; intros Hw; [reflexivity|].
  rewrite (Hw x) by (left; reflexivity).
  apply IH. intros y Hy. apply Hw. right. exact Hy.
Qed.

Lemma length_filter_split w l :
  length l = (length (List.filter (fun x => negb (w x)) l) + length (List.filter w l))%nat.
Proof.
  induction l as [|x l IH]; simpl; [reflexivity|].
  destruct (w x); simpl; lia.
Qed.

End ListFacts.

(** ** JSON texts read back *)

Module JsonFacts.
Import JSON.

(** Induction on JSON data, with the hypothesis for every element of an
    array and every member of an object. *)
Lemma json_nested_ind (P : json -> Prop) :
  P JNull ->
  (forall b, P (JBool b)) ->
  (forall n, P (JNum n)) ->
  (forall s, P (JStr s)) ->
  (forall l, List.Forall P l -> P (JArr l)) ->
  (forall l, List.Forall (fun kv => P (snd kv)) l -> P (JObj l)) ->
  forall v, P v.
Proof.
  intros Hnull Hbool Hnum Hstr Harr Hobj.
  fix IH 1. intros [| b | n | s | l | l].
  - exact Hnull.
  - apply Hbool.
  - apply Hnum.
  - apply Hstr.
  - apply Harr. induction l as [|v l IHl]; constructor; [apply IH | exact IHl].
  - apply Hobj. induction l as [|[key v] l IHl]; constructor; [apply IH | exact IHl].
Qed.

(** *** String literals *)

Lemma parse_escape_char (c : ascii) (k : string) :
  parse_chars (escape_char c k) = cons_char c (parse_chars k).
Proof.
  destruct c as [[] [] [] [] [] [] [] []]; reflexivity.
Qed.

Lemma parse_escape (s k : string) :
  parse_chars (escape s (String dquote k)) = Some (s, k).
Proof.
  induction s as [|c s IH]; simpl.
  - reflexivity.
  - rewrite parse_escape_char, IH. reflexivity.
Qed.

(** *** Numbers *)

Lemma span_digits_uint (u : Decimal.uint) (k : string) :
  no_digit_head k ->
  span_digits (NilEmpty.string_of_uint u ++ k) = (NilEmpty.string_of_uint u, k).
Proof.
  intros Hk. induction u; simpl; rewrite ?IHu; try reflexivity.
  destruct k as [|c k]; simpl in *; [reflexivity | rewrite Hk; reflexivity].
Qed.

(** The digits of a number start with a zero only when the number is
    zero. *)
Lemma to_uint_normal (m : N) :
  N.to_uint m = Decimal.D0 Decimal.Nil \/
  (N.to_uint m <> Decimal.Nil /\ forall u, N.to_uint m <> Decimal.D0 u).
Proof.
  pose proof (DecimalN.Unsigned.to_of (N.to_uint m)) as Hnorm.
  rewrite DecimalN.Unsigned.of_to in Hnorm.
  destruct (N.to_uint m) as [|u| | | | | | | | |] eqn:E;
    try (right; split; [discriminate | intros ?; discriminate]).
  rewrite DecimalFacts.unorm_D0 in Hnorm.
  unfold Decimal.unorm in Hnorm.
  destruct (Decimal.nzhead u) eqn:Hz; try discriminate.
  - left. exact Hnorm.
  - exfalso. rewrite <- Hz in Hnorm.
    exact (DecimalFacts.nzhead_nonzero _ _ (eq_sym Hnorm)).
Qed.

Lemma digit_is_not (c x : ascii) :
  is_digit c = true -> is_digit x = false -> Ascii.eqb c x = false.
Proof.
  intros Hc Hx. apply Ascii.eqb_neq. intros ->. congruence.
Qed.

(** The digits of a number: a first digit and the rest. *)
Lemma digits_head (m : N) :
  exists c rest,
    NilZero.string_of_uint (N.to_uint m) = String c rest /\
    NilEmpty.string_of_uint (N.to_uint m) = String c rest /\
    is_digit c = true /\
    (Ascii.eqb c "0" && negb (String.eqb rest "")) = false.
Proof.
  destruct (to_uint_normal m) as [Hzero | [Hnil Hhead]].
  - rewrite Hzero. exists "0"%char, "". repeat split.
  - destruct (N.to_uint m) as [|u|u|u|u|u|u|u|u|u|u];
      try (exfalso; apply Hnil; reflexivity);
      try (exfalso; apply (Hhead u); reflexivity);
      eexists _, _; repeat split.
Qed.

Lemma parse_digits_print (m : N) (k : string) :
  no_digit_head k ->
  parse_digits (NilZero.string_of_uint (N.to_uint m) ++ k) = Some (m, k).
Proof.
  intros Hk. destruct (digits_head m) as (c & rest & Hzero & Hempty & Hc & Hlead).
  unfold parse_digits. rewrite Hzero, <- Hempty, span_digits_uint by exact Hk.
  rewrite Hempty, Hlead, <- Hzero.
  rewrite NilZero.usu.
  - rewrite DecimalN.Unsigned.of_to. reflexivity.
  - intros Hnil. rewrite Hnil in Hempty. discriminate.
Qed.

Lemma parse_number_print (n : Z) (k : string) :
  no_digit_head k -> parse_number (print_number n k) = Some (n, k).
Proof.
  intros Hk. destruct n as [|p|p]; unfold print_number.
  - pose proof (parse_digits_print (Z.to_N 0) k Hk) as Hd.
    destruct (digits_head (Z.to_N 0)) as (c & rest & Hzero & _ & Hc & _).
    rewrite Hzero in Hd |- *. simpl. simpl in Hd.
    rewrite (digit_is_not c "-" Hc) by reflexivity. rewrite Hd. reflexivity.
  - pose proof (parse_digits_print (Z.to_N (Zpos p)) k Hk) as Hd.
    destruct (digits_head (Z.to_N (Zpos p))) as (c & rest & Hzero & _ & Hc & _).
    rewrite Hzero in Hd |- *. simpl. simpl in Hd.
    rewrite (digit_is_not c "-" Hc) by reflexivity. rewrite Hd. reflexivity.
  - pose proof (parse_digits_print (Npos p) k Hk) as Hd.
    cbn [parse_number]. change (Ascii.eqb "-" "-") with true. cbn iota.
    rewrite Hd. reflexivity.
Qed.

(** The first character of the text of a number. *)
Lemma print_number_head (n : Z) (k : string) :
  exists c rest, print_number n k = String c rest /\
    (c = "-"%char \/ is_digit c = true).
Proof.
  destruct n as [|p|p]; unfold print_number.
  - destruct (digits_head (Z.to_N 0)) as (c & rest & Hzero & _ & Hc & _).
    rewrite Hzero. simpl. eauto.
  - destruct (digits_head (Z.to_N (Zpos p))) as (c & rest & Hzero & _ & Hc & _).
    rewrite Hzero. simpl. eauto.
  - eauto.
Qed.

Lemma parse_value_number (fuel : nat) (n : Z) (k : string) :
  no_digit_head k ->
  parse_value (S fuel) (print_number n k) = Some (JNum n, k).
Proof.
  intros Hk. pose proof (parse_number_print n k Hk) as Hn.
  destruct (print_number_head n k) as (c & rest & Heq & Hc).
  rewrite Heq in Hn |- *. cbn [parse_value].
  assert (Hother : forall x, x <> "-"%char -> is_digit x = false -> Ascii.eqb c x = false).
  { intros x Hx Hd. destruct Hc as [-> | Hc].
    - apply Ascii.eqb_neq. congruence.
    - apply digit_is_not; assumption. }
  rewrite !Hother by (discriminate || reflexivity).
  rewrite Hn. reflexivity.
Qed.

(** *** Values *)

Lemma parse_elements_S (fuel : nat) (s : string) :
  parse_elements (S fuel) s =
  match parse_value fuel s with
  | Some (v, String c r) =>
      if Ascii.eqb c "," then
        match parse_elements fuel r with
        | Some (vs, r') => Some (v :: vs, r')
        | None => None
        end
      else if Ascii.eqb c "]" then Some ([v], r)
      else None
  | _ => None
  end.
Proof. reflexivity. Qed.

Lemma parse_members_S (fuel : nat) (s : string) :
  parse_members (S fuel) (String dquote s) =
  match parse_chars s with
  | Some (key, String c r) =>
      if negb (Ascii.eqb c ":") then None else
      match parse_value fuel r with
      | Some (v, String c' r') =>
          if Ascii.eqb c' "," then
            match parse_members fuel r' with
            | Some (kvs, r'') => Some ((key, v) :: kvs, r'')
            | None => None
            end
          else if Ascii.eqb c' "}" then Some ([(key, v)], r')
          else None
      | _ => None
      end
  | _ => None
  end.
Proof. reflexivity. Qed.

Lemma parse_value_array (fuel : nat) (c : ascii) (s : string) :
  Ascii.eqb c "]" = false ->
  parse_value (S fuel) (String "[" (String c s)) =
  match parse_elements fuel (String c s) with
  | Some (l, r) => Some (JArr l, r)
  | None => None
  end.
Proof. intros Hc. cbn [parse_value]. simpl Ascii.eqb at 1 2 3 4 5. rewrite Hc. reflexivity. Qed.

Lemma parse_value_object (fuel : nat) (c : ascii) (s : string) :
  Ascii.eqb c "}" = false ->
  parse_value (S fuel) (String "{" (String c s)) =
  match parse_members fuel (String c s) with
  | Some (l, r) => Some (JObj l, r)
  | None => None
  end.
Proof. intros Hc. cbn [parse_value]. simpl Ascii.eqb at 1 2 3 4 5 6. rewrite Hc. reflexivity. Qed.

(** The text of a value starts with a character that closes neither an
    array nor an object. *)
Lemma print_head (v : json) (k : string) :
  exists c rest, print v k = String c rest /\
    Ascii.eqb c "]" = false /\ Ascii.eqb c "}" = false.
Proof.
  destruct v as [| [] | n | s | l | l]; simpl; try (eexists _, _; repeat split; fail).
  destruct (print_number_head n k) as (c & rest & Heq & Hc).
  exists c, rest. split; [exact Heq|].
  destruct Hc as [-> | Hc]; [split; reflexivity|].
  split; apply digit_is_not; auto.
Qed.

Lemma parse_print_elements (l : list json) :
  List.Forall reads_back l -> l <> [] ->
  forall fuel k,
    (list_sum (List.map (fun v => S (size v)) l) <= fuel)%nat ->
    parse_elements fuel (print_elements print l (String "]" k)) = Some (l, k).
Proof.
  induction 1 as [|v l Hv Hl IH]; intros Hne fuel k Hfuel; [congruence|].
  simpl in Hfuel. destruct fuel as [|fuel]; [lia|].
  rewrite parse_elements_S. destruct l as [|v' vs].
  - simpl. rewrite Hv by (simpl; trivial; lia). reflexivity.
  - change (print_elements print (v :: v' :: vs) (String "]" k))
      with (print v (String "," (print_elements print (v' :: vs) (String "]" k)))).
    rewrite Hv by (simpl; trivial; lia).
    change (Ascii.eqb "," ",") with true. cbn iota.
    rewrite IH by (simpl in *; congruence || lia). reflexivity.
Qed.

Lemma parse_print_members (l : list (string * json)) :
  List.Forall (fun kv => reads_back (snd kv)) l -> l <> [] ->
  forall fuel k,
    (list_sum (List.map (fun kv => S (size (snd kv))) l) <= fuel)%nat ->
    parse_members fuel (print_members print l (String "}" k)) = Some (l, k).
Proof.
  induction 1 as [|[key v] l Hv Hl IH]; intros Hne fuel k Hfuel; [congruence|].
  simpl in Hfuel, Hv. destruct fuel as [|fuel]; [lia|].
  destruct l as [|kv' kvs].
  - simpl print_members. unfold quote.
    rewrite parse_members_S, parse_escape.
    change (negb (Ascii.eqb ":" ":")) with false. cbn iota.
    rewrite Hv by (simpl; trivial; lia). reflexivity.
  - change (print_members print ((key, v) :: kv' :: kvs) (String "}" k))
      with (quote key (String ":"
              (print v (String "," (print_members print (kv' :: kvs) (String "}" k)))))).
    unfold quote at 1.
    rewrite parse_members_S, parse_escape.
    change (negb (Ascii.eqb ":" ":")) with false. cbn iota.
    rewrite Hv by (simpl; trivial; lia).
    change (Ascii.eqb "," ",") with true. cbn iota.
    rewrite IH by (simpl in *; congruence || lia). reflexivity.
Qed.

(** Every JSON value is read back from its text. *)
Lemma parse_print_value (v : json) : reads_back v.
Proof.
  induction v as [| b | n | s | l IH | l IH] using json_nested_ind;
    intros fuel k Hfuel Hk; simpl in Hfuel;
    (destruct fuel as [|fuel]; [lia|]).
  - reflexivity.
  - destruct b; reflexivity.
  - apply parse_value_number. exact Hk.
  - simpl print. unfold quote. cbn [parse_value].
    change (Ascii.eqb dquote "n") with false.
    change (Ascii.eqb dquote "t") with false.
    change (Ascii.eqb dquote "f") with false.
    change (Ascii.eqb dquote dquote) with true. cbn iota.
    rewrite parse_escape. reflexivity.
  - destruct l as [|v vs]; [reflexivity|].
    change (print (JArr (v :: vs)) k)
      with (String "[" (print_elements print (v :: vs) (String "]" k))).
    destruct (print_head v
      (match vs with
       | [] => String "]" k
       | _ => String "," (print_elements print vs (String "]" k))
       end)) as (c & rest & Heq & Hc & _).
    assert (Hfirst : print_elements print (v :: vs) (String "]" k) = String c rest).
    { rewrite <- Heq. destruct vs; reflexivity. }
    rewrite Hfirst, parse_value_array by exact Hc.
    rewrite <- Hfirst, parse_print_elements by (assumption || congruence || lia).
    reflexivity.
  - destruct l as [|[key v] kvs]; [reflexivity|].
    change (print (JObj ((key, v) :: kvs)) k)
      with (String "{" (print_members print ((key, v) :: kvs) (String "}" k))).
    assert (Hfirst : exists rest,
      print_members print ((key, v) :: kvs) (String "}" k) = String dquote rest).
    { destruct kvs; simpl; unfold quote; eauto. }
    destruct Hfirst as (rest & Hfirst).
    rewrite Hfirst, parse_value_object by reflexivity.
    rewrite <- Hfirst, parse_print_members by (assumption || congruence || lia).
    reflexivity.
Qed.

(** *** The fuel of [JSON.parse] *)

Lemma length_string_append (a b : string) :
  String.length (a ++ b) = (String.length a + String.length b)%nat.
Proof.
  induction a as [|c a IH]; simpl; [reflexivity | rewrite IH; reflexivity].
Qed.

Lemma length_escape_char (c : ascii) (k : string) :
  (S (String.length k) <= String.length (escape_char c k))%nat.
Proof.
  destruct c as [[] [] [] [] [] [] [] []]; simpl; lia.
Qed.

Lemma length_escape (s k : string) :
  (String.length k <= String.length (escape s k))%nat.
Proof.
  induction s as [|c s IH]; simpl; [lia|].
  pose proof (length_escape_char c (escape s k)). lia.
Qed.

Lemma length_quote (s k : string) :
  (2 + String.length k <= String.length (quote s k))%nat.
Proof.
  unfold quote. simpl.
  pose proof (length_escape s (String dquote k)) as H. simpl in H. lia.
Qed.

Lemma length_print_number (n : Z) (k : string) :
  (1 + String.length k <= String.length (print_number n k))%nat.
Proof.
  destruct n as [|p|p]; unfold print_number.
  - destruct (digits_head (Z.to_N 0)) as (c & rest & Hzero & _).
    rewrite length_string_append, Hzero. simpl. lia.
  - destruct (digits_head (Z.to_N (Zpos p))) as (c & rest & Hzero & _).
    rewrite length_string_append, Hzero. simpl. lia.
  - simpl. rewrite length_string_append. lia.
Qed.

Lemma length_print_elements (l : list json) (k : string) :
  List.Forall fits l ->
  (list_sum (List.map (fun v => S (size v)) l) + String.length k
   <= S (String.length (print_elements print l k)))%nat.
Proof.
  induction 1 as [|v l Hv Hl IH]; simpl; [lia|].
  destruct l as [|v' vs].
  - specialize (Hv k). simpl. lia.
  - specialize (Hv (String "," (print_elements print (v' :: vs) k))).
    simpl in Hv, IH |- *. lia.
Qed.

Lemma length_print_members (l : list (string * json)) (k : string) :
  List.Forall (fun kv => fits (snd kv)) l ->
  (list_sum (List.map (fun kv => S (size (snd kv))) l) + String.length k
   <= S (String.length (print_members print l k)))%nat.
Proof.
  induction 1 as [|[key v] l Hv Hl IH]; simpl; [lia|].
  destruct l as [|kv' kvs].
  - specialize (Hv k). simpl in Hv.
    pose proof (length_quote key (String ":" (print v k))) as Hq.
    simpl in Hq |- *. lia.
  - specialize (Hv (String "," (print_members print (kv' :: kvs) k))).
    pose proof (length_quote key (String ":"
      (print v (String "," (print_members print (kv' :: kvs) k))))) as Hq.
    simpl in Hv, Hq, IH |- *. lia.
Qed.

Lemma size_le_length (v : json) : fits v.
Proof.
  induction v as [| b | n | s | l IH | l IH] using json_nested_ind; intros k.
  - cbn [print size]. rewrite length_string_append. simpl. lia.
  - destruct b; cbn [print size]; rewrite length_string_append; simpl; lia.
  - pose proof (length_print_number n k). cbn [print size]. lia.
  - pose proof (length_quote s k). cbn [print size]. lia.
  - pose proof (length_print_elements l (String "]" k) IH) as Hl.
    cbn [print size String.length] in Hl |- *. lia.
  - pose proof (length_print_members l (String "}" k) IH) as Hl.
    cbn [print size String.length] in Hl |- *. lia.
Qed.

(** [JSON.parse(JSON.stringify(v))] is [v], for all JSON data. *)
Lemma parse_stringify (v : json) : parse (stringify v) = Some v.
Proof.
  unfold parse, stringify.
  rewrite parse_print_value; [reflexivity | | exact I].
  pose proof (size_le_length v "") as H. simpl in H. lia.
Qed.

(** The text of a value is not empty. *)
Lemma stringify_not_empty (v : json) : String.eqb (stringify v) "" = false.
Proof.
  unfold stringify. destruct (print_head v "") as (c & rest & -> & _). reflexivity.
Qed.

End JsonFacts.

(** ** The results database *)

Module DatabaseFacts.
Import Js ResultsDatabase Scenario.

(** *** [deleteSession] *)



(** *** [completeSession] *)

(** The row of a session after [completeSession] at [now]. *)
Lemma complete_row_twice now1 now2 sessionId s :
  complete_row now2 sessionId (complete_row now1 sessionId s) =
  complete_row now2 sessionId s.
Proof.
  unfold complete_row.
  destruct (String.eqb (ss_id s) sessionId) eqn:E; simpl; rewrite E; reflexivity.
Qed.

(** C8, as the design states it, fails: completing [S1] at nine o'clock
    and again five seconds later leaves the status [completed] but
    moves the completion timestamp. *)
Lemma completeSession_second_call_moves_timestamp :
  let db1 := (completeSession one_session nine_o_clock "S1").1 in
  let db2 := (completeSession db1 five_past "S1").1 in
  List.map ss_completed_at (sessions (current db1)) = [Some "2026-03-14 09:00:00"] /\
  List.map ss_completed_at (sessions (current db2)) = [Some "2026-03-14 09:00:05"] /\
  List.map ss_status (sessions (current db2)) = ["completed"] /\
  db2 <> db1.
Proof.
  vm_compute. repeat split; discriminate.
Qed.

(** C8, amended.  For every session row with the id, a second
    [completeSession] resolves, leaves the status [completed] and every
    other column as the first call left it, and sets the completion
    timestamp again, to the time of the second call: the result is the
    one a single call at the second instant gives.  The second call
    changes nothing when both calls read the same [CURRENT_TIMESTAMP]. *)
Theorem completeSession_twice (db : connection) (now1 now2 : Time.Date)
    (sessionId : string) (s : scan_session) :
  In s (sessions (current db)) ->
  ss_id s = sessionId ->
  let db1 := (completeSession db now1 sessionId).1 in
  let db2 := (completeSession db1 now2 sessionId).1 in
  (completeSession db1 now2 sessionId).2 = Resolved tt
  /\ db2 = (completeSession db now2 sessionId).1
  /\ In (mkSession (ss_id s) (ss_started_at s) (Some (Time.CURRENT_TIMESTAMP now2))
           (ss_total_items s) (ss_processed_items s) (ss_success_count s)
           (ss_failed_count s) "completed")
        (sessions (current db2))
  /\ (forall s', In s' (sessions (current db2)) -> ss_id s' = sessionId ->
        ss_status s' = "completed" /\
        ss_completed_at s' = Some (Time.CURRENT_TIMESTAMP now2))
  /\ (Time.CURRENT_TIMESTAMP now2 = Time.CURRENT_TIMESTAMP now1 -> db2 = db1).
Proof.
  intros Hs Hid. unfold completeSession, on_current; simpl.
  assert (Hmap : List.map (complete_row now2 sessionId)
                   (List.map (complete_row now1 sessionId) (sessions (current db)))
                 = List.map (complete_row now2 sessionId) (sessions (current db))).
  { rewrite List.map_map. apply List.map_ext. intros x. apply complete_row_twice. }
  repeat split.
  - rewrite Hmap. reflexivity.
  - rewrite Hmap. apply in_map_iff. exists s. split; [|exact Hs].
    unfold complete_row. rewrite Hid, String.eqb_refl. reflexivity.
  - rewrite Hmap in H. apply in_map_iff in H as (x & <- & _).
    unfold complete_row in *. destruct (String.eqb (ss_id x) sessionId) eqn:E; simpl in *.
    + reflexivity.
    + apply String.eqb_neq in E. congruence.
  - rewrite Hmap in H. apply in_map_iff in H as (x & <- & _).
    unfold complete_row in *. destruct (String.eqb (ss_id x) sessionId) eqn:E; simpl in *.
    + reflexivity.
    + apply String.eqb_neq in E. congruence.
  - intros Heq. rewrite Hmap. unfold complete_row. rewrite Heq. reflexivity.
Qed.

Lemma completeSession_twice_witness :
  let db1 := (completeSession one_session nine_o_clock "S1").1 in
  let db2 := (completeSession db1 five_past "S1").1 in
  db2 = (completeSession one_session five_past "S1").1.
Proof.
  refine (proj1 (proj2 (completeSession_twice one_session nine_o_clock five_past "S1"
            (mkSession "S1" "2026-03-14 09:00:00" None 5 0 0 0 "running") _ _))).
  - left. reflexivity.
  - reflexivity.
Defined.

(** *** [insertBatch] *)

(** C1 at a batch whose first insert fails and whose second succeeds:
    the handler of the last insert to settle finds
    [completed === results.length], commits and resolves; the row of
    the well-formed result is committed and the count of [S1] goes from
    0 to 1, where the design asks for a rollback and a rejection. *)
Theorem insertBatch_commits_after_a_failed_insert :
  let db' := (insertBatch one_session nine_o_clock "S1" [malformed_result; good_result]).1 in
  (insertBatch one_session nine_o_clock "S1" [malformed_result; good_result]).2 =
    Resolved (mkBatchReport 2
      [SQLITE_CONSTRAINT "NOT NULL constraint failed: scan_results.store"])
  /\ begun db' = None
  /\ getResultCount one_session "S1" = Resolved 0%nat
  /\ getResultCount db' "S1" = Resolved 1%nat.
Proof.
  vm_compute. repeat split.
Qed.

(** The same two results in the other order: the last insert to settle
    is the failed one, and the batch is rolled back and rejected. *)
Example insertBatch_rolls_back_when_the_last_insert_fails :
  insertBatch one_session nine_o_clock "S1" [good_result; malformed_result] =
    (one_session, Rejected (BatchInsertFailed 1)).
Proof.
  vm_compute. reflexivity.
Qed.

(** No handler runs for an empty batch: the transaction stays open and
    the promise is never settled. *)
Example insertBatch_empty_batch_is_pending :
  insertBatch one_session nine_o_clock "S1" [] =
    (mkConnection (current one_session) (Some (current one_session)), Pending).
Proof.
  vm_compute. reflexivity.
Qed.

(** The handlers of all inserts but the last leave the promise pending
    and the transaction open. *)
Lemma batch_steps_before_the_last now sessionId total (rs : list result) (b : batch) :
  (b_completed b + length rs < total)%nat ->
  fold_left (batch_step now sessionId total) rs b =
    let '(t, errors) := insert_each (current (b_db b)) now sessionId rs in
    mkBatch (mkConnection t (begun (b_db b))) (b_completed b + length rs)
      (b_errors b ++ errors) (b_outcome b).
Proof.
  revert b. induction rs as [|r rs IH]; intros [db completed errors outcome] Hlt;
    simpl in *.
  - rewrite Nat.add_0_r, List.app_nil_r. destruct db. reflexivity.
  - unfold batch_step at 2. unfold insertResult. cbn [b_db b_completed b_errors b_outcome].
    destruct (insert_scan_result (current db) now sessionId r) as [[t lastID]|e].
    + replace (Nat.eqb (S completed) total) with false
        by (symmetry; apply Nat.eqb_neq; lia).
      rewrite IH by (simpl; lia). simpl.
      destruct (insert_each t now sessionId rs) as [t' errors'].
      f_equal. lia.
    + replace (Nat.eqb (S completed) total) with false
        by (symmetry; apply Nat.eqb_neq; lia).
      rewrite IH by (simpl; lia). simpl.
      destruct (insert_each (current db) now sessionId rs) as [t' errors'].
      rewrite <- List.app_assoc. f_equal. lia.
Qed.

(** What [insertBatch] does, outside a transaction: the last insert
    alone decides.  When it succeeds the batch is committed with the
    rows of every insert that succeeded, whatever failed before, and the
    call resolves; when it fails the batch is rolled back and the call
    rejects with the number of failures. *)
Lemma insertBatch_last_insert_decides (db : connection) now sessionId
    (rs : list result) (r : result) :
  begun db = None ->
  insertBatch db now sessionId (rs ++ [r]) =
    let '(t, errors) := insert_each (current db) now sessionId rs in
    match insert_scan_result t now sessionId r with
    | Return (t', _) =>
        (mkConnection t' None, Resolved (mkBatchReport (S (length rs)) errors))
    | Throw e =>
        (mkConnection (current db) None,
         Rejected (BatchInsertFailed (S (length errors))))
    end.
Proof.
  intros Hbegun. unfold insertBatch. rewrite fold_left_app.
  rewrite (batch_steps_before_the_last now sessionId _ rs)
    by (rewrite length_app; cbn [b_completed length]; lia).
  unfold sql_begin. rewrite Hbegun. cbn [b_db current begun b_completed b_errors b_outcome].
  destruct (insert_each (current db) now sessionId rs) as [t errors].
  cbn [fold_left]. unfold batch_step, insertResult.
  cbn [b_db current begun b_completed b_errors b_outcome].
  rewrite length_app. cbn [length]. rewrite Nat.add_0_l.
  destruct (insert_scan_result t now sessionId r) as [[t' lastID]|e].
  - replace (Nat.eqb (S (length rs)) (length rs + 1)) with true
      by (symmetry; apply Nat.eqb_eq; lia).
    reflexivity.
  - replace (Nat.eqb (S (length rs)) (length rs + 1)) with true
      by (symmetry; apply Nat.eqb_eq; lia).
    cbn [sql_rollback begun settle fst snd b_db b_outcome].
    rewrite length_app. simpl. do 3 f_equal. lia.
Qed.

(** *** Text order of timestamps *)

Section TimestampOrder.
Import Time.

Lemma N_of_digit n : N_of_ascii (digit n) = Z.to_N (48 + n mod 10).
Proof.
  unfold digit. apply N_ascii_embedding.
  pose proof (Z.mod_pos_bound n 10 ltac:(lia)). lia.
Qed.

Lemma compare_digit a b :
  Ascii.compare (digit a) (digit b) = (a mod 10 ?= b mod 10).
Proof.
  unfold Ascii.compare. rewrite !N_of_digit.
  pose proof (Z.mod_pos_bound a 10 ltac:(lia)).
  pose proof (Z.mod_pos_bound b 10 ltac:(lia)).
  rewrite Z2N.inj_compare by lia.
  apply Z.add_compare_mono_l.
Qed.

Lemma compare_same_head c k k' :
  String.compare (String c k) (String c k') = String.compare k k'.
Proof.
  simpl. unfold Ascii.compare. rewrite N.compare_refl. reflexivity.
Qed.

Lemma compare_head_lt c c' k k' :
  Ascii.compare c c' = Lt -> String.compare (String c k) (String c' k') = Lt.
Proof.
  intros Hlt. simpl. rewrite Hlt. reflexivity.
Qed.

Lemma compare_pad2 a b k k' :
  String.compare (pad2 a k) (pad2 b k') =
  match a mod 100 ?= b mod 100 with
  | Eq => String.compare k k'
  | c => c
  end.
Proof.
  unfold pad2. simpl. rewrite !compare_digit.
  destruct (Z.compare_spec ((a / 10) mod 10) ((b / 10) mod 10));
  destruct (Z.compare_spec (a mod 10) (b mod 10));
  destruct (Z.compare_spec (a mod 100) (b mod 100));
  try reflexivity; exfalso; Z.div_mod_to_equations; lia.
Qed.

Lemma compare_pad4 a b k k' :
  String.compare (pad4 a k) (pad4 b k') =
  match a mod 10000 ?= b mod 10000 with
  | Eq => String.compare k k'
  | c => c
  end.
Proof.
  unfold pad4. rewrite !compare_pad2.
  destruct (Z.compare_spec ((a / 100) mod 100) ((b / 100) mod 100));
  destruct (Z.compare_spec (a mod 100) (b mod 100));
  destruct (Z.compare_spec (a mod 10000) (b mod 10000));
  try reflexivity; exfalso; Z.div_mod_to_equations; lia.
Qed.

Lemma compare_calendar_date t c k k' :
  valid t -> valid c ->
  String.compare (calendar_date t k) (calendar_date c k') =
  match day_number t ?= day_number c with
  | Eq => String.compare k k'
  | x => x
  end.
Proof.
  unfold valid, calendar_date, day_number. intros Ht Hc.
  rewrite compare_pad4, compare_same_head, compare_pad2, compare_same_head, compare_pad2.
  rewrite !(Z.mod_small (year _) 10000), !(Z.mod_small (month _) 100),
    !(Z.mod_small (day _) 100) by lia.
  destruct (Z.compare_spec (year t) (year c));
  destruct (Z.compare_spec (month t) (month c));
  destruct (Z.compare_spec (day t) (day c));
  destruct (Z.compare_spec ((year t * 100 + month t) * 100 + day t)
                           ((year c * 100 + month c) * 100 + day c));
  try reflexivity; exfalso; lia.
Qed.

(** SQLite's comparison [started_at < cutoffISO] of a
    [CURRENT_TIMESTAMP] text with a [toISOString] text looks at the
    calendar day only: the texts part ways at the separator, a space
    on one side and a [T] on the other. *)
Lemma started_at_before_iso t c :
  valid t -> valid c ->
  String.ltb (CURRENT_TIMESTAMP t) (toISOString c) =
  (day_number t <=? day_number c).
Proof.
  intros Ht Hc. unfold String.ltb, CURRENT_TIMESTAMP, toISOString.
  rewrite compare_calendar_date by assumption.
  rewrite (compare_head_lt " " "T") by reflexivity.
  destruct (Z.compare_spec (day_number t) (day_number c)); symmetry;
    [apply Z.leb_le|apply Z.leb_le|apply Z.leb_gt]; lia.
Qed.



End TimestampOrder.

(** *** The cascade of the cleanup methods *)

(** What [delete_sessions_where] leaves and reports, for a selection
    that reads the sessions table only. *)
Lemma delete_sessions_where_spec (w : tables -> scan_session -> bool) (db : connection) :
  (forall t t', sessions t = sessions t' -> w t = w t') ->
  let t := current db in
  let old := fun id => session_in (w t) t id in
  delete_sessions_where w db =
    (mkConnection
       (mkTables (List.filter (fun s => negb (w t s)) (sessions t))
                 (List.filter (fun r => negb (old (sr_session_id r))) (results t))
                 (List.filter (fun p => negb (old (sp_session_id p))) (progress t))
                 (last_result_id t))
       (begun db),
     Resolved (mkCleanupReport
       (length (List.filter (w t) (sessions t)))
       (length (List.filter (fun r => old (sr_session_id r)) (results t))))).
Proof.
  intros Hw. unfold delete_sessions_where, sql_delete, session_in; simpl.
  rewrite !(Hw (mkTables _ _ _ _) (current db)) by reflexivity.
  reflexivity.
Qed.

(** A selected session takes its results and its progress with it. *)
Lemma session_in_selected (w : scan_session -> bool) (t : tables) (s : scan_session) :
  In s (sessions t) -> w s = true -> session_in w t (ss_id s) = true.
Proof.
  intros Hs Hw. unfold session_in. apply existsb_exists.
  exists s. split; [apply filter_In; auto | apply String.eqb_refl].
Qed.

Section CleanupFacts.
Variable getDate : Time.Date -> Z.
Variable setDate : Time.Date -> Z -> Time.Date.


End CleanupFacts.


(** The text comparison goes by the calendar day: a session started at
    noon of the cutoff's day, after the cutoff of 09:00:05, is deleted
    with the older ones. *)
Example cleanupOldSessions_goes_by_calendar_day :
  let db := (createSession fresh noon_on_the_eleventh "S" 1).1 in
  let cutoffDate := utc_setDate five_past (utc_getDate five_past - 3) in
  Time.toISOString cutoffDate = "2026-03-11T09:00:05.000Z" /\
  Time.ticks cutoffDate < Time.ticks noon_on_the_eleventh /\
  cleanupOldSessions utc_getDate utc_setDate db five_past (Some 3) =
    (fresh, Resolved (mkCleanupReport 1 0)).
Proof.
  vm_compute. repeat split.
Qed.

(** *** [keepLatestScans] *)

Lemma ascii_compare_N (x y : ascii) :
  Ascii.compare x y = (N_of_ascii x ?= N_of_ascii y)%N.
Proof. reflexivity. Qed.

Lemma string_compare_refl (a : string) : String.compare a a = Eq.
Proof.
  induction a as [|x a IH]; simpl; [reflexivity|].
  rewrite ascii_compare_N, N.compare_refl. exact IH.
Qed.

Lemma string_compare_trans (a b c : string) :
  String.compare a b <> Gt -> String.compare b c <> Gt -> String.compare a c <> Gt.
Proof.
  revert b c. induction a as [|x a IH]; intros [|y b] [|z c]; simpl;
    try congruence.
  rewrite !ascii_compare_N.
  destruct (N.compare_spec (N_of_ascii x) (N_of_ascii y));
  destruct (N.compare_spec (N_of_ascii y) (N_of_ascii z));
  destruct (N.compare_spec (N_of_ascii x) (N_of_ascii z));
  try congruence; try lia.
  apply IH.
Qed.

Lemma string_leb_trans (a b c : string) :
  String.leb a b = true -> String.leb b c = true -> String.leb a c = true.
Proof.
  unfold String.leb. intros Hab Hbc.
  pose proof (string_compare_trans a b c) as Htrans.
  destruct (String.compare a b), (String.compare b c), (String.compare a c);
    try reflexivity; try discriminate; exfalso; apply Htrans; congruence.
Qed.

Lemma string_ltb_leb (a b : string) : String.ltb a b = negb (String.leb b a).
Proof.
  unfold String.ltb, String.leb. rewrite (String.compare_antisym a b).
  destruct (String.compare b a); reflexivity.
Qed.

Lemma string_leb_refl (a : string) : String.leb a a = true.
Proof. unfold String.leb. rewrite string_compare_refl. reflexivity. Qed.

Lemma string_ltb_leb_trans (a b c : string) :
  String.ltb a b = true -> String.leb b c = true -> String.ltb a c = true.
Proof.
  intros Hab Hbc. rewrite string_ltb_leb in Hab |- *.
  destruct (String.leb c a) eqn:Hca; [|reflexivity].
  rewrite (string_leb_trans b c a Hbc Hca) in Hab. discriminate.
Qed.

Lemma string_ltb_irrefl (a : string) : String.ltb a a = false.
Proof. unfold String.ltb. rewrite string_compare_refl. reflexivity. Qed.

Lemma string_leb_ltb (a b : string) :
  String.leb a b = true -> a <> b -> String.ltb a b = true.
Proof.
  unfold String.leb, String.ltb. intros Hle Hne.
  destruct (String.compare a b) eqn:E; try reflexivity; try discriminate.
  exfalso. apply Hne. apply String.compare_eq_iff. exact E.
Qed.

Lemma insert_desc_Permutation s l : Permutation (insert_desc s l) (s :: l).
Proof.
  induction l as [|x l IH]; simpl; [reflexivity|].
  destruct (String.leb (ss_started_at x) (ss_started_at s)); [reflexivity|].
  rewrite IH. apply perm_swap.
Qed.

Lemma order_by_started_at_desc_Permutation l :
  Permutation (order_by_started_at_desc l) l.
Proof.
  induction l as [|x l IH]; simpl; [reflexivity|].
  rewrite insert_desc_Permutation. apply perm_skip. exact IH.
Qed.

Lemma insert_desc_sorted s l :
  StronglySorted not_older l -> StronglySorted not_older (insert_desc s l).
Proof.
  induction 1 as [|x l Hl IH Hx]; simpl.
  - constructor; constructor.
  - destruct (String.leb (ss_started_at x) (ss_started_at s)) eqn:E.
    + constructor; [constructor; assumption|].
      constructor; [exact E|].
      rewrite List.Forall_forall in Hx |- *. intros y Hy.
      unfold not_older in *. eapply string_leb_trans; [apply Hx, Hy | exact E].
    + constructor; [exact IH|].
      rewrite List.Forall_forall in Hx |- *. intros y Hy.
      apply (Permutation_in _ (insert_desc_Permutation s l)) in Hy as [<-|Hy].
      * unfold not_older.
        destruct (String.leb_total (ss_started_at x) (ss_started_at s)); congruence.
      * apply Hx, Hy.
Qed.

Lemma order_by_started_at_desc_sorted l :
  StronglySorted not_older (order_by_started_at_desc l).
Proof.
  induction l as [|x l IH]; simpl; [constructor|].
  apply insert_desc_sorted. exact IH.
Qed.

Lemma sorted_around l1 b l2 :
  StronglySorted not_older (l1 ++ b :: l2) ->
  List.Forall (fun s => not_older s b) l1 /\ List.Forall (not_older b) l2.
Proof.
  induction l1 as [|x l1 IH]; simpl; intros Hs; inversion Hs; subst.
  - split; [constructor | assumption].
  - destruct (IH H1) as [Hl Hr]. split; [|exact Hr].
    constructor; [|exact Hl].
    rewrite List.Forall_forall in H2. apply H2. apply in_or_app. right. left. reflexivity.
Qed.

(** With a primary key, the subquery on an id finds the row that
    carries it. *)
Lemma started_at_of_found (t : tables) (b : scan_session) :
  List.NoDup (List.map ss_id (sessions t)) -> In b (sessions t) ->
  started_at_of t (ss_id b) = Some (ss_started_at b).
Proof.
  unfold started_at_of. induction (sessions t) as [|x l IH]; simpl; intros Hnd Hb.
  - destruct Hb.
  - inversion Hnd as [|? ? Hx Hl]; subst.
    destruct (String.eqb (ss_id x) (ss_id b)) eqn:E.
    + destruct Hb as [->|Hb]; [reflexivity|].
      exfalso. apply Hx. apply String.eqb_eq in E. rewrite E.
      apply in_map. exact Hb.
    + destruct Hb as [->|Hb]; [rewrite String.eqb_refl in E; discriminate|].
      apply IH; assumption.
Qed.

Lemma firstn_middle {A} (l1 : list A) b l2 :
  firstn (S (length l1)) (l1 ++ b :: l2) = l1 ++ [b].
Proof.
  induction l1 as [|x l1 IH]; simpl; [reflexivity|].
  f_equal. exact IH.
Qed.

Lemma started_before_session_sessions cutoffId (t t' : tables) :
  sessions t = sessions t' ->
  started_before_session cutoffId t = started_before_session cutoffId t'.
Proof.
  intros Heq. unfold started_before_session, started_at_of. rewrite Heq. reflexivity.
Qed.

(** SQLite takes every number below 2^53 in magnitude for an
    integer. *)
Lemma must_be_int_safe (n : Z) :
  - 2 ^ 53 < n < 2 ^ 53 -> must_be_int n = true.
Proof.
  unfold must_be_int, to_double, int32.
  change (2 ^ 53) with 9007199254740992.
  change (2 ^ 63) with 9223372036854775808.
  intros Hn. cbv zeta.
  destruct (Z.ltb_spec (Z.abs n) 9007199254740992); [|lia].
  apply orb_true_intro. right.
  apply andb_true_intro. split; apply Z.ltb_lt; lia.
Qed.

(** A count up to 2^53 gives an offset SQLite takes for an integer. *)
Lemma must_be_int_count (count : Z) :
  - 2 ^ 53 + 1 < count <= 2 ^ 53 -> must_be_int (count - 1) = true.
Proof.
  intros Hcount. apply must_be_int_safe.
  change (2 ^ 53) with 9007199254740992 in *. lia.
Qed.

(** C3 at two inputs.  Three sessions started within the same second
    and [count = 1]: the boundary is found at offset 0, no session is
    strictly older than it, nothing is deleted and all three are left,
    where only the one most recent is to be kept.  Two sessions started
    on different days and [count = 0]: the offset [-1] is read as 0,
    the newest session is the boundary, and one session is left, where
    none is to be kept. *)
Theorem keepLatestScans_leaves_more_than_count :
  (length (sessions (current (keepLatestScans three_at_once (Some 1)).1)) = 3%nat /\
   Nat.min 1 (length (sessions (current three_at_once))) = 1%nat) /\
  (length (sessions (current (keepLatestScans two_days (Some 0)).1)) = 1%nat /\
   Nat.min 0 (length (sessions (current two_days))) = 0%nat).
Proof.
  vm_compute. repeat split.
Qed.

(** Where the method does keep the [count] most recent sessions: for
    a count from 1 to 2^53 (10 when it is not given) and a sessions
    table whose start timestamps are pairwise distinct,
    [keepLatestScans] leaves exactly [min count total] sessions, the
    first [count] in descending order of start, each started after
    every session that was deleted; when fewer than [count] sessions
    exist the call changes nothing and resolves with zero deleted
    sessions and zero deleted results. *)
Lemma keepLatestScans_without_ties (db : connection) (count : option Z) :
  let n := Z.to_nat (default 10 count) in
  let all := sessions (current db) in
  1 <= default 10 count <= 2 ^ 53 ->
  List.NoDup (List.map ss_id all) ->
  List.NoDup (List.map ss_started_at all) ->
  let db' := (keepLatestScans db count).1 in
  length (sessions (current db')) = Nat.min n (length all)
  /\ (forall s, In s (sessions (current db')) <-> In s (most_recent n all))
  /\ (forall kept gone,
        In kept (sessions (current db')) ->
        In gone all -> ~ In gone (sessions (current db')) ->
        String.ltb (ss_started_at gone) (ss_started_at kept) = true)
  /\ ((length all < n)%nat ->
      keepLatestScans db count = (db, Resolved (mkCleanupReport 0 0))).
Proof.
  intros n all Hcount Hids Hts db'. subst db'.
  unfold keepLatestScans, most_recent, limit_1_offset. fold all.
  set (c := default 10 count) in *.
  rewrite (must_be_int_count c) by lia.
  replace (Z.to_nat (Z.max 0 (c - 1))) with (Nat.pred n) by (subst n; lia).
  pose proof (order_by_started_at_desc_Permutation all) as Hperm.
  pose proof (order_by_started_at_desc_sorted all) as Hsorted.
  assert (Hn : (1 <= n)%nat) by (subst n; lia).
  destruct (nth_error (order_by_started_at_desc all) (Nat.pred n)) as [b|] eqn:E.
  - (* the boundary session [b] at rank [n] *)
    apply nth_error_split in E as (l1 & l2 & Hsplit & Hlen).
    rewrite delete_sessions_where_spec
      by (intros t t'; apply started_before_session_sessions).
    cbn [fst current sessions]. fold all.
    assert (Hb : In b all).
    { apply (Permutation_in _ Hperm). rewrite Hsplit.
      apply in_or_app. right. left. reflexivity. }
    assert (Hfilter :
      List.filter (fun s => negb (started_before_session (ss_id b) (current db) s)) all =
      List.filter (fun s => negb (String.ltb (ss_started_at s) (ss_started_at b))) all).
    { apply List.filter_ext. intros s. unfold started_before_session.
      rewrite (started_at_of_found (current db) b Hids Hb). reflexivity. }
    rewrite Hfilter. clear Hfilter.
    replace n with (S (length l1)) by lia. rewrite Hsplit, firstn_middle.
    rewrite Hsplit in Hperm, Hsorted.
    destruct (sorted_around l1 b l2 Hsorted) as [Hnewer Holder].
    rewrite List.Forall_forall in Hnewer, Holder.
    assert (Hts' : List.NoDup (List.map ss_started_at (l1 ++ b :: l2))).
    { apply (Permutation_NoDup (l := List.map ss_started_at all)); [|exact Hts].
      symmetry. apply Permutation_map. exact Hperm. }
    assert (Hnd : List.NoDup (l1 ++ b :: l2)).
    { apply (NoDup_map_inv ss_started_at). exact Hts'. }
    assert (Hkept : forall s,
      In s (List.filter (fun s => negb (String.ltb (ss_started_at s) (ss_started_at b))) all)
      <-> In s (l1 ++ [b])).
    { intros s. rewrite filter_In, negb_true_iff. split.
      - intros [Hs Hkeep].
        apply (Permutation_in _ (Permutation_sym Hperm)) in Hs.
        apply in_app_or in Hs as [Hs|[Hs|Hs]]; apply in_or_app.
        + left. exact Hs.
        + right. left. exact Hs.
        + exfalso.
          assert (Hne : ss_started_at s <> ss_started_at b).
          { intros Heq. rewrite List.map_app in Hts'. simpl in Hts'.
            apply NoDup_remove_2 in Hts'. apply Hts'.
            apply in_or_app. right. rewrite <- Heq. apply in_map. exact Hs. }
          rewrite (string_leb_ltb _ _ (Holder s Hs) Hne) in Hkeep. discriminate.
      - intros Hs. apply in_app_or in Hs as [Hs|[<-|[]]].
        + split.
          * apply (Permutation_in _ Hperm). apply in_or_app. left. exact Hs.
          * rewrite string_ltb_leb. rewrite (Hnewer s Hs). reflexivity.
        + split; [exact Hb | apply string_ltb_irrefl]. }
    assert (Hall : length all = (length l1 + S (length l2))%nat).
    { rewrite <- (Permutation_length Hperm), length_app. reflexivity. }
    split; [|split; [|split]].
    + assert (Hleft : List.NoDup (l1 ++ [b])).
      { apply (NoDup_app_remove_r (l1 ++ [b]) l2).
        rewrite <- List.app_assoc. exact Hnd. }
      rewrite (Permutation_length
        (Permutation.NoDup_Permutation
           (List.NoDup_filter _ (Permutation_NoDup Hperm Hnd)) Hleft Hkept)).
      rewrite length_app. change (length [b]) with 1%nat. lia.
    + exact Hkept.
    + intros kept gone Hk Hg Hgone.
      apply (string_ltb_leb_trans _ (ss_started_at b)).
      * destruct (String.ltb (ss_started_at gone) (ss_started_at b)) eqn:Hlt;
          [reflexivity|].
        exfalso. apply Hgone. apply filter_In. rewrite Hlt. auto.
      * apply Hkept in Hk. apply in_app_or in Hk as [Hk|[<-|[]]].
        -- apply (Hnewer kept Hk).
        -- apply string_leb_refl.
    + intros Hfew. exfalso. lia.
  - (* fewer than [n] sessions *)
    apply nth_error_None in E.
    rewrite (Permutation_length Hperm) in E.
    cbn [fst]. fold all. split; [|split; [|split]].
    + lia.
    + intros s. rewrite firstn_all2 by (rewrite (Permutation_length Hperm); lia).
      split; intros Hs.
      * apply (Permutation_in _ (Permutation_sym Hperm)). exact Hs.
      * apply (Permutation_in _ Hperm). exact Hs.
    + intros kept gone _ Hg Hgone. contradiction.
    + reflexivity.
Qed.

(** *** [insertResult] and [deserializeResult] *)

Lemma rehydrate_stringify (v fallback : JSON.json) :
  rehydrate (Some (JSON.stringify v)) fallback = Return v.
Proof.
  unfold rehydrate.
  rewrite JsonFacts.stringify_not_empty, JsonFacts.parse_stringify. reflexivity.
Qed.

(** C9.  For every result object that has the store and the item
    identifier the table requires, [insertResult] resolves with the id
    of a new last row of [scan_results], and [deserializeResult] of that
    row returns: [success], the success flag of the result coerced to a
    boolean; each list payload, the list of the result when it was
    supplied and the empty list when it was absent; each map payload,
    the map of the result when it was supplied and the empty map when it
    was absent. *)
Theorem insertResult_deserializeResult_round_trip
    (db : connection) (now : Time.Date) (sessionId : string) (r : result) :
  store r <> None -> asin r <> None ->
  exists db' lastID row d,
    insertResult db now sessionId r = (db', Resolved lastID) /\
    results (current db') = results (current db) ++ [row] /\
    sr_id row = lastID /\
    sr_session_id row = sessionId /\
    deserializeResult row = Return d /\
    d_success d = truthy (success r) /\
    d_variations d = JSON.JArr (match variations r with Some l => l | None => [] end) /\
    d_bundleParts d = JSON.JArr (match bundleParts r with Some l => l | None => [] end) /\
    d_extractionDetails d =
      JSON.JObj (match extractionDetails r with Some m => m | None => [] end) /\
    d_merchandisingData d =
      JSON.JObj (match merchandisingData r with Some m => m | None => [] end).
Proof.
  intros Hstore Hasin.
  unfold insertResult, insert_scan_result.
  destruct (store r) as [st|]; [|congruence].
  destruct (asin r) as [a|]; [|congruence].
  eexists _, _, _, _. split; [reflexivity|].
  split; [reflexivity|]. split; [reflexivity|]. split; [reflexivity|].
  split.
  - unfold deserializeResult. cbn [sr_variations sr_bundle_parts
      sr_extraction_details sr_merchandising_data sr_success].
    unfold stringify_list, stringify_map.
    rewrite !rehydrate_stringify. reflexivity.
  - cbn [d_success d_variations d_bundleParts d_extractionDetails d_merchandisingData].
    repeat split.
    destruct (truthy (success r)); reflexivity.
Qed.

(** C9 on the well-formed result of the scenarios, inserted for [S1]:
    a list and a map that were supplied, a list and a map that were
    not. *)
Lemma insertResult_deserializeResult_round_trip_witness :
  exists db' lastID row d,
    insertResult one_session nine_o_clock "S1" good_result = (db', Resolved lastID) /\
    results (current db') = results (current one_session) ++ [row] /\
    sr_id row = lastID /\
    sr_session_id row = "S1" /\
    deserializeResult row = Return d /\
    d_success d = true /\
    d_variations d = JSON.JArr [JSON.JStr "1 lb"; JSON.JStr "2 lb"] /\
    d_bundleParts d = JSON.JArr [] /\
    d_extractionDetails d =
      JSON.JObj [("selector", JSON.JStr "h1"); ("attempts", JSON.JNum 2)] /\
    d_merchandisingData d = JSON.JObj [].
Proof.
  apply (insertResult_deserializeResult_round_trip one_session nine_o_clock "S1" good_result).
  - simpl. discriminate.
  - simpl. discriminate.
Defined.

End DatabaseFacts.

(** ** The rate limiter *)

Module RateLimiterFacts.
Import Js RateLimiter.

Lemma ceil_seconds_positive (x : Z) : 0 < x -> 0 < ceil_seconds x.
Proof. unfold ceil_seconds. intros Hx. Z.div_mod_to_equations. lia. Qed.

Lemma ceil_seconds_le (x w : Z) : x <= w * 1000 -> ceil_seconds x <= w.
Proof. unfold ceil_seconds. intros Hx. Z.div_mod_to_equations. lia. Qed.

Lemma fold_min_In (l : list Z) (x : Z) : In (fold_left Z.min l x) (x :: l).
Proof.
  revert x. induction l as [|y l IH]; intros x; simpl; [left; reflexivity|].
  destruct (IH (Z.min x y)) as [H|H].
  - rewrite <- H. destruct (Z.min_spec x y) as [[_ ->]|[_ ->]]; auto.
  - right. right. exact H.
Qed.

Lemma Math_min_In (l : list Z) (m : Z) : Math_min l = Some m -> In m l.
Proof.
  destruct l as [|x l]; simpl; [discriminate|].
  intros [= <-]. apply fold_min_In.
Qed.

Lemma in_window_In (now window : Z) (times : list Z) (t : Z) :
  In t (in_window now window times) <-> In t times /\ now - t < window.
Proof.
  unfold in_window. rewrite filter_In, Z.ltb_lt. reflexivity.
Qed.

(** A declared entry is one of the four the constructor writes: a
    ceiling of at least one call and a window of sixty seconds. *)
Lemma declared_limit (channel : string) (limit : limit) :
  get_property limits channel = Own limit ->
  1 <= maxCalls limit /\ windowMs limit = 60000.
Proof.
  unfold get_property, limits. cbn [List.find fst snd].
  repeat (match goal with
          | |- context [String.eqb ?a ?b] =>
              destruct (String.eqb a b);
              [cbn [fst snd]; intros [= <-]; cbn [maxCalls windowMs]; lia|]
          end).
  destruct (inherited channel); discriminate.
Qed.

(** [checkLimit] on a channel with a declared entry, in terms of the
    calls that are still in the window. *)
Lemma checkLimit_declared (state : calls) (now : Z) (channel : string) (limit : limit) :
  get_property limits channel = Own limit ->
  let validCalls := in_window now (windowMs limit) (default [] (state !! channel)) in
  checkLimit state now channel =
    if Z.of_nat (length validCalls) >=? maxCalls limit then
      (<[channel := validCalls]> state,
       Throw (RateLimitExceeded channel
                (match Math_min validCalls with
                 | Some oldestCall => Some (ceil_seconds (windowMs limit - (now - oldestCall)))
                 | None => None
                 end)))
    else (<[channel := validCalls ++ [now]]> state, Return true).
Proof.
  intros Hlimit. unfold checkLimit. rewrite Hlimit.
  destruct (state !! channel) as [recorded|] eqn:E; simpl.
  - rewrite E. simpl.
    destruct (_ >=? _); rewrite ?insert_insert_eq; reflexivity.
  - rewrite lookup_insert_eq. simpl.
    destruct (_ >=? _); rewrite ?insert_insert_eq; reflexivity.
Qed.

(** C5.  For every channel with a declared ceiling and window, and
    every state whose recorded call times are not later than the
    current time: the check keeps the recorded times that are less than
    a window old and discards the others; when the number kept is at or
    above the ceiling it throws the rate-limit error, whose retry-after
    is a number of seconds greater than 0 and at most the window length,
    and records nothing; otherwise it records the current time after the
    ones kept and returns [true].  With the ceiling of one call per
    sixty seconds of [start-scan]: a first call passes, a second call
    less than sixty seconds later throws with a retry-after between 1
    and 60, and a call sixty seconds or more after the first passes. *)
Theorem checkLimit_sliding_window
    (state : calls) (now : Z) (channel : string) (limit : limit) :
  get_property limits channel = Own limit ->
  List.Forall (fun time => time <= now) (default [] (state !! channel)) ->
  let recorded := default [] (state !! channel) in
  let validCalls := in_window now (windowMs limit) recorded in
  (forall time, In time validCalls <-> In time recorded /\ now - time < windowMs limit)
  /\ (maxCalls limit <= Z.of_nat (length validCalls) ->
      exists resetTime,
        checkLimit state now channel =
          (<[channel := validCalls]> state,
           Throw (RateLimitExceeded channel (Some resetTime))) /\
        0 < resetTime <= windowMs limit / 1000)
  /\ (Z.of_nat (length validCalls) < maxCalls limit ->
      checkLimit state now channel =
        (<[channel := validCalls ++ [now]]> state, Return true))
  /\ (forall t0 t1 t2, t0 <= t1 < t0 + 60000 -> t0 + 60000 <= t2 ->
      let first := checkLimit constructor t0 "start-scan" in
      let second := checkLimit first.1 t1 "start-scan" in
      let third := checkLimit second.1 t2 "start-scan" in
      first.2 = Return true
      /\ (exists resetTime,
            second.2 = Throw (RateLimitExceeded "start-scan" (Some resetTime)) /\
            0 < resetTime <= 60)
      /\ third.2 = Return true).
Proof.
  intros Hlimit Hpast recorded validCalls.
  destruct (declared_limit channel limit Hlimit) as [Hmax Hwindow].
  split; [|split; [|split]].
  - intros time. apply in_window_In.
  - intros Hfull.
    rewrite (checkLimit_declared state now channel limit Hlimit).
    fold recorded. fold validCalls.
    replace (Z.of_nat (length validCalls) >=? maxCalls limit) with true
      by (symmetry; apply Z.geb_le; lia).
    destruct (Math_min validCalls) as [oldestCall|] eqn:Hmin.
    + eexists. split; [reflexivity|].
      apply Math_min_In, in_window_In in Hmin as [Hin Hage].
      rewrite List.Forall_forall in Hpast. specialize (Hpast oldestCall Hin).
      rewrite Hwindow in *. split.
      * apply ceil_seconds_positive. lia.
      * apply ceil_seconds_le. change (60000 / 1000) with 60. lia.
    + exfalso. destruct validCalls; [simpl in Hfull; lia | discriminate].
  - intros Hroom.
    rewrite (checkLimit_declared state now channel limit Hlimit).
    fold recorded. fold validCalls.
    replace (Z.of_nat (length validCalls) >=? maxCalls limit) with false
      by (symmetry; rewrite Z.geb_leb; apply Z.leb_gt; lia).
    reflexivity.
  - intros t0 t1 t2 H1 H2.
    assert (Hstart : get_property limits "start-scan" = Own (mkLimit 1 60000))
      by reflexivity.
    assert (Hfirst : checkLimit constructor t0 "start-scan" =
              (<["start-scan" := [t0]]> ∅, Return true)).
    { rewrite (checkLimit_declared constructor t0 "start-scan" _ Hstart).
      unfold constructor. rewrite lookup_empty. reflexivity. }
    assert (Hsecond : checkLimit (<["start-scan" := [t0]]> ∅) t1 "start-scan" =
              (<["start-scan" := [t0]]> (<["start-scan" := [t0]]> ∅),
               Throw (RateLimitExceeded "start-scan"
                        (Some (ceil_seconds (60000 - (t1 - t0))))))).
    { rewrite (checkLimit_declared _ t1 "start-scan" _ Hstart).
      rewrite lookup_insert_eq. unfold in_window.
      cbn [default from_option id List.filter windowMs].
      destruct (Z.ltb_spec (t1 - t0) 60000); [reflexivity | lia]. }
    assert (Hthird :
      checkLimit (<["start-scan" := [t0]]> (<["start-scan" := [t0]]> ∅)) t2 "start-scan" =
        (<["start-scan" := [t2]]> (<["start-scan" := [t0]]> (<["start-scan" := [t0]]> ∅)),
         Return true)).
    { rewrite (checkLimit_declared _ t2 "start-scan" _ Hstart).
      rewrite lookup_insert_eq. unfold in_window.
      cbn [default from_option id List.filter windowMs].
      destruct (Z.ltb_spec (t2 - t0) 60000); [lia | reflexivity]. }
    cbn zeta. rewrite Hfirst. cbn [fst snd]. rewrite Hsecond. cbn [fst snd].
    rewrite Hthird. cbn [fst snd].
    split; [reflexivity|]. split; [|reflexivity].
    eexists. split; [reflexivity|]. split.
    + apply ceil_seconds_positive. lia.
    + apply ceil_seconds_le. lia.
Qed.

(** C5 on a state with one call of [start-scan] on record, checked
    thirty seconds later: the call is refused for thirty more seconds. *)
Lemma checkLimit_sliding_window_witness :
  exists resetTime,
    checkLimit Scenario.one_recent_call 31000 "start-scan" =
      (<["start-scan" := in_window 31000 60000 [1000]]> Scenario.one_recent_call,
       Throw (RateLimitExceeded "start-scan" (Some resetTime))) /\
    0 < resetTime <= 60.
Proof.
  refine (proj1 (proj2 (checkLimit_sliding_window Scenario.one_recent_call 31000
            "start-scan" (mkLimit 1 60000) _ _)) _).
  - reflexivity.
  - vm_compute. repeat constructor. discriminate.
  - vm_compute. discriminate.
Defined.

(** A channel for which the lookup in [this.limits] finds nothing is
    let through and leaves no trace. *)
Lemma checkLimit_absent (state : calls) (now : Z) (channel : string) :
  get_property limits channel = Absent ->
  checkLimit state now channel = (state, Return true).
Proof.
  intros Habsent. unfold checkLimit. rewrite Habsent. reflexivity.
Qed.

(** C10 at the channel [toString], which has no declared entry: the
    lookup in [this.limits] finds the member every object inherits, the
    check goes on past the early return, lets the call through and
    records its time. *)
Theorem checkLimit_records_inherited_names (state : calls) (now : Z) :
  List.find (fun kv => String.eqb (fst kv) "toString") limits = None
  /\ checkLimit state now "toString" = (<["toString" := [now]]> state, Return true)
  /\ (checkLimit state now "toString").1 !! "toString" = Some [now].
Proof.
  assert (Hcheck : checkLimit state now "toString" =
                     (<["toString" := [now]]> state, Return true)).
  { unfold checkLimit.
    change (get_property limits "toString") with (@Inherited limit).
    cbv beta iota zeta.
    replace (List.filter (fun _ : Z => false) (default [] (state !! "toString")))
      with (@nil Z); [reflexivity|].
    induction (default [] (state !! "toString")); simpl; auto. }
  split; [reflexivity|]. split; [exact Hcheck|].
  rewrite Hcheck. apply lookup_insert_eq.
Qed.

(** The hypothesis of C5 on the recorded times is an invariant of the
    limiter under a clock that does not run backwards: it holds after
    the constructor, and a check at [now] keeps it for every later
    time. *)
Lemma constructor_times_in_the_past (now : Z) :
  Scenario.times_in_the_past constructor now.
Proof.
  intros channel times time Hlookup. unfold constructor in Hlookup.
  rewrite lookup_empty in Hlookup. discriminate.
Qed.

Lemma checkLimit_times_in_the_past (state : calls) (now later : Z) (channel : string) :
  Scenario.times_in_the_past state now -> now <= later ->
  Scenario.times_in_the_past (checkLimit state now channel).1 later.
Proof.
  intros Hpast Hlater c times time Hlookup Hin.
  assert (Hold : forall l, state !! channel = Some l -> forall t, In t l -> t <= later).
  { intros l Hl t Ht. specialize (Hpast channel l t Hl Ht). lia. }
  assert (Hrecorded : forall t, In t (default [] (state !! channel)) -> t <= later).
  { destruct (state !! channel) as [l|] eqn:E; simpl; [apply (Hold l eq_refl) | tauto]. }
  destruct (get_property limits channel) as [limit| |] eqn:Hlimit.
  - rewrite (checkLimit_declared state now channel limit Hlimit) in Hlookup.
    destruct (_ >=? _); cbn [fst] in Hlookup;
      (destruct (decide (channel = c)) as [->|Hne];
       [rewrite lookup_insert_eq in Hlookup; injection Hlookup as <-
       |rewrite lookup_insert_ne in Hlookup by exact Hne;
        specialize (Hpast c times time Hlookup Hin); lia]).
    + apply in_window_In in Hin as [Hin _]. apply Hrecorded, Hin.
    + apply in_app_or in Hin as [Hin|[<-|[]]]; [|lia].
      apply in_window_In in Hin as [Hin _]. apply Hrecorded, Hin.
  - unfold checkLimit in Hlookup. rewrite Hlimit in Hlookup. cbn [fst] in Hlookup.
    destruct (decide (channel = c)) as [->|Hne].
    + rewrite lookup_insert_eq in Hlookup. injection Hlookup as <-.
      apply in_app_or in Hin as [Hin|[<-|[]]]; [|lia].
      apply filter_In in Hin as [_ Hin]. discriminate.
    + rewrite lookup_insert_ne in Hlookup by exact Hne.
      specialize (Hpast c times time Hlookup Hin). lia.
  - rewrite checkLimit_absent in Hlookup by exact Hlimit.
    specialize (Hpast c times time Hlookup Hin). lia.
Qed.

End RateLimiterFacts.

(** ** The IPC validator *)

Module ValidatorFacts.
Import Js IPCValidator.

(** *** Path validation *)

Section PathFacts.
Context `{Path} `{App}.

(** What [validateFilePath] accepts: an allowed extension, a
    normalized path without [..], and a resolved path that starts with
    an allowed directory. *)
Lemma validateFilePath_accepts (filePath : string) (allowedExtensions : list string) :
  validateFilePath filePath allowedExtensions = Return true <->
  existsb (String.eqb (toLowerCase (extname (resolve (normalize filePath)))))
    allowedExtensions = true /\
  includes (normalize filePath) ".." = false /\
  in_allowed_dirs
    [getPath "userData"; getPath "documents"; getPath "downloads"; getPath "desktop"]
    (resolve (normalize filePath)) = true.
Proof.
  unfold validateFilePath.
  destruct (existsb _ allowedExtensions); simpl;
    [|split; [discriminate | intros (? & _); discriminate]].
  destruct (includes (normalize filePath) ".."); simpl;
    [split; [discriminate | intros (_ & ? & _); discriminate]|].
  match goal with
  | |- context [negb ?b] => destruct b
  end; simpl;
    [split; auto | split; [discriminate | intros (_ & _ & ?); discriminate]].
Qed.

Lemma validateExportPath_accepts (exportPath : string) :
  validateExportPath exportPath = Return true <->
  toLowerCase (extname (resolve (normalize exportPath))) = ".xlsx" /\
  includes (normalize exportPath) ".." = false /\
  in_allowed_dirs [getPath "documents"; getPath "downloads"; getPath "desktop"]
    (resolve (normalize exportPath)) = true.
Proof.
  unfold validateExportPath.
  destruct (String.eqb_spec (toLowerCase (extname (resolve (normalize exportPath)))) ".xlsx")
    as [Hext|Hext]; simpl;
    [|split; [discriminate | intros (? & _); contradiction]].
  destruct (includes (normalize exportPath) ".."); simpl;
    [split; [discriminate | intros (_ & ? & _); discriminate]|].
  match goal with
  | |- context [negb ?b] => destruct b
  end; simpl;
    [split; auto | split; [discriminate | intros (_ & _ & ?); discriminate]].
Qed.

(** What the two validators do reject.  Whatever the extension of the
    path and whatever extensions the caller allows, both throw for
    every path whose normalized form contains [..], and each throws for
    every path whose resolved absolute form starts, as text, with none
    of its allow-listed directories. *)
Lemma path_validators_reject (path : string) (allowedExtensions : list string) :
  (includes (normalize path) ".." = true ->
     (exists e, validateFilePath path allowedExtensions = Throw e) /\
     (exists e, validateExportPath path = Throw e))
  /\ (in_allowed_dirs
        [getPath "userData"; getPath "documents"; getPath "downloads"; getPath "desktop"]
        (resolve (normalize path)) = false ->
      exists e, validateFilePath path allowedExtensions = Throw e)
  /\ (in_allowed_dirs [getPath "documents"; getPath "downloads"; getPath "desktop"]
        (resolve (normalize path)) = false ->
      exists e, validateExportPath path = Throw e).
Proof.
  unfold validateFilePath, validateExportPath. split; [|split].
  - intros Hdots. rewrite Hdots. split; destruct (negb _); eauto.
  - intros Hdirs. rewrite Hdirs.
    destruct (negb _); [eauto|]. destruct (includes _ _); simpl; eauto.
  - intros Hdirs. rewrite Hdirs.
    destruct (negb _); [eauto|]. destruct (includes _ _); simpl; eauto.
Qed.

End PathFacts.

(** C6 at a directory next to an allowed one, whose name starts like
    it.  [/home/user/Documents-old] is in none of the allow-listed
    directories [userData], [documents], [downloads] and [desktop] of
    the user; the two paths have no parent-directory segment and are
    their own resolved absolute form; yet [validateFilePath] and
    [validateExportPath] return [true] for them, since
    [resolved.startsWith] compares text and [/home/user/Documents] is a
    prefix of it. *)
Theorem path_validators_accept_lookalike_directory :
  let file := "/home/user/Documents-old/stores.csv" in
  let export := "/home/user/Documents-old/scan.xlsx" in
  (Scenario.in_one_of ["userData"; "documents"; "downloads"; "desktop"] file = false /\
   Posix.has_parent_segment file = false /\
   @resolve Scenario.linux_path (@normalize Scenario.linux_path file) = file /\
   @validateFilePath Scenario.linux_path Scenario.linux_app file [".csv"] = Return true) /\
  (Scenario.in_one_of ["documents"; "downloads"; "desktop"] export = false /\
   Posix.has_parent_segment export = false /\
   @resolve Scenario.linux_path (@normalize Scenario.linux_path export) = export /\
   @validateExportPath Scenario.linux_path Scenario.linux_app export = Return true).
Proof.
  vm_compute. repeat split.
Qed.

(** The traversal test reads the normalized path, in which a
    parent-directory segment has been cancelled against the segment
    before it: such a path, when it resolves into the documents
    directory, passes both validators. *)
Lemma path_validators_accept_cancelled_parent_segment :
  Posix.has_parent_segment "/home/user/Documents/reports/../stores.csv" = true /\
  @validateFilePath Scenario.linux_path Scenario.linux_app
    "/home/user/Documents/reports/../stores.csv" [".csv"] = Return true /\
  Posix.has_parent_segment "/home/user/Documents/reports/../scan.xlsx" = true /\
  @validateExportPath Scenario.linux_path Scenario.linux_app
    "/home/user/Documents/reports/../scan.xlsx" = Return true.
Proof.
  vm_compute. repeat split.
Qed.

(** The path [../../etc/passwd]: its normalized form keeps the two
    [..], and both validators throw, also when it is given an allowed
    extension; so do they for a path outside the allowed
    directories. *)
Lemma path_validators_reject_outside :
  ((exists e, @validateFilePath Scenario.linux_path Scenario.linux_app
                "../../etc/passwd" [".csv"] = Throw e) /\
   (exists e, @validateExportPath Scenario.linux_path Scenario.linux_app
                "../../etc/passwd" = Throw e)) /\
  (exists e, @validateFilePath Scenario.linux_path Scenario.linux_app
               "/etc/passwd.csv" [".csv"] = Throw e) /\
  (exists e, @validateExportPath Scenario.linux_path Scenario.linux_app
               "/home/user/.config/wfm-scanner/scan.xlsx" = Throw e).
Proof.
  split; [|split].
  - refine (proj1 (@path_validators_reject Scenario.linux_path Scenario.linux_app
              "../../etc/passwd" [".csv"]) _).
    vm_compute. reflexivity.
  - refine (proj1 (proj2 (@path_validators_reject Scenario.linux_path Scenario.linux_app
              "/etc/passwd.csv" [".csv"])) _).
    vm_compute. reflexivity.
  - refine (proj2 (proj2 (@path_validators_reject Scenario.linux_path Scenario.linux_app
              "/home/user/.config/wfm-scanner/scan.xlsx" [])) _).
    vm_compute. reflexivity.
Qed.

(** *** Object validation *)

(** Induction on the rules of a field, with the hypothesis for every
    property of an object rule. *)
Lemma rules_nested_ind (P : rules -> Prop) :
  (forall type required maxLength min max properties validate,
     match properties with
     | Some props => List.Forall (fun kr => P (snd kr)) props
     | None => True
     end ->
     P (Rules type required maxLength min max properties validate)) ->
  forall r, P r.
Proof.
  intros Hrules. fix IH 1. intros [type required maxLength min max properties validate].
  apply Hrules. destruct properties as [props|]; [|exact I].
  induction props as [|[key r] props IHprops]; constructor; [apply IH | exact IHprops].
Qed.

(** The property test of [declared_by], by name. *)
Lemma declared_by_object type required maxLength min max props validate sub :
  is_type type "object" = true ->
  (forall key v, sub !! key = Some v ->
     exists r, In (key, r) props /\ declared_by r v) ->
  declared_by (Rules type required maxLength min max (Some props) validate) (VObj sub).
Proof.
  intros Htype Hsub. simpl. rewrite Htype. exists sub. split; [reflexivity|].
  intros key v Hv. destruct (Hsub key v Hv) as (r & Hin & Hr). clear Hsub Hv.
  induction props as [|[k r'] props IH]; [destruct Hin|].
  destruct Hin as [[= -> ->]|Hin]; [left; auto | right; apply IH, Hin].
Qed.

(** The loop adds to [validated] only fields of the entries it goes
    through, each holding what its rules declare. *)
Lemma for_entries_declared (obj : value) (entries : schema) :
  List.Forall (fun kr => forall key value out,
                 validate_field key (snd kr) value = Return (Some out) ->
                 declared_by (snd kr) out) entries ->
  forall acc validated,
    for_entries validate_field obj entries acc = Return validated ->
    forall key v, validated !! key = Some v ->
      acc !! key = Some v \/ exists r, In (key, r) entries /\ declared_by r v.
Proof.
  induction 1 as [|[k r] entries Hr Hentries IH]; simpl; intros acc validated Hloop key v Hv.
  - injection Hloop as <-. left. exact Hv.
  - destruct (get obj k) as [value|e]; [|discriminate].
    destruct (validate_field k r value) as [[out|]|e] eqn:Hfield; [| |discriminate].
    + destruct (IH _ _ Hloop key v Hv) as [Hacc|(r' & Hin & Hr')].
      * destruct (decide (k = key)) as [->|Hne].
        -- rewrite lookup_insert_eq in Hacc. injection Hacc as <-.
           right. exists r. split; [left; reflexivity|]. eapply Hr. exact Hfield.
        -- rewrite lookup_insert_ne in Hacc by exact Hne. left. exact Hacc.
      * right. exists r'. split; [right; exact Hin | exact Hr'].
    + destruct (IH _ _ Hloop key v Hv) as [Hacc|(r' & Hin & Hr')].
      * left. exact Hacc.
      * right. exists r'. split; [right; exact Hin | exact Hr'].
Qed.

Lemma validate_field_declared (r : rules) :
  forall key value out,
    validate_field key r value = Return (Some out) -> declared_by r out.
Proof.
  induction r as [type required maxLength min max properties validate IH]
    using rules_nested_ind.
  intros key value out Hfield.
  destruct properties as [props|]; [|exact I].
  destruct (is_type type "object") eqn:Htype; [|simpl; rewrite Htype; exact I].
  simpl in Hfield. rewrite Htype in Hfield.
  repeat match type of Hfield with
         | (if ?b then _ else _) = _ => destruct b; [discriminate|]
         | (if ?b then _ else _) = _ => destruct b; [|discriminate]
         | match ?x with Some _ => Throw _ | None => _ end = _ =>
             destruct x; [discriminate|]
         end.
  destruct (for_entries validate_field value props ∅) as [sub|e] eqn:Hloop;
    [|discriminate].
  injection Hfield as <-.
  apply declared_by_object; [exact Htype|].
  intros k v Hv.
  destruct (for_entries_declared value props IH ∅ sub Hloop k v Hv)
    as [Hempty|Hdeclared]; [|exact Hdeclared].
  rewrite lookup_empty in Hempty. discriminate.
Qed.

(** Fields the schema does not name are not read. *)
Lemma for_entries_unknown_field (fields : gmap string value) (key : string) (x : value)
    (entries : schema) (acc : gmap string value) :
  ~ In key (List.map fst entries) ->
  for_entries validate_field (VObj (<[key := x]> fields)) entries acc =
  for_entries validate_field (VObj fields) entries acc.
Proof.
  revert acc. induction entries as [|[k r] entries IH]; intros acc Hkey; simpl; [reflexivity|].
  simpl in Hkey.
  rewrite lookup_insert_ne by (intros ->; apply Hkey; left; reflexivity).
  destruct (validate_field k r _) as [[out|]|e]; try reflexivity;
    apply IH; intros Hin; apply Hkey; right; exact Hin.
Qed.

(** Under an object rule with properties, the field is validated by
    [validateObject] itself against the properties: what holds of a
    payload holds of its sub-objects. *)
Lemma validate_field_object key required maxLength min max props validate
    (sub : gmap string value) :
  validate_field key
    (Rules (Some "object") required maxLength min max (Some props) validate) (VObj sub) =
  match validateObject (VObj sub) props with
  | Throw e => Throw e
  | Return validated => Return (Some (VObj validated))
  end.
Proof.
  destruct required; reflexivity.
Qed.

(** C7.  For every schema and every payload object: when
    [validateObject] returns, the object it returns is a new one whose
    fields are all declared by the schema, each sub-object validated
    under declared properties again holding declared fields only; and
    a field the schema does not declare changes nothing, neither the
    returned object nor whether validation fails, so it is dropped and
    never rejected. *)
Theorem validateObject_keeps_declared_fields_only
    (schema : schema) (fields : gmap string value) :
  (forall validated,
     validateObject (VObj fields) schema = Return validated ->
     only_declared schema validated /\
     (forall key, is_Some (validated !! key) -> In key (List.map fst schema)))
  /\ (forall key x, ~ In key (List.map fst schema) ->
        validateObject (VObj (<[key := x]> fields)) schema =
        validateObject (VObj fields) schema).
Proof.
  split.
  - intros validated Hvalid.
    assert (Honly : only_declared schema validated).
    { intros key v Hv.
      destruct (for_entries_declared (VObj fields) schema
                  (proj2 (List.Forall_forall _ _)
                     (fun kr _ => validate_field_declared (snd kr)))
                  ∅ validated Hvalid key v Hv) as [Hempty|Hdeclared];
        [|exact Hdeclared].
      rewrite lookup_empty in Hempty. discriminate. }
    split; [exact Honly|].
    intros key [v Hv]. destruct (Honly key v Hv) as (r & Hin & _).
    apply in_map_iff. exists (key, r). split; [reflexivity | exact Hin].
  - intros key x Hkey. apply for_entries_unknown_field. exact Hkey.
Qed.

(** C7 on a [start-scan] payload: it is accepted, what is returned
    holds declared fields only, and the same payload with a [debug]
    field gives the same result. *)
Lemma validateObject_keeps_declared_fields_only_witness :
  (exists validated,
     validateObject (VObj Scenario.payload_fields) Scenario.start_scan_schema =
       Return validated /\
     only_declared Scenario.start_scan_schema validated) /\
  validateObject (VObj (<["debug" := VNum 1]> Scenario.payload_fields))
    Scenario.start_scan_schema =
  validateObject (VObj Scenario.payload_fields) Scenario.start_scan_schema.
Proof.
  split.
  - destruct (validateObject (VObj Scenario.payload_fields) Scenario.start_scan_schema)
      as [validated|e] eqn:E.
    + exists validated. split; [reflexivity|].
      exact (proj1 (proj1 (validateObject_keeps_declared_fields_only
               Scenario.start_scan_schema Scenario.payload_fields) validated E)).
    + exfalso. vm_compute in E. discriminate.
  - refine (proj2 (validateObject_keeps_declared_fields_only
              Scenario.start_scan_schema Scenario.payload_fields) "debug" (VNum 1) _).
    simpl. intuition discriminate.
Defined.

(** The same through [validate], with an undeclared field at the top
    and another in the settings. *)
Example validate_drops_undeclared_fields :
  @validate Scenario.linux_path Scenario.linux_app "start-scan"
    (VObj (<["debug" := VNum 1]>
       (<["settings" := VObj (<["verbose" := VBool true]> Scenario.settings_fields)]>
          Scenario.payload_fields))) =
  @validate Scenario.linux_path Scenario.linux_app "start-scan"
    (VObj Scenario.payload_fields).
Proof.
  vm_compute. reflexivity.
Qed.

(** *** Leading parent segments on POSIX *)

Lemma push_keeps_the_bottom (kept : list string) (seg : string) :
  last kept = Some ".." -> last (Posix.push true kept seg) = Some "..".
Proof.
  intros Hlast. unfold Posix.push.
  destruct (String.eqb seg "" || String.eqb seg "."); [exact Hlast|].
  destruct (String.eqb seg "..").
  - destruct kept as [|top kept']; [discriminate|].
    destruct (String.eqb_spec top "..") as [->|Hne].
    + rewrite last_cons, Hlast. reflexivity.
    + destruct kept' as [|next kept'']; [simpl in Hlast; congruence|].
      rewrite last_cons_cons in Hlast. exact Hlast.
  - rewrite last_cons, Hlast. reflexivity.
Qed.

Lemma fold_push_keeps_the_bottom (segs kept : list string) :
  last kept = Some ".." ->
  last (fold_left (Posix.push true) segs kept) = Some "..".
Proof.
  revert kept. induction segs as [|seg segs IH]; intros kept Hlast; simpl;
    [exact Hlast | apply IH, push_keeps_the_bottom, Hlast].
Qed.

Lemma prefix_append (p s : string) : String.prefix p (p +:+ s) = true.
Proof.
  induction p as [|c p IH]; simpl; [destruct s; reflexivity|].
  destruct (ascii_dec c c); [exact IH | contradiction].
Qed.

Lemma prefix_append_r (p s t : string) :
  String.prefix p s = true -> String.prefix p (s +:+ t) = true.
Proof.
  revert s. induction p as [|c p IH]; intros [|d s]; simpl; try congruence; auto.
  - destruct t; reflexivity.
  - destruct (ascii_dec c d); [apply IH | discriminate].
Qed.

Lemma join_starts_with_the_first (seg : string) (segs : list string) :
  String.prefix seg (Posix.join (seg :: segs)) = true.
Proof.
  destruct segs as [|next segs]; simpl.
  - rewrite <- (prefix_append seg ""). f_equal.
    induction seg as [|c seg IH]; [reflexivity|].
    change (String c seg +:+ "") with (String c (seg +:+ "")). f_equal. exact IH.
  - apply prefix_append.
Qed.

(** A relative path that starts with a parent segment keeps it when
    normalized. *)
Lemma normalize_keeps_leading_parent (rest : string) :
  includes (Posix.normalize ("../" +:+ rest)) ".." = true.
Proof.
  assert (Hstart : forall s, String.prefix ".." s = true -> includes s ".." = true).
  { intros s Hs. destruct s; simpl in *; rewrite Hs; reflexivity. }
  apply Hstart. unfold Posix.normalize.
  change (String.eqb ("../" +:+ rest) "") with false.
  change (Posix.isAbsolute ("../" +:+ rest)) with false.
  cbn [negb].
  assert (Hp : String.prefix ".." (Posix.normalizeString ("../" +:+ rest) true) = true).
  { unfold Posix.normalizeString.
    change (Posix.split ("../" +:+ rest) "") with (".." :: Posix.split rest "").
    change (fold_left (Posix.push true) (".." :: Posix.split rest "") [])
      with (fold_left (Posix.push true) (Posix.split rest "") [".."]).
    pose proof (fold_push_keeps_the_bottom (Posix.split rest "") [".."] eq_refl) as Hlast.
    destruct (fold_left (Posix.push true) (Posix.split rest "") [".."])
      as [|top kept] using rev_ind; [discriminate|].
    rewrite last_snoc in Hlast. injection Hlast as ->.
    rewrite rev_app_distr. simpl rev at 1. simpl app.
    apply join_starts_with_the_first. }
  destruct (Posix.normalizeString ("../" +:+ rest) true) as [|c p] eqn:E;
    [discriminate|].
  change (String.eqb (String c p) "") with false. cbv iota.
  destruct (Posix.endsWithSlash ("../" +:+ rest)); [|exact Hp].
  apply prefix_append_r. exact Hp.
Qed.

(** On POSIX, whatever the working directory, the directories of the
    user and the extension: a path that starts by climbing to the parent
    directory, such as [../../etc/passwd], is rejected by both
    validators. *)
Lemma posix_validators_reject_leading_parent
    (cwd home rest : string) (allowedExtensions : list string) :
  (exists e, @validateFilePath (Posix.path cwd) (Posix.app home)
               ("../" +:+ rest) allowedExtensions = Throw e) /\
  (exists e, @validateExportPath (Posix.path cwd) (Posix.app home)
               ("../" +:+ rest) = Throw e).
Proof.
  pose proof (normalize_keeps_leading_parent rest) as Hdots.
  unfold validateFilePath, validateExportPath.
  cbn [normalize Posix.path]. rewrite Hdots.
  split; destruct (negb _); eauto.
Qed.

End ValidatorFacts.

(** * Further properties *)

(** ** The constraints of the tables *)

Module TableFacts.
Import Js ResultsDatabase ResultsQueries.

Section FilterFacts.
Context {A B : Type}.
Implicit Types (f : A -> B) (g : A -> bool) (l : list A).

Lemma NoDup_map_filter f g l :
  List.NoDup (List.map f l) -> List.NoDup (List.map f (List.filter g l)).
Proof.
  induction l as [|x l IH]; simpl; intros Hnd; [constructor|].
  inversion Hnd as [|? ? Hx Hl]; subst.
  destruct (g x); simpl; [constructor|]; auto.
  intros Hin. apply Hx. apply in_map_iff in Hin as (y & Hy & Hin).
  apply in_map_iff. exists y. split; [exact Hy|].
  apply filter_In in Hin. tauto.
Qed.

Lemma Forall_filter_keeps (P : A -> Prop) g l :
  List.Forall P l -> List.Forall P (List.filter g l).
Proof.
  induction 1 as [|x l Hx Hl IH]; simpl; [constructor|].
  destruct (g x); [constructor|]; assumption.
Qed.

Lemma StronglySorted_map_filter (R : B -> B -> Prop) f g l :
  StronglySorted R (List.map f l) -> StronglySorted R (List.map f (List.filter g l)).
Proof.
  induction l as [|x l IH]; simpl; intros Hs; [constructor|].
  inversion Hs as [|? ? Hl Hx]; subst.
  destruct (g x); simpl; [constructor|]; auto.
  rewrite List.Forall_forall in Hx |- *. intros y Hy. apply Hx.
  apply in_map_iff in Hy as (z & <- & Hz). apply in_map.
  apply filter_In in Hz. tauto.
Qed.

End FilterFacts.

Lemma NoDup_snoc {A} (l : list A) (x : A) :
  List.NoDup l -> ~ In x l -> List.NoDup (l ++ [x]).
Proof.
  induction 1 as [|y l Hy Hl IH]; simpl; intros Hx.
  - constructor; [intros [] | constructor].
  - constructor.
    + intros Hin. apply in_app_or in Hin as [Hin|[<-|[]]]; [auto|].
      apply Hx. left. reflexivity.
    + apply IH. intros Hin. apply Hx. right. exact Hin.
Qed.

Lemma StronglySorted_snoc {A} (R : A -> A -> Prop) (l : list A) (x : A) :
  StronglySorted R l -> List.Forall (fun y => R y x) l -> StronglySorted R (l ++ [x]).
Proof.
  induction 1 as [|y l Hl IH Hy]; simpl; intros Hx.
  - constructor; constructor.
  - inversion Hx as [|? ? Hyx Hlx]; subst. constructor; [apply IH, Hlx|].
    apply Forall_app. split; [exact Hy | constructor; [exact Hyx | constructor]].
Qed.

Lemma well_formed_empty : well_formed empty_tables.
Proof. split; simpl; constructor. Qed.

(** Deleting rows keeps the constraints. *)
Lemma well_formed_filter (t : tables) gs gr gp :
  well_formed t ->
  well_formed (mkTables (List.filter gs (sessions t)) (List.filter gr (results t))
                 (List.filter gp (progress t)) (last_result_id t)).
Proof.
  intros [Hs Hp Hi Hl Hr Hw]. split; simpl.
  - apply NoDup_map_filter, Hs.
  - apply NoDup_map_filter, Hp.
  - apply StronglySorted_map_filter, Hi.
  - apply Forall_filter_keeps, Hl.
  - apply Forall_filter_keeps, Hr.
  - apply Forall_filter_keeps, Hw.
Qed.

Lemma consistent_delete_sessions_where w (db : connection) :
  consistent db -> consistent (delete_sessions_where w db).1.
Proof.
  intros [Hcur Hsaved]. unfold delete_sessions_where, sql_delete. simpl. split.
  - apply (well_formed_filter (current db)). exact Hcur.
  - exact Hsaved.
Qed.

Lemma consistent_deleteSession (db : connection) sessionId :
  consistent db -> consistent (deleteSession db sessionId).1.
Proof.
  intros [Hcur Hsaved]. unfold deleteSession, sql_delete. simpl. split.
  - apply (well_formed_filter (current db)). exact Hcur.
  - exact Hsaved.
Qed.

Lemma consistent_createSession (db : connection) now sessionId totalItems :
  consistent db -> consistent (createSession db now sessionId totalItems).1.
Proof.
  intros [Hcur Hsaved]. unfold createSession.
  destruct (existsb _ _) eqn:E; [split; assumption|].
  simpl. split; [|exact Hsaved].
  destruct Hcur as [Hs Hp Hi Hl Hr Hw]. split; simpl; try assumption.
  - rewrite List.map_app. simpl.
    apply NoDup_snoc; [exact Hs|].
    intros Hx. apply in_map_iff in Hx as (s & Hid & Hin).
    assert (Hex : existsb (fun s => String.eqb (ss_id s) sessionId)
                    (sessions (current db)) = true).
    { apply existsb_exists. exists s. split; [exact Hin|].
      rewrite Hid. apply String.eqb_refl. }
    congruence.
  - apply Forall_app. split; [exact Hw|]. constructor; [|constructor].
    unfold as_written. simpl.
    do 3 (split; [reflexivity|]). left. split; reflexivity.
Qed.

(** The row [insertResult] writes is read by [deserializeResult]. *)
Lemma insert_scan_result_well_formed (t t' : tables) now sessionId r lastID :
  insert_scan_result t now sessionId r = Return (t', lastID) ->
  well_formed t -> well_formed t'.
Proof.
  unfold insert_scan_result. intros Hinsert [Hs Hp Hi Hl Hr Hw].
  destruct (store r) as [st|]; [|discriminate].
  destruct (asin r) as [a|]; [|discriminate].
  injection Hinsert as <- <-. split; simpl; try assumption.
  - rewrite List.map_app. simpl. apply StronglySorted_snoc; [exact Hi|].
    rewrite List.Forall_map. eapply List.Forall_impl; [|exact Hl].
    simpl. intros. lia.
  - apply Forall_app. split.
    + eapply List.Forall_impl; [|exact Hl]. simpl. intros. lia.
    + constructor; [simpl; lia | constructor].
  - apply Forall_app. split; [exact Hr|]. constructor; [|constructor].
    split.
    + simpl. destruct (truthy (success r)); auto.
    + unfold deserializeResult.
      cbn [sr_variations sr_bundle_parts sr_extraction_details
           sr_merchandising_data sr_success].
      unfold stringify_list, stringify_map.
      rewrite !DatabaseFacts.rehydrate_stringify. eauto.
Qed.

Lemma consistent_insertResult (db : connection) now sessionId r :
  consistent db -> consistent (insertResult db now sessionId r).1.
Proof.
  intros [Hcur Hsaved]. unfold insertResult.
  destruct (insert_scan_result (current db) now sessionId r) as [[t lastID]|e] eqn:E;
    simpl; [|split; assumption].
  split; [|exact Hsaved].
  exact (insert_scan_result_well_formed _ _ _ _ _ _ E Hcur).
Qed.

Lemma consistent_sql_begin (db : connection) : consistent db -> consistent (sql_begin db).
Proof.
  intros Hdb. unfold sql_begin.
  destruct (begun db) eqn:E; [exact Hdb|].
  destruct Hdb as [Hcur _].
  split; simpl; [exact Hcur | intros saved [= <-]; exact Hcur].
Qed.

Lemma consistent_sql_commit (db : connection) : consistent db -> consistent (sql_commit db).
Proof.
  intros [Hcur _]. split; simpl; [exact Hcur | discriminate].
Qed.

Lemma consistent_sql_rollback (db : connection) :
  consistent db -> consistent (sql_rollback db).
Proof.
  intros Hdb. unfold sql_rollback.
  destruct (begun db) as [saved|] eqn:E; [|exact Hdb].
  destruct Hdb as [_ Hsaved].
  split; simpl; [apply Hsaved; exact E | discriminate].
Qed.

Lemma consistent_batch_step now sessionId total (b : batch) (r : result) :
  consistent (b_db b) -> consistent (b_db (batch_step now sessionId total b r)).
Proof.
  intros Hb. unfold batch_step.
  pose proof (consistent_insertResult (b_db b) now sessionId r Hb) as Hdb.
  destruct (insertResult (b_db b) now sessionId r) as [db [lastID|e|]]; simpl in Hdb.
  - destruct (Nat.eqb _ _); simpl; [apply consistent_sql_commit|]; exact Hdb.
  - destruct (Nat.eqb _ _); simpl; [apply consistent_sql_rollback|]; exact Hdb.
  - exact Hdb.
Qed.

Lemma consistent_insertBatch (db : connection) now sessionId rs :
  consistent db -> consistent (insertBatch db now sessionId rs).1.
Proof.
  intros Hdb. unfold insertBatch. cbn [fst].
  assert (Hfold : forall l b, consistent (b_db b) ->
            consistent (b_db (fold_left (batch_step now sessionId (length rs)) l b))).
  { induction l as [|r l IH]; intros b Hb; simpl; [exact Hb|].
    apply IH, consistent_batch_step, Hb. }
  apply Hfold. simpl. apply consistent_sql_begin, Hdb.
Qed.

Lemma consistent_updateProgress (db : connection) now sessionId store item total :
  consistent db -> consistent (updateProgress db now sessionId store item total).1.
Proof.
  intros [[Hs Hp Hi Hl Hr Hw] Hsaved]. unfold updateProgress. simpl.
  split; [|exact Hsaved]. split; simpl; try assumption.
  rewrite List.map_app. simpl. apply NoDup_snoc.
  - apply NoDup_map_filter, Hp.
  - intros Hin. apply in_map_iff in Hin as (p & Hid & Hin).
    apply filter_In in Hin as [_ Hne].
    rewrite Hid, String.eqb_refl in Hne. discriminate.
Qed.

Lemma complete_row_id now sessionId (s : scan_session) :
  ss_id (complete_row now sessionId s) = ss_id s.
Proof.
  unfold complete_row. destruct (String.eqb _ _); reflexivity.
Qed.

Lemma consistent_completeSession (db : connection) now sessionId :
  consistent db -> consistent (completeSession db now sessionId).1.
Proof.
  intros [[Hs Hp Hi Hl Hr Hw] Hsaved]. unfold completeSession. simpl.
  split; [|exact Hsaved]. split; simpl; try assumption.
  - rewrite List.map_map.
    rewrite (List.map_ext _ ss_id (complete_row_id now sessionId)). exact Hs.
  - rewrite List.Forall_map. eapply List.Forall_impl; [|exact Hw].
    intros s (Hp' & Hs' & Hf' & Hstatus). unfold complete_row.
    destruct (String.eqb (ss_id s) sessionId); unfold as_written; simpl; eauto 10.
Qed.

(** Every database the methods lead to keeps the constraints. *)
Lemma reachable_consistent (db : connection) : reachable db -> consistent db.
Proof.
  induction 1.
  - split; [apply well_formed_empty | discriminate].
  - apply consistent_createSession; assumption.
  - apply consistent_insertResult; assumption.
  - apply consistent_insertBatch; assumption.
  - apply consistent_updateProgress; assumption.
  - apply consistent_completeSession; assumption.
  - apply consistent_delete_sessions_where; assumption.
  - unfold keepLatestScans. destruct (limit_1_offset _ _) as [[row|]|err];
      [|assumption|assumption].
    apply consistent_delete_sessions_where; assumption.
  - apply consistent_deleteSession; assumption.
Qed.

End TableFacts.

(** ** The read methods *)

Module QueryFacts.
Import Js ResultsDatabase ResultsQueries.

(** The two scenario databases are reached by the methods. *)
Lemma reachable_two_sessions : reachable Scenario.two_sessions.
Proof.
  unfold Scenario.two_sessions. cbv zeta.
  repeat first [apply reach_updateProgress | apply reach_insertResult
               | apply reach_createSession | apply reach_fresh].
Qed.

Lemma reachable_three_results : reachable three_results.
Proof.
  unfold three_results, Scenario.one_session. cbv zeta.
  repeat first [apply reach_insertResult | apply reach_createSession | apply reach_fresh].
Qed.

(** *** Orders on rows whose ids grow with the rowid *)

Lemma insert_by_id_desc_below (x : scan_result) (l : list scan_result) :
  List.Forall (fun y => sr_id x < sr_id y) l -> insert_by_id_desc x l = l ++ [x].
Proof.
  induction 1 as [|y l Hy Hl IH]; simpl; [reflexivity|].
  destruct (Z.leb_spec (sr_id y) (sr_id x)); [lia|]. rewrite IH. reflexivity.
Qed.

Lemma order_by_id_desc_rev (l : list scan_result) :
  StronglySorted Z.lt (List.map sr_id l) -> order_by_id_desc l = rev l.
Proof.
  induction l as [|x l IH]; simpl; intros Hs; [reflexivity|].
  inversion Hs as [|? ? Hl Hx]; subst.
  rewrite IH by exact Hl. apply insert_by_id_desc_below.
  apply List.Forall_forall. intros y Hy. rewrite <- in_rev in Hy.
  rewrite List.Forall_forall in Hx. apply Hx. apply in_map. exact Hy.
Qed.

Lemma insert_by_id_above (x : scan_result) (l : list scan_result) :
  List.Forall (fun y => sr_id x < sr_id y) l -> insert_by_id x l = x :: l.
Proof.
  destruct 1 as [|y l Hy Hl]; simpl; [reflexivity|].
  destruct (Z.leb_spec (sr_id x) (sr_id y)); [reflexivity | lia].
Qed.

Lemma order_by_id_sorted (l : list scan_result) :
  StronglySorted Z.lt (List.map sr_id l) -> order_by_id l = l.
Proof.
  induction l as [|x l IH]; simpl; intros Hs; [reflexivity|].
  inversion Hs as [|? ? Hl Hx]; subst.
  rewrite IH by exact Hl. apply insert_by_id_above.
  apply List.Forall_forall. intros y Hy.
  rewrite List.Forall_forall in Hx. apply Hx. apply in_map. exact Hy.
Qed.

(** *** Rows that [deserializeResult] reads *)

Lemma deserializeResult_row (row : scan_result) (d : deserialized) :
  deserializeResult row = Return d -> d_row d = row.
Proof.
  unfold deserializeResult.
  repeat (destruct (rehydrate _ _); [|discriminate]).
  intros [= <-]. reflexivity.
Qed.

Lemma deserialize_rows_well_stored (rows : list scan_result) :
  List.Forall well_stored rows ->
  exists ds, deserialize_rows rows = Return ds /\ List.map d_row ds = rows /\
             List.Forall (fun d => deserializeResult (d_row d) = Return d) ds.
Proof.
  induction 1 as [|row rows [_ [d Hd]] Hrows (ds & Hds & Hmap & Hall)]; simpl.
  - exists []. repeat split. constructor.
  - exists (d :: ds). rewrite Hd, Hds. simpl.
    pose proof (deserializeResult_row row d Hd) as Hrow.
    rewrite Hrow, Hmap. repeat split. constructor; [|exact Hall].
    rewrite Hrow. exact Hd.
Qed.

Lemma deserialize_rows_app (a b : list scan_result) (da db : list deserialized) :
  deserialize_rows a = Return da -> deserialize_rows b = Return db ->
  deserialize_rows (a ++ b) = Return (da ++ db).
Proof.
  revert da. induction a as [|row a IH]; simpl; intros da Ha Hb.
  - injection Ha as <-. exact Hb.
  - destruct (deserializeResult row) as [d|]; [|discriminate].
    destruct (deserialize_rows a) as [ds|] eqn:E; [|discriminate].
    injection Ha as <-. rewrite (IH ds eq_refl Hb). reflexivity.
Qed.

(** *** [LIMIT] and [OFFSET] *)

Lemma In_firstn_rows {A} (n : nat) (l : list A) (x : A) : In x (firstn n l) -> In x l.
Proof.
  intros Hx. rewrite <- (firstn_skipn n l). apply in_or_app. left. exact Hx.
Qed.

Lemma In_skipn_rows {A} (n : nat) (l : list A) (x : A) : In x (skipn n l) -> In x l.
Proof.
  intros Hx. rewrite <- (firstn_skipn n l). apply in_or_app. right. exact Hx.
Qed.

Lemma slice_In {A} (limit offset : Z) (rows : list A) (x : A) :
  In x (slice limit offset rows) -> In x rows.
Proof.
  unfold slice. intros Hx.
  apply (In_skipn_rows (Z.to_nat (Z.max 0 offset))).
  destruct (limit <? 0); [exact Hx|]. revert Hx. apply In_firstn_rows.
Qed.





(** A page and the page that starts where it ends make up the page of
    both lengths. *)
Lemma slice_adjoin {A} (offset n m : Z) (rows : list A) :
  0 <= offset -> 0 <= n -> 0 <= m ->
  slice (n + m) offset rows =
  slice n offset rows ++ slice m (offset + n) rows.
Proof.
  intros Ho Hn Hm. unfold slice.
  destruct (Z.ltb_spec (n + m) 0); [lia|].
  destruct (Z.ltb_spec n 0); [lia|].
  destruct (Z.ltb_spec m 0); [lia|].
  replace (Z.to_nat (Z.max 0 (offset + n)))
    with (Z.to_nat n + Z.to_nat (Z.max 0 offset))%nat by lia.
  rewrite <- skipn_skipn.
  replace (Z.to_nat (n + m)) with (Z.to_nat n + Z.to_nat m)%nat by lia.
  generalize (skipn (Z.to_nat (Z.max 0 offset)) rows) as l.
  generalize (Z.to_nat m) as j. generalize (Z.to_nat n) as i.
  induction i as [|i IH]; intros j l; simpl; [reflexivity|].
  destruct l as [|x l]; simpl.
  - rewrite firstn_nil. reflexivity.
  - f_equal. apply IH.
Qed.


(** *** The rows of a session in a database the methods lead to *)

Lemma of_session_sorted (db : connection) (sessionId : string) :
  reachable db ->
  StronglySorted Z.lt (List.map sr_id (of_session sessionId (results (current db)))).
Proof.
  intros Hdb. apply TableFacts.reachable_consistent in Hdb as [Hcur _].
  apply TableFacts.StronglySorted_map_filter, (wf_result_ids _ Hcur).
Qed.

Lemma of_session_well_stored (db : connection) (sessionId : string) :
  reachable db ->
  List.Forall well_stored (of_session sessionId (results (current db))).
Proof.
  intros Hdb. apply TableFacts.reachable_consistent in Hdb as [Hcur _].
  apply TableFacts.Forall_filter_keeps, (wf_results _ Hcur).
Qed.

Lemma order_by_id_desc_of_session (db : connection) (sessionId : string) :
  reachable db ->
  order_by_id_desc (of_session sessionId (results (current db))) =
  rev (of_session sessionId (results (current db))).
Proof.
  intros Hdb. apply order_by_id_desc_rev, of_session_sorted, Hdb.
Qed.

(** The two numbers of a page that SQLite takes for integers. *)
Lemma limit_offset_slice {A} (limit offset : Z) (rows : list A) :
  must_be_int limit && must_be_int offset = true ->
  limit_offset limit offset rows = Return (slice limit offset rows).
Proof.
  unfold limit_offset. intros ->. reflexivity.
Qed.

(** What [getResultsRange] resolves with, in a database the methods
    lead to. *)
Lemma getResultsRange_page (db : connection) (sessionId : string) (offset limit : Z) :
  reachable db ->
  must_be_int limit && must_be_int offset = true ->
  exists ds,
    getResultsRange db sessionId offset limit = Resolved ds /\
    List.map d_row ds =
      slice limit offset (rev (of_session sessionId (results (current db)))) /\
    List.Forall (fun d => deserializeResult (d_row d) = Return d) ds.
Proof.
  intros Hdb Hint. unfold getResultsRange.
  rewrite (limit_offset_slice _ _ _ Hint).
  rewrite (order_by_id_desc_of_session db sessionId Hdb).
  destruct (deserialize_rows_well_stored
              (slice limit offset
                 (rev (of_session sessionId (results (current db))))))
    as (ds & Hds & Hmap & Hall).
  - apply List.Forall_forall. intros row Hrow.
    apply slice_In in Hrow. rewrite <- in_rev in Hrow.
    pose proof (of_session_well_stored db sessionId Hdb) as Hws.
    rewrite List.Forall_forall in Hws. apply Hws, Hrow.
  - exists ds. rewrite Hds. auto.
Qed.



(** X2.  Pages follow one another without a gap or an overlap: in a
    database the methods lead to, for an offset and two lengths that
    are not negative and whose sum stays below 2^53, the page of [n]
    rows at [offset] followed by the page of [m] rows at [offset + n]
    is the page of [n + m] rows at [offset]. *)
Theorem getResultsRange_pages_adjoin
    (db : connection) (sessionId : string) (offset n m : Z) :
  reachable db -> 0 <= offset -> 0 <= n -> 0 <= m -> offset + n + m < 2 ^ 53 ->
  exists page next,
    getResultsRange db sessionId offset n = Resolved page /\
    getResultsRange db sessionId (offset + n) m = Resolved next /\
    getResultsRange db sessionId offset (n + m) = Resolved (page ++ next).
Proof.
  intros Hdb Ho Hn Hm Hsum. unfold getResultsRange.
  assert (Hsafe : forall k, 0 <= k <= offset + n + m -> must_be_int k = true).
  { intros k Hk. apply DatabaseFacts.must_be_int_safe.
    change (2 ^ 53) with 9007199254740992 in *. lia. }
  rewrite !limit_offset_slice
    by (rewrite !Hsafe by lia; reflexivity).
  rewrite (slice_adjoin offset n m) by assumption.
  set (rows := order_by_id_desc (of_session sessionId (results (current db)))).
  assert (Hrows : List.Forall well_stored rows).
  { subst rows. rewrite (order_by_id_desc_of_session db sessionId Hdb).
    apply List.Forall_forall. intros row Hrow. rewrite <- in_rev in Hrow.
    pose proof (of_session_well_stored db sessionId Hdb) as Hws.
    rewrite List.Forall_forall in Hws. apply Hws, Hrow. }
  assert (Hpage : forall limit offset,
            List.Forall well_stored (slice limit offset rows)).
  { intros limit o. apply List.Forall_forall. intros row Hrow.
    apply slice_In in Hrow.
    rewrite List.Forall_forall in Hrows. apply Hrows, Hrow. }
  destruct (deserialize_rows_well_stored _ (Hpage n offset)) as (page & Hp & _).
  destruct (deserialize_rows_well_stored _ (Hpage m (offset + n))) as (next & Hq & _).
  exists page, next. rewrite (deserialize_rows_app _ _ _ _ Hp Hq), Hp, Hq.
  repeat split.
Qed.

(** X2 on the session with three results: rows 1 to 2 and row 3 of the
    descending order. *)
Lemma getResultsRange_pages_adjoin_witness :
  exists page next,
    getResultsRange three_results "S1" 0 2 = Resolved page /\
    getResultsRange three_results "S1" (0 + 2) 1 = Resolved next /\
    getResultsRange three_results "S1" 0 (2 + 1) = Resolved (page ++ next).
Proof.
  apply (getResultsRange_pages_adjoin three_results "S1" 0 2 1 reachable_three_results);
    [lia | lia | lia | reflexivity].
Defined.

(** The rows [streamResults] visits, with a count that starts at [n]. *)
Lemma stream_rows_well_stored {V} (callback : deserialized -> V -> V)
    (rows : list scan_result) (ds : list deserialized) (v : V) (n : nat) :
  deserialize_rows rows = Return ds ->
  stream_rows callback rows v n =
    (fold_left (fun v d => callback d v) ds v, Resolved (n + length ds)%nat).
Proof.
  revert ds v n. induction rows as [|row rows IH]; simpl; intros ds v n Hds.
  - injection Hds as <-. simpl. rewrite Nat.add_0_r. reflexivity.
  - destruct (deserializeResult row) as [d|]; [|discriminate].
    destruct (deserialize_rows rows) as [ds'|] eqn:E; [|discriminate].
    injection Hds as <-. rewrite (IH ds' _ _ eq_refl). simpl.
    do 2 f_equal. lia.
Qed.

Lemma deserialize_rows_rev (rows : list scan_result) (ds : list deserialized) :
  deserialize_rows rows = Return ds -> deserialize_rows (rev rows) = Return (rev ds).
Proof.
  revert ds. induction rows as [|row rows IH]; simpl; intros ds Hds.
  - injection Hds as <-. reflexivity.
  - destruct (deserializeResult row) as [d|] eqn:Hd; [|discriminate].
    destruct (deserialize_rows rows) as [ds'|] eqn:E; [|discriminate].
    injection Hds as <-. simpl.
    apply deserialize_rows_app; [apply IH; reflexivity|].
    simpl. rewrite Hd. reflexivity.
Qed.

(** X3.  In a database the methods lead to, [streamResults] runs the
    callback once on each row of the session, in the order of
    insertion, which is the order of [getResultsRange] without a limit
    read backwards, and resolves with the number of rows, the number
    [getResultCount] resolves with. *)
Theorem streamResults_visits_in_insertion_order {V}
    (db : connection) (sessionId : string)
    (callback : deserialized -> V -> V) (v : V) :
  reachable db ->
  exists ds,
    getResultsRange db sessionId 0 (-1) = Resolved ds /\
    streamResults db sessionId callback v =
      (fold_left (fun v d => callback d v) (rev ds) v, Resolved (length ds)) /\
    getResultCount db sessionId = Resolved (length ds) /\
    List.map d_row (rev ds) = of_session sessionId (results (current db)).
Proof.
  intros Hdb.
  destruct (getResultsRange_page db sessionId 0 (-1) Hdb eq_refl)
    as (ds & Hds & Hmap & Hall).
  change (slice (-1) 0 ?l) with l in Hmap.
  exists ds. split; [exact Hds|].
  assert (Hrows : List.map d_row (rev ds) = of_session sessionId (results (current db))).
  { rewrite List.map_rev, Hmap. apply rev_involutive. }
  assert (Hlen : length ds = length (of_session sessionId (results (current db)))).
  { rewrite <- Hrows, length_map, length_rev. reflexivity. }
  split; [|split; [|exact Hrows]].
  - unfold streamResults.
    rewrite (order_by_id_sorted _ (of_session_sorted db sessionId Hdb)).
    assert (Hback : deserialize_rows (of_session sessionId (results (current db)))
                    = Return (rev ds)).
    { rewrite <- Hrows. clear -Hall.
      assert (Hall' : List.Forall (fun d => deserializeResult (d_row d) = Return d) (rev ds)).
      { apply List.Forall_forall. intros d Hd. rewrite <- in_rev in Hd.
        rewrite List.Forall_forall in Hall. apply Hall, Hd. }
      induction Hall' as [|d l Hd Hl IH]; simpl; [reflexivity|].
      rewrite Hd, IH. reflexivity. }
    rewrite (stream_rows_well_stored callback _ _ v 0 Hback).
    rewrite length_rev. reflexivity.
  - unfold getResultCount. rewrite Hlen. reflexivity.
Qed.

(** X3 on the session with three results, with a callback that notes
    the id of each row it is given. *)
Lemma streamResults_visits_in_insertion_order_witness :
  exists ds,
    getResultsRange three_results "S1" 0 (-1) = Resolved ds /\
    streamResults three_results "S1" (fun d seen => seen ++ [sr_id (d_row d)]) [] =
      (fold_left (fun seen d => seen ++ [sr_id (d_row d)]) (rev ds) [],
       Resolved (length ds)) /\
    getResultCount three_results "S1" = Resolved (length ds) /\
    List.map d_row (rev ds) = of_session "S1" (results (current three_results)).
Proof.
  exact (streamResults_visits_in_insertion_order three_results "S1"
           (fun d seen => seen ++ [sr_id (d_row d)]) [] reachable_three_results).
Defined.

End QueryFacts.

(** ** Sessions, statistics and progress *)

Module SessionFacts.
Import Js ResultsDatabase ResultsQueries.

(** X4.  Every database the methods lead to keeps the constraints of
    the schema: no two sessions share an id, no session has two
    progress rows, the ids of the result rows grow strictly with the
    order of insertion and none is above the [AUTOINCREMENT] counter,
    so that the id of a new row is above every id in the table; and
    every result row has a success flag of 0 or 1 and payload columns
    that [deserializeResult] reads without throwing. *)
Theorem reachable_tables_keep_constraints (db : connection) :
  reachable db ->
  let t := current db in
  List.NoDup (List.map ss_id (sessions t)) /\
  List.NoDup (List.map sp_session_id (progress t)) /\
  StronglySorted Z.lt (List.map sr_id (results t)) /\
  (forall now sessionId r db' lastID,
     insertResult db now sessionId r = (db', Resolved lastID) ->
     List.Forall (fun row => sr_id row < lastID) (results t)) /\
  List.Forall (fun row => (sr_success row = 0 \/ sr_success row = 1) /\
                          exists d, deserializeResult row = Return d) (results t).
Proof.
  intros Hdb t. subst t.
  apply TableFacts.reachable_consistent in Hdb as [[Hs Hp Hi Hl Hr Hw] _].
  repeat split; try assumption.
  intros now sessionId r db' lastID Hinsert.
  unfold insertResult, insert_scan_result in Hinsert.
  destruct (store r); [|discriminate]. destruct (asin r); [|discriminate].
  injection Hinsert as _ <-.
  eapply List.Forall_impl; [|exact Hl]. simpl. intros row Hrow. lia.
Qed.

(** X4 on the database with two sessions. *)
Lemma reachable_tables_keep_constraints_witness :
  let t := current Scenario.two_sessions in
  List.NoDup (List.map ss_id (sessions t)) /\
  List.NoDup (List.map sp_session_id (progress t)) /\
  StronglySorted Z.lt (List.map sr_id (results t)) /\
  (forall now sessionId r db' lastID,
     insertResult Scenario.two_sessions now sessionId r = (db', Resolved lastID) ->
     List.Forall (fun row => sr_id row < lastID) (results t)) /\
  List.Forall (fun row => (sr_success row = 0 \/ sr_success row = 1) /\
                          exists d, deserializeResult row = Return d) (results t).
Proof.
  exact (reachable_tables_keep_constraints Scenario.two_sessions
           QueryFacts.reachable_two_sessions).
Defined.

(** *** [MIN] and [MAX] on text *)

Lemma fold_text_min (l : list string) (x : string) :
  let m := fold_left (fun m y => if String.ltb y m then y else m) l x in
  String.leb m x = true /\ List.Forall (fun y => String.leb m y = true) l.
Proof.
  revert x. induction l as [|y l IH]; intros x; simpl.
  - split; [apply DatabaseFacts.string_leb_refl | constructor].
  - destruct (IH (if String.ltb y x then y else x)) as [Hm Hl].
    set (m := fold_left _ l _) in *.
    assert (Hxy : String.leb m x = true /\ String.leb m y = true).
    { destruct (String.ltb y x) eqn:E.
      - split; [|exact Hm].
        apply (DatabaseFacts.string_leb_trans m y x Hm).
        rewrite DatabaseFacts.string_ltb_leb in E.
        apply negb_true_iff in E. unfold String.leb in *.
        rewrite String.compare_antisym.
        destruct (String.compare x y); simpl; congruence.
      - split; [exact Hm|].
        apply (DatabaseFacts.string_leb_trans m x y Hm).
        rewrite DatabaseFacts.string_ltb_leb in E.
        apply negb_false_iff in E. exact E. }
    split; [tauto | constructor; tauto].
Qed.

Lemma fold_text_max (l : list string) (x : string) :
  let m := fold_left (fun m y => if String.ltb m y then y else m) l x in
  String.leb x m = true /\ List.Forall (fun y => String.leb y m = true) l.
Proof.
  revert x. induction l as [|y l IH]; intros x; simpl.
  - split; [apply DatabaseFacts.string_leb_refl | constructor].
  - destruct (IH (if String.ltb x y then y else x)) as [Hm Hl].
    set (m := fold_left _ l _) in *.
    assert (Hxy : String.leb x m = true /\ String.leb y m = true).
    { destruct (String.ltb x y) eqn:E.
      - split; [|exact Hm].
        apply (DatabaseFacts.string_leb_trans x y m); [|exact Hm].
        rewrite DatabaseFacts.string_ltb_leb in E.
        apply negb_true_iff in E. unfold String.leb in *.
        rewrite String.compare_antisym.
        destruct (String.compare y x); simpl; congruence.
      - split; [exact Hm|].
        apply (DatabaseFacts.string_leb_trans y x m); [|exact Hm].
        rewrite DatabaseFacts.string_ltb_leb in E.
        apply negb_false_iff in E. exact E. }
    split; [tauto | constructor; tauto].
Qed.

Lemma fold_text_max_In (l : list string) (x : string) :
  In (fold_left (fun m y => if String.ltb m y then y else m) l x) (x :: l).
Proof.
  revert x. induction l as [|y l IH]; intros x; simpl; [left; reflexivity|].
  destruct (IH (if String.ltb x y then y else x)) as [Hm|Hm]; [|right; right; exact Hm].
  destruct (String.ltb x y); [right; left | left]; exact Hm.
Qed.

Lemma fold_text_min_In (l : list string) (x : string) :
  In (fold_left (fun m y => if String.ltb y m then y else m) l x) (x :: l).
Proof.
  revert x. induction l as [|y l IH]; intros x; simpl; [left; reflexivity|].
  destruct (IH (if String.ltb y x then y else x)) as [Hm|Hm]; [|right; right; exact Hm].
  destruct (String.ltb y x); [right; left | left]; exact Hm.
Qed.





(** Rows whose flag is 0 or 1 are the successes and the failures. *)
Lemma success_or_failure (rows : list scan_result) :
  List.Forall well_stored rows ->
  Nat.add (length (List.filter (fun r => sr_success r =? 1) rows))
          (length (List.filter (fun r => sr_success r =? 0) rows)) = length rows.
Proof.
  induction 1 as [|row rows [[H0|H1] _] Hrows IH]; simpl; [reflexivity| |].
  - rewrite H0. simpl. lia.
  - rewrite H1. simpl. lia.
Qed.




(** X6.  In every database the methods lead to, the columns
    [processed_items], [success_count] and [failed_count] of every
    session row still hold their default 0: no method writes them, so
    the numbers of a scan are to be read from its result rows; and a
    session is [running] without a completion time, or [completed]
    with one. *)
Theorem session_counters_are_never_written (db : connection) :
  reachable db ->
  List.Forall as_written (sessions (current db)).
Proof.
  intros Hdb. apply TableFacts.reachable_consistent in Hdb as [Hcur _].
  exact (wf_session_rows _ Hcur).
Qed.

(** X6 on the database with two sessions. *)
Lemma session_counters_are_never_written_witness :
  List.Forall as_written (sessions (current Scenario.two_sessions)).
Proof.
  exact (session_counters_are_never_written Scenario.two_sessions
           QueryFacts.reachable_two_sessions).
Defined.

End SessionFacts.

(** ** Writes and deletions *)

Module MutationFacts.
Import Js ResultsDatabase ResultsQueries.

Lemma filter_snoc {A} (f : A -> bool) (l : list A) (x : A) :
  List.filter f (l ++ [x]) = List.filter f l ++ (if f x then [x] else []).
Proof.
  rewrite List.filter_app. simpl. destruct (f x); reflexivity.
Qed.

Lemma filter_ext_eqb {A} (key : A -> string) (a b : string) (l : list A) :
  a <> b ->
  List.filter (fun x => String.eqb (key x) a)
    (List.filter (fun x => negb (String.eqb (key x) b)) l) =
  List.filter (fun x => String.eqb (key x) a) l.
Proof.
  intros Hne. induction l as [|x l IH]; simpl; [reflexivity|].
  destruct (String.eqb_spec (key x) b) as [Hb|Hb]; simpl.
  - destruct (String.eqb_spec (key x) a) as [Ha|Ha]; [congruence | exact IH].
  - rewrite IH. reflexivity.
Qed.

(** X7.  [updateProgress] always resolves, and afterwards the session
    has exactly one progress row, the one just written, whatever it had
    before; the progress rows of the other sessions, the sessions and
    the results are as they were. *)
Theorem updateProgress_replaces_the_row
    (db : connection) (now : Time.Date) (sessionId : string)
    (currentStore : option string) (currentItem totalItems : option Z) :
  let db' := (updateProgress db now sessionId currentStore currentItem totalItems).1 in
  (updateProgress db now sessionId currentStore currentItem totalItems).2 = Resolved tt /\
  List.filter (fun p => String.eqb (sp_session_id p) sessionId) (progress (current db')) =
    [mkProgress sessionId currentStore currentItem totalItems
       (Time.CURRENT_TIMESTAMP now)] /\
  List.filter (fun p => negb (String.eqb (sp_session_id p) sessionId))
      (progress (current db')) =
    List.filter (fun p => negb (String.eqb (sp_session_id p) sessionId))
      (progress (current db)) /\
  sessions (current db') = sessions (current db) /\
  results (current db') = results (current db) /\
  begun db' = begun db.
Proof.
  unfold updateProgress. simpl. repeat split.
  - rewrite filter_snoc. cbn [sp_session_id]. rewrite String.eqb_refl.
    rewrite (filter_filter_negb (fun p => String.eqb (sp_session_id p) sessionId)).
    reflexivity.
  - rewrite filter_snoc. cbn [sp_session_id]. rewrite String.eqb_refl. simpl.
    rewrite List.app_nil_r.
    apply (filter_filter_same (fun p => negb (String.eqb (sp_session_id p) sessionId))).
Qed.

(** *** [insertBatch] *)

(** The inserts of a batch whose results all name a store and an ASIN:
    each adds its row, and none fails. *)
Lemma insert_each_complete (t : tables) now sessionId (rs : list result) :
  List.Forall (fun r => store r <> None /\ asin r <> None) rs ->
  exists rows,
    Scenario.insert_each t now sessionId rs =
      (mkTables (sessions t) (results t ++ rows) (progress t)
         (last_result_id t + Z.of_nat (length rs)), []) /\
    length rows = length rs /\
    List.Forall (fun row => sr_session_id row = sessionId) rows /\
    List.map (fun row => Some (sr_store row)) rows = List.map store rs /\
    List.map (fun row => Some (sr_asin row)) rows = List.map asin rs.
Proof.
  intros Hrs. revert t. induction Hrs as [|r rs [Hstore Hasin] Hrs IH]; intros t.
  - exists []. simpl. rewrite List.app_nil_r, Z.add_0_r. destruct t. repeat split.
    constructor.
  - cbn [Scenario.insert_each]. unfold insert_scan_result.
    destruct (store r) as [st|] eqn:Est; [|contradiction].
    destruct (asin r) as [a|] eqn:Ea; [|contradiction].
    cbv zeta. cbv beta iota.
    destruct (IH (mkTables (sessions t)
                    (results t ++
                       [mkResult (last_result_id t + 1) sessionId st a
                          (if truthy (success r) then 1 else 0)
                          (Time.CURRENT_TIMESTAMP now)
                          (extractedName r) (name r) (price r) (imageUrl r)
                          (productUrl r) (loadTime r) (errorMessage r)
                          (default 0 (retryCount r))
                          (Some (stringify_list (variations r)))
                          (Some (stringify_list (bundleParts r)))
                          (Some (stringify_map (extractionDetails r)))
                          (Some (stringify_map (merchandisingData r)))])
                    (progress t) (last_result_id t + 1)))
      as (rows & Heach & Hlen & Hsid & Hst & Has).
    eexists (_ :: rows). rewrite Heach. cbn [sessions results progress last_result_id].
    rewrite <- List.app_assoc. cbn [app length List.map sr_store sr_asin].
    rewrite Hlen, Hst, Has, Est, Ea. repeat split.
    + do 2 f_equal. lia.
    + constructor; [reflexivity | exact Hsid].
    + reflexivity.
    + reflexivity.
Qed.

(** A batch of results that all name a store and an ASIN, outside a
    transaction. *)
Lemma insertBatch_appends_the_rows
    (db : connection) (now : Time.Date) (sessionId : string) (rs : list result) :
  begun db = None -> rs <> [] ->
  List.Forall (fun r => store r <> None /\ asin r <> None) rs ->
  exists rows,
    insertBatch db now sessionId rs =
      (mkConnection
         (mkTables (sessions (current db)) (results (current db) ++ rows)
            (progress (current db))
            (last_result_id (current db) + Z.of_nat (length rs)))
         None,
       Resolved (mkBatchReport (length rs) [])) /\
    length rows = length rs /\
    List.Forall (fun row => sr_session_id row = sessionId) rows /\
    List.map (fun row => Some (sr_store row)) rows = List.map store rs /\
    List.map (fun row => Some (sr_asin row)) rows = List.map asin rs /\
    (forall n, getResultCount db sessionId = Resolved n ->
       getResultCount (insertBatch db now sessionId rs).1 sessionId =
         Resolved (n + length rs)%nat).
Proof.
  intros Hbegun Hrs Hall.
  destruct (exists_last Hrs) as (init & r & ->).
  pose proof (insert_each_complete (current db) now sessionId _ Hall)
    as (rows & Heach & Hlen & Hsid & Hst & Has).
  assert (Hbatch : insertBatch db now sessionId (init ++ [r]) =
            (mkConnection
               (mkTables (sessions (current db)) (results (current db) ++ rows)
                  (progress (current db))
                  (last_result_id (current db) + Z.of_nat (length (init ++ [r]))))
               None,
             Resolved (mkBatchReport (length (init ++ [r])) []))).
  { rewrite (DatabaseFacts.insertBatch_last_insert_decides db now sessionId init r Hbegun).
    apply List.Forall_app in Hall as [Hinit Hlast].
    destruct (insert_each_complete (current db) now sessionId init Hinit)
      as (rows0 & Heach0 & _).
    revert Heach. clear -Heach0 Hlast.
    assert (Hsnoc : forall t l, Scenario.insert_each t now sessionId (l ++ [r]) =
              let '(t', errors) := Scenario.insert_each t now sessionId l in
              match insert_scan_result t' now sessionId r with
              | Return (t'', _) => (t'', errors)
              | Throw e => (t', errors ++ [e])
              end).
    { intros t l. revert t. induction l as [|x l IH]; intros t.
      - simpl. destruct (insert_scan_result t now sessionId r) as [[t' ?]|e]; reflexivity.
      - cbn [app Scenario.insert_each].
        destruct (insert_scan_result t now sessionId x) as [[t' ?]|e].
        + apply IH.
        + rewrite IH. destruct (Scenario.insert_each t now sessionId l) as [t' errors].
          destruct (insert_scan_result t' now sessionId r) as [[t'' ?]|e']; reflexivity. }
    rewrite Hsnoc, Heach0.
    inversion Hlast as [|? ? [Hstore Hasin] _]; subst.
    unfold insert_scan_result.
    destruct (store r); [|contradiction]. destruct (asin r); [|contradiction].
    cbv zeta. cbv beta iota. intros [= Hrows Hid].
    rewrite length_app, Nat.add_1_r. cbn [sessions results progress last_result_id].
    rewrite <- Hrows. do 3 f_equal. lia. }
  exists rows. rewrite Hbatch. repeat split; try assumption.
  intros n. unfold getResultCount. cbn [fst current results]. intros [= <-].
  rewrite List.filter_app, length_app. do 2 f_equal.
  rewrite <- Hlen. clear -Hsid.
  induction Hsid as [|row rows Hrow Hrows IH]; simpl; [reflexivity|].
  rewrite Hrow, String.eqb_refl. simpl. f_equal. exact IH.
Qed.

(** X8.  Outside a transaction, a batch that is not empty and whose
    results all name a store and an ASIN is committed whole:
    [insertBatch] resolves with the number of results and no error,
    the table holds one new row per result after the rows it had, in
    the order of the batch and under the session of the call, the
    count of the session has grown by the length of the batch, and no
    transaction is left open. *)
Theorem insertBatch_inserts_every_result
    (db : connection) (now : Time.Date) (sessionId : string) (rs : list result) :
  begun db = None -> rs <> [] ->
  List.Forall (fun r => store r <> None /\ asin r <> None) rs ->
  exists rows,
    insertBatch db now sessionId rs =
      (mkConnection
         (mkTables (sessions (current db)) (results (current db) ++ rows)
            (progress (current db))
            (last_result_id (current db) + Z.of_nat (length rs)))
         None,
       Resolved (mkBatchReport (length rs) [])) /\
    length rows = length rs /\
    List.Forall (fun row => sr_session_id row = sessionId) rows /\
    List.map (fun row => Some (sr_store row)) rows = List.map store rs /\
    List.map (fun row => Some (sr_asin row)) rows = List.map asin rs /\
    (forall n, getResultCount db sessionId = Resolved n ->
       getResultCount (insertBatch db now sessionId rs).1 sessionId =
         Resolved (n + length rs)%nat).
Proof.
  exact (insertBatch_appends_the_rows db now sessionId rs).
Qed.

(** X8 on a batch of two results for the session [S1]. *)
Lemma insertBatch_inserts_every_result_witness :
  exists rows,
    insertBatch Scenario.one_session Scenario.nine_o_clock "S1"
        [Scenario.good_result; failed_result] =
      (mkConnection
         (mkTables (sessions (current Scenario.one_session))
            (results (current Scenario.one_session) ++ rows)
            (progress (current Scenario.one_session))
            (last_result_id (current Scenario.one_session) + Z.of_nat 2))
         None,
       Resolved (mkBatchReport 2 [])) /\
    length rows = 2%nat /\
    List.Forall (fun row => sr_session_id row = "S1") rows /\
    List.map (fun row => Some (sr_store row)) rows =
      List.map store [Scenario.good_result; failed_result] /\
    List.map (fun row => Some (sr_asin row)) rows =
      List.map asin [Scenario.good_result; failed_result] /\
    (forall n, getResultCount Scenario.one_session "S1" = Resolved n ->
       getResultCount
         (insertBatch Scenario.one_session Scenario.nine_o_clock "S1"
            [Scenario.good_result; failed_result]).1 "S1" =
         Resolved (n + 2)%nat).
Proof.
  apply (insertBatch_inserts_every_result Scenario.one_session Scenario.nine_o_clock "S1"
           [Scenario.good_result; failed_result]).
  - reflexivity.
  - discriminate.
  - repeat constructor; discriminate.
Defined.

(** A batch run while a transaction is open and whose last result
    lacks its store or its ASIN: the [ROLLBACK] restores the rows the
    transaction started from. *)
Lemma insertBatch_rolls_back_to_the_start
    (db : connection) (saved : tables) now sessionId (rs : list result) (bad : result) :
  begun db = Some saved ->
  store bad = None \/ asin bad = None ->
  exists n, insertBatch db now sessionId (rs ++ [bad]) =
              (mkConnection saved None, Rejected (BatchInsertFailed n)).
Proof.
  intros Hbegun Hbad. unfold insertBatch. rewrite fold_left_app.
  rewrite (DatabaseFacts.batch_steps_before_the_last now sessionId _ rs)
    by (rewrite length_app; cbn [b_completed length]; lia).
  unfold sql_begin. rewrite Hbegun. cbn [b_db current begun b_completed b_errors b_outcome].
  destruct (Scenario.insert_each (current db) now sessionId rs) as [t errors].
  cbn [fold_left]. unfold batch_step, insertResult.
  cbn [b_db current begun b_completed b_errors b_outcome].
  assert (Hthrow : exists e, insert_scan_result t now sessionId bad = Throw e).
  { unfold insert_scan_result. destruct Hbad as [-> | Hasin]; [eauto|].
    rewrite Hasin. destruct (store bad); eauto. }
  destruct Hthrow as [e ->].
  rewrite length_app. cbn [length]. rewrite Nat.add_0_l.
  replace (Nat.eqb (S (length rs)) (length rs + 1)) with true
    by (symmetry; apply Nat.eqb_eq; lia).
  cbn [settle fst snd b_db b_outcome]. unfold sql_rollback. cbn [begun].
  rewrite Hbegun. eauto.
Qed.

(** X9.  Outside a transaction, [insertBatch] with no result at all
    begins a transaction and does nothing else: its promise is never
    settled and the transaction stays open.  What is written through
    the connection afterwards is then part of that transaction: when a
    later batch ends on a result without a store or an ASIN, its
    [ROLLBACK] takes the tables back to the rows they held before the
    empty batch, and a result inserted in between is lost. *)
Theorem insertBatch_empty_leaves_the_transaction_open
    (db : connection) (now : Time.Date) (sessionId : string) :
  begun db = None ->
  insertBatch db now sessionId [] =
    (mkConnection (current db) (Some (current db)), Pending) /\
  forall now' sessionId' (r : result) (rs : list result) (bad : result),
    store bad = None \/ asin bad = None ->
    let db1 := (insertBatch db now sessionId []).1 in
    let db2 := (insertResult db1 now' sessionId' r).1 in
    exists n, insertBatch db2 now' sessionId' (rs ++ [bad]) =
                (mkConnection (current db) None, Rejected (BatchInsertFailed n)).
Proof.
  intros Hbegun.
  assert (Hempty : insertBatch db now sessionId [] =
                   (mkConnection (current db) (Some (current db)), Pending)).
  { unfold insertBatch, sql_begin. rewrite Hbegun. reflexivity. }
  split; [exact Hempty|].
  intros now' sessionId' r rs bad Hbad. rewrite Hempty. cbn [fst].
  apply insertBatch_rolls_back_to_the_start; [|exact Hbad].
  unfold insertResult. cbn [current begun].
  destruct (insert_scan_result (current db) now' sessionId' r) as [[t lastID]|e];
    reflexivity.
Qed.

(** X9 on the database with the session [S1]: a result inserted after
    an empty batch is gone after a batch of one malformed result. *)
Lemma insertBatch_empty_leaves_the_transaction_open_witness :
  insertBatch Scenario.one_session Scenario.nine_o_clock "S1" [] =
    (mkConnection (current Scenario.one_session)
       (Some (current Scenario.one_session)), Pending) /\
  exists n,
    insertBatch
      (insertResult (insertBatch Scenario.one_session Scenario.nine_o_clock "S1" []).1
         Scenario.five_past "S1" Scenario.good_result).1
      Scenario.five_past "S1" ([] ++ [Scenario.malformed_result]) =
    (mkConnection (current Scenario.one_session) None, Rejected (BatchInsertFailed n)).
Proof.
  destruct (insertBatch_empty_leaves_the_transaction_open Scenario.one_session
              Scenario.nine_o_clock "S1" eq_refl) as [Hempty Hlater].
  split; [exact Hempty|].
  exact (Hlater Scenario.five_past "S1" Scenario.good_result []
           Scenario.malformed_result (or_introl eq_refl)).
Defined.

(** *** Deletions *)

(** X10.  [deleteSession] touches the rows of its session only: for
    every other session id the result rows, the progress rows and the
    session row are as before, and so are the answers of
    [getResultCount], [getStatistics] and [getResultsRange]. *)
Theorem deleteSession_leaves_the_other_sessions
    (db : connection) (sessionId other : string) :
  other <> sessionId ->
  let db' := (deleteSession db sessionId).1 in
  of_session other (results (current db')) = of_session other (results (current db)) /\
  List.filter (fun p => String.eqb (sp_session_id p) other) (progress (current db')) =
    List.filter (fun p => String.eqb (sp_session_id p) other) (progress (current db)) /\
  List.filter (fun s => String.eqb (ss_id s) other) (sessions (current db')) =
    List.filter (fun s => String.eqb (ss_id s) other) (sessions (current db)) /\
  getResultCount db' other = getResultCount db other /\
  getStatistics db' other = getStatistics db other /\
  (forall offset limit,
     getResultsRange db' other offset limit = getResultsRange db other offset limit).
Proof.
  intros Hne db'.
  assert (Hresults : of_session other (results (current db')) =
                     of_session other (results (current db))).
  { subst db'. unfold deleteSession, sql_delete, of_session. simpl.
    apply (filter_ext_eqb sr_session_id). exact Hne. }
  split; [exact Hresults|].
  split; [subst db'; unfold deleteSession, sql_delete; simpl;
          apply (filter_ext_eqb sp_session_id); exact Hne|].
  split; [subst db'; unfold deleteSession, sql_delete; simpl;
          apply (filter_ext_eqb ss_id); exact Hne|].
  unfold getResultCount, getStatistics, getResultsRange.
  fold (of_session other (results (current db'))).
  fold (of_session other (results (current db))).
  rewrite Hresults. repeat split.
Qed.

(** X10 on the database with two sessions: deleting [S0] leaves the
    rows of [S1]. *)
Lemma deleteSession_leaves_the_other_sessions_witness :
  let db' := (deleteSession Scenario.two_sessions "S0").1 in
  of_session "S1" (results (current db')) =
    of_session "S1" (results (current Scenario.two_sessions)) /\
  List.filter (fun p => String.eqb (sp_session_id p) "S1") (progress (current db')) =
    List.filter (fun p => String.eqb (sp_session_id p) "S1")
      (progress (current Scenario.two_sessions)) /\
  List.filter (fun s => String.eqb (ss_id s) "S1") (sessions (current db')) =
    List.filter (fun s => String.eqb (ss_id s) "S1")
      (sessions (current Scenario.two_sessions)) /\
  getResultCount db' "S1" = getResultCount Scenario.two_sessions "S1" /\
  getStatistics db' "S1" = getStatistics Scenario.two_sessions "S1" /\
  (forall offset limit,
     getResultsRange db' "S1" offset limit =
     getResultsRange Scenario.two_sessions "S1" offset limit).
Proof.
  apply (deleteSession_leaves_the_other_sessions Scenario.two_sessions "S0" "S1").
  discriminate.
Defined.

(** The cascade of the cleanup methods leaves no orphan. *)
Lemma delete_sessions_where_no_orphans
    (w : tables -> scan_session -> bool) (db : connection) :
  (forall t t', sessions t = sessions t' -> w t = w t') ->
  no_orphans (current db) -> no_orphans (current (delete_sessions_where w db).1).
Proof.
  intros Hw [Hr Hp]. rewrite DatabaseFacts.delete_sessions_where_spec by exact Hw.
  cbn [fst current]. split.
  - intros r Hin. cbn [results sessions] in *.
    apply filter_In in Hin as [Hin Hkeep].
    destruct (Hr r Hin) as (s & Hs & Hid).
    exists s. split; [|exact Hid]. apply filter_In. split; [exact Hs|].
    destruct (w (current db) s) eqn:E; [|reflexivity].
    rewrite <- Hid, (DatabaseFacts.session_in_selected _ _ s Hs E) in Hkeep.
    discriminate.
  - intros p Hin. cbn [progress sessions] in *.
    apply filter_In in Hin as [Hin Hkeep].
    destruct (Hp p Hin) as (s & Hs & Hid).
    exists s. split; [|exact Hid]. apply filter_In. split; [exact Hs|].
    destruct (w (current db) s) eqn:E; [|reflexivity].
    rewrite <- Hid, (DatabaseFacts.session_in_selected _ _ s Hs E) in Hkeep.
    discriminate.
Qed.

(** X11.  The three deleting methods leave no orphan behind: in a
    database where every result row and every progress row names a
    session that has a row, this is still so after [deleteSession],
    after [cleanupOldSessions] and after [keepLatestScans], whatever
    their arguments. *)
Theorem deletions_leave_no_orphans
    (getDate : Time.Date -> Z) (setDate : Time.Date -> Z -> Time.Date)
    (db : connection) (sessionId : string) (now : Time.Date)
    (daysToKeep count : option Z) :
  no_orphans (current db) ->
  no_orphans (current (deleteSession db sessionId).1) /\
  no_orphans (current (cleanupOldSessions getDate setDate db now daysToKeep).1) /\
  no_orphans (current (keepLatestScans db count).1).
Proof.
  intros Hdb. split; [|split].
  - destruct Hdb as [Hr Hp]. unfold deleteSession, sql_delete. simpl. split.
    + intros r Hin. cbn [results sessions] in *.
      apply filter_In in Hin as [Hin Hkeep].
      destruct (Hr r Hin) as (s & Hs & Hid).
      exists s. split; [|exact Hid]. apply filter_In. split; [exact Hs|].
      rewrite Hid. exact Hkeep.
    + intros p Hin. cbn [progress sessions] in *.
      apply filter_In in Hin as [Hin Hkeep].
      destruct (Hp p Hin) as (s & Hs & Hid).
      exists s. split; [|exact Hid]. apply filter_In. split; [exact Hs|].
      rewrite Hid. exact Hkeep.
  - unfold cleanupOldSessions.
    apply delete_sessions_where_no_orphans; [reflexivity | exact Hdb].
  - unfold keepLatestScans.
    destruct (limit_1_offset _ _) as [[row|]|err]; [|exact Hdb|exact Hdb].
    apply delete_sessions_where_no_orphans; [|exact Hdb].
    apply DatabaseFacts.started_before_session_sessions.
Qed.

(** X11 on the database with two sessions, each with a result and a
    progress row. *)
Lemma deletions_leave_no_orphans_witness :
  no_orphans (current (deleteSession Scenario.two_sessions "S0").1) /\
  no_orphans (current (cleanupOldSessions Scenario.utc_getDate Scenario.utc_setDate
                         Scenario.two_sessions Scenario.five_past (Some 3)).1) /\
  no_orphans (current (keepLatestScans Scenario.two_sessions (Some 1)).1).
Proof.
  apply (deletions_leave_no_orphans Scenario.utc_getDate Scenario.utc_setDate
           Scenario.two_sessions "S0" Scenario.five_past (Some 3) (Some 1)).
  split.
  - intros r Hr. vm_compute in Hr. destruct Hr as [<-|[<-|[]]].
    + eexists. split; [left; reflexivity | reflexivity].
    + eexists. split; [right; left; reflexivity | reflexivity].
  - intros p Hp. vm_compute in Hp. destruct Hp as [<-|[<-|[]]].
    + eexists. split; [left; reflexivity | reflexivity].
    + eexists. split; [right; left; reflexivity | reflexivity].
Defined.

(** *** [getAllSessions] *)

(** X12.  In a database the methods lead to, [getAllSessions] resolves
    with one row per session, each session once, from the most
    recently started to the oldest.  The [result_count] of a row is
    the number [getResultCount] resolves with for its session, and its
    success and failure counts are numbers, 0 for a session without
    results, that add up to it. *)
Theorem getAllSessions_lists_every_session (db : connection) :
  reachable db ->
  exists rows,
    getAllSessions db = Resolved rows /\
    Permutation (List.map su_session rows) (sessions (current db)) /\
    StronglySorted Scenario.not_older (List.map su_session rows) /\
    List.NoDup (List.map (fun row => ss_id (su_session row)) rows) /\
    List.Forall (fun row =>
        getResultCount db (ss_id (su_session row)) = Resolved (su_result_count row) /\
        0 <= su_success_count row /\ 0 <= su_failed_count row /\
        su_success_count row + su_failed_count row = Z.of_nat (su_result_count row))
      rows.
Proof.
  intros Hdb. eexists. split; [reflexivity|].
  set (ordered := order_by_started_at_desc (sessions (current db))).
  assert (Hmap : List.map su_session (List.map (summarize (current db)) ordered) = ordered).
  { rewrite List.map_map. simpl. apply List.map_id. }
  rewrite Hmap. split; [apply DatabaseFacts.order_by_started_at_desc_Permutation|].
  split; [apply DatabaseFacts.order_by_started_at_desc_sorted|]. split.
  - rewrite <- (List.map_map su_session ss_id), Hmap.
    apply TableFacts.reachable_consistent in Hdb as [[Hs _ _ _ _ _] _].
    eapply Permutation_NoDup; [|exact Hs].
    apply Permutation_map. symmetry.
    apply DatabaseFacts.order_by_started_at_desc_Permutation.
  - apply List.Forall_forall. intros row Hrow.
    apply in_map_iff in Hrow as (s & <- & _). unfold summarize.
    cbn [su_session su_result_count su_success_count su_failed_count].
    split; [reflexivity|]. split; [lia|]. split; [lia|].
    rewrite <- Nat2Z.inj_add.
    rewrite SessionFacts.success_or_failure; [reflexivity|].
    apply QueryFacts.of_session_well_stored, Hdb.
Qed.

(** X12 on the database with two sessions. *)
Lemma getAllSessions_lists_every_session_witness :
  exists rows,
    getAllSessions Scenario.two_sessions = Resolved rows /\
    Permutation (List.map su_session rows) (sessions (current Scenario.two_sessions)) /\
    StronglySorted Scenario.not_older (List.map su_session rows) /\
    List.NoDup (List.map (fun row => ss_id (su_session row)) rows) /\
    List.Forall (fun row =>
        getResultCount Scenario.two_sessions (ss_id (su_session row)) =
          Resolved (su_result_count row) /\
        0 <= su_success_count row /\ 0 <= su_failed_count row /\
        su_success_count row + su_failed_count row = Z.of_nat (su_result_count row))
      rows.
Proof.
  exact (getAllSessions_lists_every_session Scenario.two_sessions
           QueryFacts.reachable_two_sessions).
Defined.

(** *** A scan from its start to its end *)

Lemma complete_row_other now sessionId (l : list scan_session) :
  (forall s, In s l -> ss_id s <> sessionId) ->
  List.map (complete_row now sessionId) l = l.
Proof.
  induction l as [|s l IH]; simpl; intros Hl; [reflexivity|].
  unfold complete_row at 1.
  destruct (String.eqb_spec (ss_id s) sessionId) as [Hid|_].
  - exfalso. apply (Hl s); [left; reflexivity | exact Hid].
  - f_equal. apply IH. intros s' Hs'. apply Hl. right. exact Hs'.
Qed.

Lemma of_session_none (sessionId : string) (rows : list scan_result) :
  (forall r, In r rows -> sr_session_id r <> sessionId) ->
  of_session sessionId rows = [].
Proof.
  intros Hrows. apply filter_none. intros r Hr.
  apply String.eqb_neq. apply Hrows, Hr.
Qed.

Lemma of_session_all (sessionId : string) (rows : list scan_result) :
  List.Forall (fun row => sr_session_id row = sessionId) rows ->
  of_session sessionId rows = rows.
Proof.
  induction 1 as [|row rows Hrow Hrows IH]; simpl; [reflexivity|].
  rewrite Hrow, String.eqb_refl. f_equal. exact IH.
Qed.

(** X13.  A scan recorded from its start to its end is listed with
    all its results: outside a transaction and for a session id that
    no session row and no result row carries yet, [createSession]
    resolves with the id; a batch that is not empty and whose results
    all name a store and an ASIN is then inserted whole; and after
    [completeSession] the count of the session is the length of the
    batch and [getAllSessions] lists the session as [completed],
    started at the time of [createSession] and completed at the time
    of [completeSession], with that count. *)
Theorem scan_is_listed_with_its_results
    (db : connection) (now1 now2 now3 : Time.Date) (sessionId : string)
    (totalItems : Z) (rs : list result) :
  begun db = None ->
  (forall s, In s (sessions (current db)) -> ss_id s <> sessionId) ->
  (forall r, In r (results (current db)) -> sr_session_id r <> sessionId) ->
  rs <> [] ->
  List.Forall (fun r => store r <> None /\ asin r <> None) rs ->
  let db1 := (createSession db now1 sessionId totalItems).1 in
  let db2 := (insertBatch db1 now2 sessionId rs).1 in
  let db3 := (completeSession db2 now3 sessionId).1 in
  (createSession db now1 sessionId totalItems).2 = Resolved sessionId /\
  (insertBatch db1 now2 sessionId rs).2 = Resolved (mkBatchReport (length rs) []) /\
  getResultCount db3 sessionId = Resolved (length rs) /\
  exists rows row,
    getAllSessions db3 = Resolved rows /\ In row rows /\
    su_session row =
      mkSession sessionId (Time.CURRENT_TIMESTAMP now1)
        (Some (Time.CURRENT_TIMESTAMP now3)) totalItems 0 0 0 "completed" /\
    su_result_count row = length rs.
Proof.
  intros Hbegun Hsessions Hresults Hrs Hall db1 db2 db3.
  assert (Hnew : existsb (fun s => String.eqb (ss_id s) sessionId)
                   (sessions (current db)) = false).
  { destruct (existsb _ _) eqn:E; [|reflexivity]. exfalso.
    apply existsb_exists in E as (s & Hs & Hid). apply String.eqb_eq in Hid.
    exact (Hsessions s Hs Hid). }
  assert (Hcreate : createSession db now1 sessionId totalItems =
            (mkConnection
               (mkTables
                  (sessions (current db) ++
                     [mkSession sessionId (Time.CURRENT_TIMESTAMP now1) None
                        totalItems 0 0 0 "running"])
                  (results (current db)) (progress (current db))
                  (last_result_id (current db)))
               (begun db),
             Resolved sessionId)).
  { unfold createSession. rewrite Hnew. reflexivity. }
  subst db3 db2 db1. rewrite Hcreate. cbn [fst snd].
  split; [reflexivity|].
  destruct (insertBatch_appends_the_rows
              (mkConnection
                 (mkTables
                    (sessions (current db) ++
                       [mkSession sessionId (Time.CURRENT_TIMESTAMP now1) None
                          totalItems 0 0 0 "running"])
                    (results (current db)) (progress (current db))
                    (last_result_id (current db)))
                 (begun db))
              now2 sessionId rs Hbegun Hrs Hall)
    as (rows & Hbatch & Hlen & Hsid & _).
  rewrite Hbatch. cbn [fst snd current sessions results progress last_result_id].
  split; [reflexivity|].
  assert (Hof : of_session sessionId (results (current db) ++ rows) = rows).
  { unfold of_session. rewrite List.filter_app.
    fold (of_session sessionId (results (current db))).
    fold (of_session sessionId rows).
    rewrite of_session_none by exact Hresults.
    rewrite of_session_all by exact Hsid. reflexivity. }
  split.
  - unfold getResultCount, completeSession, on_current. cbn [fst current results].
    fold (of_session sessionId (results (current db) ++ rows)).
    rewrite Hof, Hlen. reflexivity.
  - unfold getAllSessions, completeSession, on_current.
    cbn [fst current sessions results].
    assert (Hdone :
      List.map (complete_row now3 sessionId)
        (sessions (current db) ++
           [mkSession sessionId (Time.CURRENT_TIMESTAMP now1) None
              totalItems 0 0 0 "running"]) =
      sessions (current db) ++
        [mkSession sessionId (Time.CURRENT_TIMESTAMP now1)
           (Some (Time.CURRENT_TIMESTAMP now3)) totalItems 0 0 0 "completed"]).
    { rewrite List.map_app, complete_row_other by exact Hsessions.
      f_equal. cbn [List.map]. unfold complete_row. cbn [ss_id].
      rewrite String.eqb_refl. reflexivity. }
    rewrite Hdone.
    eexists.
    exists (summarize
              (mkTables
                 (sessions (current db) ++
                    [mkSession sessionId (Time.CURRENT_TIMESTAMP now1)
                       (Some (Time.CURRENT_TIMESTAMP now3)) totalItems 0 0 0
                       "completed"])
                 (results (current db) ++ rows) (progress (current db))
                 (last_result_id (current db) + Z.of_nat (length rs)))
              (mkSession sessionId (Time.CURRENT_TIMESTAMP now1)
                 (Some (Time.CURRENT_TIMESTAMP now3)) totalItems 0 0 0 "completed")).
    split; [reflexivity|]. split.
    + apply in_map.
      apply (Permutation_in _
               (Permutation_sym (DatabaseFacts.order_by_started_at_desc_Permutation _))).
      apply in_or_app. right. left. reflexivity.
    + split; [reflexivity|]. unfold summarize. cbn [su_result_count ss_id results].
      rewrite Hof. exact Hlen.
Qed.

(** X13 on a new database and a batch of two results. *)
Lemma scan_is_listed_with_its_results_witness :
  let db1 := (createSession fresh Scenario.nine_o_clock "S1" 2).1 in
  let db2 := (insertBatch db1 Scenario.nine_o_clock "S1"
                [Scenario.good_result; failed_result]).1 in
  let db3 := (completeSession db2 Scenario.five_past "S1").1 in
  (createSession fresh Scenario.nine_o_clock "S1" 2).2 = Resolved "S1" /\
  (insertBatch db1 Scenario.nine_o_clock "S1" [Scenario.good_result; failed_result]).2 =
    Resolved (mkBatchReport 2 []) /\
  getResultCount db3 "S1" = Resolved 2%nat /\
  exists rows row,
    getAllSessions db3 = Resolved rows /\ In row rows /\
    su_session row =
      mkSession "S1" (Time.CURRENT_TIMESTAMP Scenario.nine_o_clock)
        (Some (Time.CURRENT_TIMESTAMP Scenario.five_past)) 2 0 0 0 "completed" /\
    su_result_count row = 2%nat.
Proof.
  apply (scan_is_listed_with_its_results fresh Scenario.nine_o_clock
           Scenario.nine_o_clock Scenario.five_past "S1" 2
           [Scenario.good_result; failed_result]).
  - reflexivity.
  - intros s [].
  - intros r [].
  - discriminate.
  - repeat constructor; discriminate.
Defined.

End MutationFacts.

(** ** The cleanup methods *)

Module CleanupFacts.
Import Js ResultsDatabase ResultsQueries.



Section CalendarDay.
Variable getDate : Time.Date -> Z.
Variable setDate : Time.Date -> Z -> Time.Date.

(** X14.  [cleanupOldSessions] goes by the calendar day: with the
    cutoff the [Date] that [setDate(getDate() - daysToKeep)] yields, a
    session whose [started_at] was written by [CURRENT_TIMESTAMP] is
    kept exactly when its UTC day is after the UTC day of the cutoff.
    The sessions started on the day of the cutoff are deleted, those
    started after the cutoff's time of day included. *)
Theorem cleanupOldSessions_keeps_the_later_days
    (db : connection) (now : Time.Date) (daysToKeep : option Z)
    (s : scan_session) (t : Time.Date) :
  let cutoffDate := setDate now (getDate now - default 3 daysToKeep) in
  In s (sessions (current db)) ->
  ss_started_at s = Time.CURRENT_TIMESTAMP t ->
  Time.valid t -> Time.valid cutoffDate ->
  (In s (sessions (current (cleanupOldSessions getDate setDate db now daysToKeep).1)) <->
   Time.day_number cutoffDate < Time.day_number t).
Proof.
  intros cutoffDate Hs Hstart Ht Hc. unfold cleanupOldSessions. fold cutoffDate.
  rewrite DatabaseFacts.delete_sessions_where_spec by reflexivity.
  cbn [fst current sessions]. rewrite filter_In. unfold started_before.
  rewrite Hstart, (DatabaseFacts.started_at_before_iso t cutoffDate Ht Hc).
  destruct (Z.leb_spec (Time.day_number t) (Time.day_number cutoffDate)); simpl.
  - split; [intros [_ Hf]; discriminate | lia].
  - split; [intros _; assumption | auto].
Qed.


End CalendarDay.

(** X14 on a session started at noon of 11 March, cleaned on 14 March
    at 09:00:05 with three days to keep: it is after the cutoff
    instant, on the cutoff's day, and it is not kept. *)
Lemma cleanupOldSessions_keeps_the_later_days_witness :
  let db := (createSession fresh Scenario.noon_on_the_eleventh "S" 1).1 in
  let s := mkSession "S" "2026-03-11 12:00:00" None 1 0 0 0 "running" in
  In s (sessions (current
     (cleanupOldSessions Scenario.utc_getDate Scenario.utc_setDate db
        Scenario.five_past (Some 3)).1)) <->
  Time.day_number (Scenario.utc_setDate Scenario.five_past
                     (Scenario.utc_getDate Scenario.five_past - 3)) <
  Time.day_number Scenario.noon_on_the_eleventh.
Proof.
  apply (cleanupOldSessions_keeps_the_later_days Scenario.utc_getDate Scenario.utc_setDate
           (createSession fresh Scenario.noon_on_the_eleventh "S" 1).1
           Scenario.five_past (Some 3)
           (mkSession "S" "2026-03-11 12:00:00" None 1 0 0 0 "running")
           Scenario.noon_on_the_eleventh).
  - left. reflexivity.
  - reflexivity.
  - unfold Time.valid. simpl. lia.
  - unfold Time.valid. simpl. lia.
Defined.


(** *** [keepLatestScans] *)

Lemma same_key_same_row {A} (key : A -> string) (l : list A) (a b : A) :
  List.NoDup (List.map key l) -> In a l -> In b l -> key a = key b -> a = b.
Proof.
  induction l as [|x l IH]; simpl; intros Hnd Ha Hb Hkey; [destruct Ha|].
  inversion Hnd as [|? ? Hx Hl]; subst.
  destruct Ha as [->|Ha], Hb as [->|Hb]; try reflexivity.
  - exfalso. apply Hx. rewrite Hkey. apply in_map, Hb.
  - exfalso. apply Hx. rewrite <- Hkey. apply in_map, Ha.
  - apply IH; assumption.
Qed.

Lemma of_session_filter (sessionId : string) (g : scan_result -> bool)
    (rows : list scan_result) :
  (forall r, In r rows -> sr_session_id r = sessionId -> g r = true) ->
  of_session sessionId (List.filter g rows) = of_session sessionId rows.
Proof.
  unfold of_session. induction rows as [|r rows IH]; simpl; intros Hg; [reflexivity|].
  assert (IH' := IH (fun r' Hr' => Hg r' (or_intror Hr'))).
  destruct (String.eqb_spec (sr_session_id r) sessionId) as [Hid|Hid].
  - rewrite (Hg r (or_introl eq_refl) Hid). simpl.
    destruct (String.eqb_spec (sr_session_id r) sessionId); [|contradiction].
    f_equal. exact IH'.
  - destruct (g r); simpl; [|exact IH'].
    destruct (String.eqb_spec (sr_session_id r) sessionId); [contradiction|].
    exact IH'.
Qed.

(** X16.  In a database the methods lead to, for every count, ties
    between start times and counts below 1 included (10 when it is not
    given, and a count below 1 acts as 1): [keepLatestScans] keeps the
    [count] most recently started sessions of the descending order, so
    it never keeps fewer than [count] sessions when that many exist
    and never deletes the last session; every session it deletes was
    started strictly before every session it keeps; and a session
    that is kept keeps all its result rows. *)
Theorem keepLatestScans_never_keeps_fewer (db : connection) (count : option Z) :
  reachable db ->
  let n := Z.to_nat (Z.max 1 (default 10 count)) in
  let all := sessions (current db) in
  let db' := (keepLatestScans db count).1 in
  (forall s, In s (Scenario.most_recent n all) -> In s (sessions (current db'))) /\
  (Nat.min n (length all) <= length (sessions (current db')))%nat /\
  (forall kept gone,
     In kept (sessions (current db')) ->
     In gone all -> ~ In gone (sessions (current db')) ->
     String.ltb (ss_started_at gone) (ss_started_at kept) = true) /\
  (forall s, In s (sessions (current db')) ->
     In s all /\
     of_session (ss_id s) (results (current db')) =
     of_session (ss_id s) (results (current db))).
Proof.
  intros Hdb n all db'.
  apply TableFacts.reachable_consistent in Hdb as [[Hids _ _ _ _ _] _]. fold all in Hids.
  pose proof (DatabaseFacts.order_by_started_at_desc_Permutation all) as Hperm.
  pose proof (DatabaseFacts.order_by_started_at_desc_sorted all) as Hsorted.
  assert (Hrecent : forall s, In s (Scenario.most_recent n all) -> In s all).
  { intros s Hs. apply (Permutation_in _ Hperm).
    apply (QueryFacts.In_firstn_rows n). exact Hs. }
  assert (Hlength : forall kept : list scan_session,
                    (forall s, In s (Scenario.most_recent n all) -> In s kept) ->
                    (Nat.min n (length all) <= length kept)%nat).
  { intros kept Hincl.
    assert (Hlen : length (Scenario.most_recent n all) = Nat.min n (length all)).
    { unfold Scenario.most_recent. rewrite length_firstn, (Permutation_length Hperm).
      reflexivity. }
    rewrite <- Hlen. apply NoDup_incl_length; [|exact Hincl].
    assert (Hnd : List.NoDup (List.map ss_id (Scenario.most_recent n all))).
    { unfold Scenario.most_recent.
      assert (Hall : List.NoDup (List.map ss_id (order_by_started_at_desc all))).
      { eapply Permutation_NoDup; [|exact Hids].
        apply Permutation_map. symmetry. exact Hperm. }
      rewrite <- (firstn_skipn n (order_by_started_at_desc all)), List.map_app in Hall.
      apply NoDup_app_remove_r in Hall. exact Hall. }
    apply (NoDup_map_inv ss_id). exact Hnd. }
  assert (Hunchanged :
    (forall s, In s (Scenario.most_recent n all) -> In s all) /\
    (Nat.min n (length all) <= length all)%nat /\
    (forall kept gone, In kept all -> In gone all -> ~ In gone all ->
       String.ltb (ss_started_at gone) (ss_started_at kept) = true) /\
    (forall s, In s all ->
       In s all /\
       of_session (ss_id s) (results (current db)) =
       of_session (ss_id s) (results (current db)))).
  { split; [exact Hrecent|]. split; [apply Hlength, Hrecent|]. split.
    - intros kept gone _ Hg Hgone. contradiction.
    - intros s Hs. split; [exact Hs | reflexivity]. }
  subst db'. unfold keepLatestScans, limit_1_offset. fold all.
  set (c := default 10 count) in *.
  destruct (must_be_int (c - 1)); [|exact Hunchanged].
  replace (Z.to_nat (Z.max 0 (c - 1))) with (Nat.pred n) by (subst n; lia).
  assert (Hn : (1 <= n)%nat) by (subst n; lia).
  destruct (nth_error (order_by_started_at_desc all) (Nat.pred n)) as [b|] eqn:E.
  - apply nth_error_split in E as (l1 & l2 & Hsplit & Hlen).
    rewrite DatabaseFacts.delete_sessions_where_spec
      by (intros t t'; apply DatabaseFacts.started_before_session_sessions).
    cbn [fst current sessions results]. fold all.
    assert (Hb : In b all).
    { apply (Permutation_in _ Hperm). rewrite Hsplit.
      apply in_or_app. right. left. reflexivity. }
    assert (Hw : forall s, started_before_session (ss_id b) (current db) s =
                           String.ltb (ss_started_at s) (ss_started_at b)).
    { intros s. unfold started_before_session.
      rewrite (DatabaseFacts.started_at_of_found (current db) b Hids Hb). reflexivity. }
    rewrite Hsplit in Hsorted.
    destruct (DatabaseFacts.sorted_around l1 b l2 Hsorted) as [Hnewer _].
    rewrite List.Forall_forall in Hnewer.
    assert (Hkept : forall s, In s (Scenario.most_recent n all) ->
              In s (List.filter
                      (fun s => negb (started_before_session (ss_id b) (current db) s))
                      all)).
    { intros s Hs. apply filter_In. split; [apply Hrecent, Hs|].
      rewrite Hw. unfold Scenario.most_recent in Hs.
      replace n with (S (length l1)) in Hs by lia.
      rewrite Hsplit, DatabaseFacts.firstn_middle in Hs.
      apply in_app_or in Hs as [Hs|[<-|[]]].
      - rewrite DatabaseFacts.string_ltb_leb, (Hnewer s Hs). reflexivity.
      - rewrite DatabaseFacts.string_ltb_irrefl. reflexivity. }
    split; [exact Hkept|]. split; [apply Hlength, Hkept|]. split.
    + intros kept gone Hk Hg Hgone.
      apply filter_In in Hk as [_ Hk]. rewrite Hw in Hk. apply negb_true_iff in Hk.
      apply (DatabaseFacts.string_ltb_leb_trans _ (ss_started_at b)).
      * destruct (String.ltb (ss_started_at gone) (ss_started_at b)) eqn:Hlt;
          [reflexivity|].
        exfalso. apply Hgone. apply filter_In. rewrite Hw, Hlt. auto.
      * rewrite DatabaseFacts.string_ltb_leb in Hk.
        apply negb_false_iff in Hk. exact Hk.
    + intros s Hs. apply filter_In in Hs as [Hs Hk]. split; [exact Hs|].
      apply of_session_filter. intros r _ Hid.
      apply negb_true_iff. unfold session_in.
      destruct (existsb _ _) eqn:Hex; [|reflexivity]. exfalso.
      apply existsb_exists in Hex as (s' & Hs' & Heq).
      apply filter_In in Hs' as [Hin' Hsel]. apply String.eqb_eq in Heq.
      assert (s' = s).
      { apply (same_key_same_row ss_id all); try assumption. congruence. }
      subst s'. rewrite Hsel in Hk. discriminate.
  - exact Hunchanged.
Qed.

(** X16 on three sessions created within the same second, asked to
    keep one: the three are kept. *)
Lemma keepLatestScans_never_keeps_fewer_witness :
  let db' := (keepLatestScans Scenario.three_at_once (Some 1)).1 in
  (Nat.min 1 3 <= length (sessions (current db')))%nat.
Proof.
  assert (Hdb : reachable Scenario.three_at_once).
  { unfold Scenario.three_at_once. cbv zeta.
    repeat first [apply reach_createSession | apply reach_fresh]. }
  exact (proj1 (proj2 (keepLatestScans_never_keeps_fewer Scenario.three_at_once
                         (Some 1) Hdb))).
Defined.

(** *** The order of the timestamps *)

Lemma second_of_fields (d : Time.Date) :
  Time.valid d ->
  second_of d =
  ((((Time.year d * 100 + Time.month d) * 100 + Time.day d) * 100 + Time.hours d) * 100
     + Time.minutes d) * 100 + Time.seconds d.
Proof.
  unfold Time.valid, second_of, Time.ticks. intros Hd.
  symmetry. apply Z.div_unique with (r := Time.milliseconds d); lia.
Qed.

(** The texts of [CURRENT_TIMESTAMP] are ordered as the seconds they
    were written in. *)
Lemma compare_CURRENT_TIMESTAMP (a b : Time.Date) :
  Time.valid a -> Time.valid b ->
  String.compare (Time.CURRENT_TIMESTAMP a) (Time.CURRENT_TIMESTAMP b) =
  (second_of a ?= second_of b).
Proof.
  intros Ha Hb. rewrite !second_of_fields by assumption.
  unfold Time.CURRENT_TIMESTAMP.
  rewrite DatabaseFacts.compare_calendar_date by assumption.
  rewrite DatabaseFacts.compare_same_head. unfold Time.clock_time.
  rewrite DatabaseFacts.compare_pad2, DatabaseFacts.compare_same_head,
    DatabaseFacts.compare_pad2, DatabaseFacts.compare_same_head,
    DatabaseFacts.compare_pad2.
  unfold Time.valid, Time.day_number in *.
  rewrite !(Z.mod_small (Time.hours _) 100), !(Z.mod_small (Time.minutes _) 100),
    !(Z.mod_small (Time.seconds _) 100) by lia.
  change (String.compare "" "") with Eq.
  destruct (Z.compare_spec ((Time.year a * 100 + Time.month a) * 100 + Time.day a)
                           ((Time.year b * 100 + Time.month b) * 100 + Time.day b));
  destruct (Z.compare_spec (Time.hours a) (Time.hours b));
  destruct (Z.compare_spec (Time.minutes a) (Time.minutes b));
  destruct (Z.compare_spec (Time.seconds a) (Time.seconds b));
  symmetry;
  first [ apply Z.compare_eq_iff; lia | apply Z.compare_lt_iff; lia
        | apply Z.compare_gt_iff; lia ].
Qed.

(** X17.  [getAllSessions] lists the sessions from the latest to the
    earliest in time: of two rows whose [started_at] were written by
    [CURRENT_TIMESTAMP], the one listed first was not started in an
    earlier second than the other. *)
Theorem getAllSessions_newest_first_in_time
    (db : connection) (before after : list session_summary)
    (a b : session_summary) (ta tb : Time.Date) :
  getAllSessions db = Resolved (before ++ a :: after) ->
  In b after ->
  ss_started_at (su_session a) = Time.CURRENT_TIMESTAMP ta ->
  ss_started_at (su_session b) = Time.CURRENT_TIMESTAMP tb ->
  Time.valid ta -> Time.valid tb ->
  second_of tb <= second_of ta.
Proof.
  intros Hrows Hb Hta Htb Hva Hvb. unfold getAllSessions in Hrows.
  injection Hrows as Hrows.
  pose proof (DatabaseFacts.order_by_started_at_desc_sorted (sessions (current db)))
    as Hsorted.
  assert (Hmap : List.map su_session
                   (List.map (summarize (current db))
                      (order_by_started_at_desc (sessions (current db)))) =
                 order_by_started_at_desc (sessions (current db))).
  { rewrite List.map_map. simpl. apply List.map_id. }
  rewrite Hrows, List.map_app in Hmap. simpl in Hmap. rewrite <- Hmap in Hsorted.
  destruct (DatabaseFacts.sorted_around _ _ _ Hsorted) as [_ Hafter].
  rewrite List.Forall_forall in Hafter.
  specialize (Hafter (su_session b) (in_map su_session _ _ Hb)).
  unfold Scenario.not_older, String.leb in Hafter. rewrite Hta, Htb in Hafter.
  rewrite compare_CURRENT_TIMESTAMP in Hafter by assumption.
  destruct (Z.compare_spec (second_of tb) (second_of ta)); [lia | lia | discriminate].
Qed.

(** X17 on the sessions of 1 March and 14 March: the one of 14 March
    is listed first. *)
Lemma getAllSessions_newest_first_in_time_witness :
  second_of Scenario.first_of_march <= second_of Scenario.nine_o_clock.
Proof.
  apply (getAllSessions_newest_first_in_time Scenario.two_days []
           [summarize (current Scenario.two_days)
              (mkSession "S0" "2026-03-01 08:30:00" None 1 0 0 0 "running")]
           (summarize (current Scenario.two_days)
              (mkSession "S1" "2026-03-14 09:00:00" None 5 0 0 0 "running"))
           (summarize (current Scenario.two_days)
              (mkSession "S0" "2026-03-01 08:30:00" None 1 0 0 0 "running"))).
  - reflexivity.
  - left. reflexivity.
  - reflexivity.
  - reflexivity.
  - unfold Time.valid. simpl. lia.
  - unfold Time.valid. simpl. lia.
Defined.

(** X18.  When SQLite cannot take the offset [count - 1] for an
    integer, as for a count of 2^63, [keepLatestScans] rejects with
    [SQLITE_MISMATCH] and changes nothing.  For every other count, and
    every database, it resolves, and its report counts what it
    removed: the session rows and the result rows that are gone are as
    many as [deletedSessions] and [deletedResults] say.  The
    [AUTOINCREMENT] counter is left as it was, so the ids of the
    deleted results are not given out again. *)
Theorem keepLatestScans_reports_what_it_deleted (db : connection) (count : option Z) :
  let db' := (keepLatestScans db count).1 in
  (must_be_int (default 10 count - 1) = false ->
   keepLatestScans db count = (db, Rejected SQLITE_MISMATCH)) /\
  (must_be_int (default 10 count - 1) = true ->
   exists report,
     (keepLatestScans db count).2 = Resolved report /\
     length (sessions (current db)) =
       (length (sessions (current db')) + deletedSessions report)%nat /\
     length (results (current db)) =
       (length (results (current db')) + deletedResults report)%nat /\
     last_result_id (current db') = last_result_id (current db)).
Proof.
  unfold keepLatestScans, limit_1_offset. split; intros ->; [reflexivity|].
  destruct (nth_error _ _) as [row|].
  - rewrite DatabaseFacts.delete_sessions_where_spec
      by (intros t t'; apply DatabaseFacts.started_before_session_sessions).
    cbn [fst snd current sessions results last_result_id].
    eexists. split; [reflexivity|]. cbn [deletedSessions deletedResults].
    split; [|split; [|reflexivity]].
    + apply (length_filter_split
               (started_before_session (ss_id row) (current db))).
    + apply (length_filter_split
               (fun r => session_in (started_before_session (ss_id row) (current db))
                           (current db) (sr_session_id r))).
  - cbn [fst snd]. exists (mkCleanupReport 0 0). cbn [deletedSessions deletedResults].
    repeat split; lia.
Qed.

(** X18 on the database with two sessions: a count of 2^63 is refused,
    and a count of 1 removes the older session with its result. *)
Lemma keepLatestScans_reports_what_it_deleted_witness :
  keepLatestScans Scenario.two_sessions (Some (2 ^ 63)) =
    (Scenario.two_sessions, Rejected SQLITE_MISMATCH) /\
  exists report,
    (keepLatestScans Scenario.two_sessions (Some 1)).2 = Resolved report /\
    length (sessions (current Scenario.two_sessions)) =
      Nat.add
        (length (sessions (current (keepLatestScans Scenario.two_sessions (Some 1)).1)))
        (deletedSessions report) /\
    length (results (current Scenario.two_sessions)) =
      Nat.add
        (length (results (current (keepLatestScans Scenario.two_sessions (Some 1)).1)))
        (deletedResults report) /\
    last_result_id (current (keepLatestScans Scenario.two_sessions (Some 1)).1) =
      last_result_id (current Scenario.two_sessions).
Proof.
  split.
  - apply (keepLatestScans_reports_what_it_deleted Scenario.two_sessions (Some (2 ^ 63))).
    vm_compute. reflexivity.
  - apply (keepLatestScans_reports_what_it_deleted Scenario.two_sessions (Some 1)).
    vm_compute. reflexivity.
Defined.

(** *** [getDatabaseStats] *)

Lemma string_leb_antisym (a b : string) :
  String.leb a b = true -> String.leb b a = true -> a = b.
Proof.
  unfold String.leb. intros Hab Hba. apply String.compare_eq_iff.
  rewrite (String.compare_antisym b a) in Hba.
  destruct (String.compare a b); simpl in *; congruence.
Qed.

(** [MAX] and [MIN] of a column are the greatest and the least of its
    texts. *)
Lemma text_max_greatest (l : list string) (m : string) :
  In m l -> (forall y, In y l -> String.leb y m = true) -> text_max l = Some m.
Proof.
  intros Hm Hall. destruct l as [|x l]; [destruct Hm|]. simpl. f_equal.
  pose proof (SessionFacts.fold_text_max_In l x) as Hin.
  destruct (SessionFacts.fold_text_max l x) as [Hx Hl].
  set (g := fold_left _ l x) in *.
  apply string_leb_antisym; [apply Hall, Hin|].
  destruct Hm as [<-|Hm]; [exact Hx|].
  rewrite List.Forall_forall in Hl. apply Hl, Hm.
Qed.

Lemma text_min_least (l : list string) (m : string) :
  In m l -> (forall y, In y l -> String.leb m y = true) -> text_min l = Some m.
Proof.
  intros Hm Hall. destruct l as [|x l]; [destruct Hm|]. simpl. f_equal.
  pose proof (SessionFacts.fold_text_min_In l x) as Hin.
  destruct (SessionFacts.fold_text_min l x) as [Hx Hl].
  set (g := fold_left _ l x) in *.
  apply string_leb_antisym; [|apply Hall, Hin].
  destruct Hm as [<-|Hm]; [exact Hx|].
  rewrite List.Forall_forall in Hl. apply Hl, Hm.
Qed.

(** X19.  [getDatabaseStats] agrees with [getAllSessions]: it always
    resolves, its [sessionCount] is the number of rows
    [getAllSessions] lists and its [resultCount] the number of result
    rows; [newestSession] is the [started_at] of the first row of the
    list and [oldestSession] that of the last, both [NULL] when there
    is no session.  [fileSizeMB] is the size of the file in units of
    2^20 bytes rounded to the nearest hundredth, and when the size
    cannot be read the figures are those of a file of 0 bytes. *)
Theorem getDatabaseStats_agrees_with_getAllSessions
    (db : connection) (size : option Z) :
  exists stats rows,
    getDatabaseStats db size = Resolved stats /\
    getAllSessions db = Resolved rows /\
    sessionCount stats = length rows /\
    resultCount stats = length (results (current db)) /\
    (rows = [] -> newestSession stats = None /\ oldestSession stats = None) /\
    (forall first rest, rows = first :: rest ->
       newestSession stats = Some (ss_started_at (su_session first))) /\
    (forall init final, rows = init ++ [final] ->
       oldestSession stats = Some (ss_started_at (su_session final))) /\
    (forall bytes, size = Some bytes ->
       fileSizeBytes stats = bytes /\ fileSizeMB stats = toFixed2_MB bytes /\
       1048576 * (2 * hundredths_of_MB bytes - 1) <= 200 * bytes
         < 1048576 * (2 * hundredths_of_MB bytes + 1)) /\
    (size = None -> fileSizeBytes stats = 0 /\ fileSizeMB stats = toFixed2_MB 0).
Proof.
  eexists. eexists. split; [reflexivity|]. split; [reflexivity|].
  cbn [sessionCount resultCount newestSession oldestSession fileSizeBytes fileSizeMB].
  set (all := sessions (current db)).
  pose proof (DatabaseFacts.order_by_started_at_desc_Permutation all) as Hperm.
  pose proof (DatabaseFacts.order_by_started_at_desc_sorted all) as Hsorted.
  assert (Hmap : forall l, List.map su_session (List.map (summarize (current db)) l) = l).
  { intros l. rewrite List.map_map. simpl. apply List.map_id. }
  assert (Hstart : forall s y, In s (order_by_started_at_desc all) ->
            In y (List.map ss_started_at all) ->
            exists s', In s' (order_by_started_at_desc all) /\ ss_started_at s' = y).
  { intros s y _ Hy. apply in_map_iff in Hy as (s' & <- & Hs').
    exists s'. split; [|reflexivity]. apply (Permutation_in _ (Permutation_sym Hperm) Hs'). }
  split; [rewrite length_map, (Permutation_length Hperm); reflexivity|].
  split; [reflexivity|]. split; [|split; [|split; [|split]]].
  - intros Hrows. apply (f_equal (List.map su_session)) in Hrows.
    rewrite Hmap in Hrows. simpl in Hrows. rewrite Hrows in Hperm.
    apply Permutation_nil in Hperm. fold all. rewrite Hperm. split; reflexivity.
  - intros first rest Hrows. apply (f_equal (List.map su_session)) in Hrows.
    rewrite Hmap in Hrows. simpl in Hrows. rewrite Hrows in Hsorted.
    inversion Hsorted as [|? ? _ Hfirst]; subst.
    rewrite List.Forall_forall in Hfirst.
    assert (Hin : In (su_session first) (order_by_started_at_desc all))
      by (rewrite Hrows; left; reflexivity).
    apply text_max_greatest.
    + apply in_map. apply (Permutation_in _ Hperm Hin).
    + intros y Hy. destruct (Hstart _ y Hin Hy) as (s' & Hs' & <-).
      rewrite Hrows in Hs'. destruct Hs' as [<-|Hs'].
      * apply DatabaseFacts.string_leb_refl.
      * apply (Hfirst s' Hs').
  - intros init final Hrows. apply (f_equal (List.map su_session)) in Hrows.
    rewrite Hmap, List.map_app in Hrows. simpl in Hrows. rewrite Hrows in Hsorted.
    destruct (DatabaseFacts.sorted_around _ _ _ Hsorted) as [Hinit _].
    rewrite List.Forall_forall in Hinit.
    assert (Hin : In (su_session final) (order_by_started_at_desc all))
      by (rewrite Hrows; apply in_or_app; right; left; reflexivity).
    apply text_min_least.
    + apply in_map. apply (Permutation_in _ Hperm Hin).
    + intros y Hy. destruct (Hstart _ y Hin Hy) as (s' & Hs' & <-).
      rewrite Hrows in Hs'. apply in_app_or in Hs' as [Hs'|[<-|[]]].
      * apply (Hinit s' Hs').
      * apply DatabaseFacts.string_leb_refl.
  - intros bytes ->. split; [reflexivity|]. split; [reflexivity|].
    unfold hundredths_of_MB.
    pose proof (Z.div_mod (200 * bytes + 1048576) 2097152 ltac:(lia)) as Hdiv.
    pose proof (Z.mod_pos_bound (200 * bytes + 1048576) 2097152 ltac:(lia)) as Hmod.
    lia.
  - intros ->. split; reflexivity.
Qed.

End CleanupFacts.

(** ** Histories of the rate limiter *)

Module HistoryFacts.
Import Js RateLimiter RateLimiterHistory.

(** A check leaves the records of the other channels alone. *)
Lemma checkLimit_other_channels (state : calls) (now : Z) (channel other : string) :
  other <> channel ->
  (checkLimit state now channel).1 !! other = state !! other.
Proof.
  intros Hne. unfold checkLimit.
  destruct (get_property limits channel) as [limit| |]; [| |reflexivity].
  - cbv zeta. destruct (_ >=? _); cbn [fst];
      destruct (state !! channel);
      rewrite ?lookup_insert_ne by congruence; reflexivity.
  - cbn [fst]. rewrite lookup_insert_ne by congruence. reflexivity.
Qed.

Lemma in_window_again (T now window : Z) (times : list Z) :
  T <= now ->
  in_window now window (in_window T window times) = in_window now window times.
Proof.
  intros HT. unfold in_window. induction times as [|t times IH]; simpl; [reflexivity|].
  destruct (Z.ltb_spec (T - t) window); simpl.
  - rewrite IH. reflexivity.
  - destruct (Z.ltb_spec (now - t) window); [lia | exact IH].
Qed.

Lemma times_of_snoc (channel c : string) (history : list request) (now : Z) :
  times_of channel (history ++ [(now, c)]) =
  times_of channel history ++ (if String.eqb c channel then [now] else []).
Proof.
  unfold times_of. rewrite List.filter_app, List.map_app. simpl.
  destruct (String.eqb c channel); reflexivity.
Qed.

(** One check against the whole history. *)
Lemma checkLimit_passes (state : calls) (history : list request)
    (bound now : Z) (channel : string) :
  remembers state history bound -> bound <= now ->
  let allowed := passes history now channel in
  (checkLimit state now channel).2 =
    (if allowed then Return true
     else (checkLimit state now channel).2) /\
  (allowed = false -> exists e, (checkLimit state now channel).2 = Throw e) /\
  remembers (checkLimit state now channel).1
    (if allowed then history ++ [(now, channel)] else history) now.
Proof.
  intros Hmem Hbound allowed. subst allowed. unfold passes.
  destruct (get_property limits channel) as [limit| |] eqn:Hlimit.
  - destruct (Hmem channel limit Hlimit) as (T & HT & Hrecord).
    rewrite (RateLimiterFacts.checkLimit_declared state now channel limit Hlimit).
    cbv zeta. rewrite Hrecord, in_window_again by lia.
    set (valid := in_window now (windowMs limit) (times_of channel history)).
    rewrite Z.geb_leb.
    destruct (Z.ltb_spec (Z.of_nat (length valid)) (maxCalls limit)) as [Hlt|Hge].
    + destruct (Z.leb_spec (maxCalls limit) (Z.of_nat (length valid))); [lia|].
      cbn [fst snd]. split; [reflexivity|]. split; [discriminate|].
      intros c l Hc. destruct (decide (c = channel)) as [->|Hne].
      * exists now. split; [lia|]. rewrite lookup_insert_eq. cbn [default from_option id].
        assert (l = limit) by congruence. subst l.
        rewrite times_of_snoc, String.eqb_refl. unfold in_window.
        rewrite List.filter_app. cbn [List.filter].
        destruct (RateLimiterFacts.declared_limit channel limit Hlimit) as [_ Hw].
        replace (now - now <? windowMs limit) with true
          by (symmetry; apply Z.ltb_lt; lia).
        reflexivity.
      * destruct (Hmem c l Hc) as (T' & HT' & Hrec').
        exists T'. split; [lia|].
        rewrite lookup_insert_ne by congruence.
        rewrite times_of_snoc.
        replace (String.eqb channel c) with false
          by (symmetry; apply String.eqb_neq; congruence).
        rewrite List.app_nil_r. exact Hrec'.
    + destruct (Z.leb_spec (maxCalls limit) (Z.of_nat (length valid))); [|lia].
      cbn [fst snd]. split; [reflexivity|]. split; [eauto|].
      intros c l Hc. destruct (decide (c = channel)) as [->|Hne].
      * exists now. split; [lia|]. rewrite lookup_insert_eq. cbn [default from_option id].
        assert (l = limit) by congruence. subst l. reflexivity.
      * destruct (Hmem c l Hc) as (T' & HT' & Hrec').
        exists T'. split; [lia|].
        rewrite lookup_insert_ne by congruence. exact Hrec'.
  - unfold checkLimit. rewrite Hlimit. cbn [fst snd].
    split; [reflexivity|]. split; [discriminate|].
    intros c l Hc. assert (Hne : c <> channel) by congruence.
    destruct (Hmem c l Hc) as (T' & HT' & Hrec').
    exists T'. split; [lia|].
    rewrite lookup_insert_ne by congruence.
    rewrite times_of_snoc.
    replace (String.eqb channel c) with false
      by (symmetry; apply String.eqb_neq; congruence).
    rewrite List.app_nil_r. exact Hrec'.
  - rewrite RateLimiterFacts.checkLimit_absent by exact Hlimit. cbn [fst snd].
    split; [reflexivity|]. split; [discriminate|].
    intros c l Hc. assert (Hne : c <> channel) by congruence.
    destruct (Hmem c l Hc) as (T' & HT' & Hrec').
    exists T'. split; [lia|].
    rewrite times_of_snoc.
    replace (String.eqb channel c) with false
      by (symmetry; apply String.eqb_neq; congruence).
    rewrite List.app_nil_r. exact Hrec'.
Qed.

Lemma checks_sliding_window (requests : list request) :
  forall (state : calls) (history : list request) (bound : Z),
    remembers state history bound ->
    List.Forall (fun r => bound <= fst r) requests ->
    clock_goes_forward requests ->
    (checks state requests).2 = sliding_window history requests.
Proof.
  induction requests as [|[now channel] requests IH];
    intros state history bound Hmem Hbound Hclock; [reflexivity|].
  inversion Hbound as [|? ? Hnow _]; subst. inversion Hclock as [|? ? Hrest Hlater]; subst.
  cbn [fst] in *.
  destruct (checkLimit_passes state history bound now channel Hmem Hnow)
    as (Hout & Hthrow & Hmem').
  cbn [checks sliding_window].
  destruct (checkLimit state now channel) as [state' outcome] eqn:Hcheck.
  cbn [fst snd] in *.
  specialize (IH state' _ now Hmem' Hlater Hrest).
  destruct (checks state' requests) as [final outcomes]. cbn [snd] in *.
  rewrite <- IH. f_equal.
  destruct (passes history now channel).
  - rewrite Hout. reflexivity.
  - destruct (Hthrow eq_refl) as [e ->]. reflexivity.
Qed.

(** X20.  Under a clock that does not run backwards, the limiter a
    process starts with decides every call as the sliding window read
    on the whole history does: a call of a channel with a declared
    limit is let through exactly when fewer than [maxCalls] calls of
    that channel were let through less than [windowMs] before it, and
    a call of any other channel is let through.  Dropping the recorded
    times that have left the window loses nothing. *)
Theorem checkLimit_is_the_sliding_window (requests : list request) :
  clock_goes_forward requests ->
  (checks constructor requests).2 = sliding_window [] requests.
Proof.
  intros Hclock.
  destruct requests as [|[now channel] requests]; [reflexivity|].
  apply (checks_sliding_window _ constructor [] now).
  - intros c l _. exists now. split; [lia|].
    unfold constructor. rewrite lookup_empty. reflexivity.
  - inversion Hclock as [|? ? _ Hlater]; subst.
    constructor; [cbn [fst]; lia | exact Hlater].
  - exact Hclock.
Qed.

(** X20 on three calls of [start-scan] thirty seconds apart: the first
    and the third pass. *)
Lemma checkLimit_is_the_sliding_window_witness :
  (checks constructor three_starts).2 = sliding_window [] three_starts /\
  sliding_window [] three_starts = [true; false; true].
Proof.
  split; [|reflexivity].
  apply (checkLimit_is_the_sliding_window three_starts).
  unfold clock_goes_forward, three_starts.
  repeat (constructor; [|repeat (constructor; [simpl; lia|]); constructor]).
  constructor.
Defined.

(** *** What the limiter keeps on record *)

Lemma checkLimit_keeps_the_ceiling (state : calls) (now : Z) (channel : string) :
  (forall c l, get_property limits c = Own l ->
     Z.of_nat (length (default [] (state !! c))) <= maxCalls l) ->
  forall c l, get_property limits c = Own l ->
    Z.of_nat (length (default [] ((checkLimit state now channel).1 !! c))) <= maxCalls l.
Proof.
  intros Hstate c l Hc. destruct (decide (c = channel)) as [->|Hne].
  - rewrite (RateLimiterFacts.checkLimit_declared state now channel l Hc). cbv zeta.
    pose proof (List.filter_length_le (fun time => now - time <? windowMs l)
                  (default [] (state !! channel))) as Hle.
    fold (in_window now (windowMs l) (default [] (state !! channel))) in Hle.
    specialize (Hstate channel l Hc).
    destruct (_ >=? _) eqn:Hge; cbn [fst]; rewrite lookup_insert_eq;
      cbn [default from_option id]; rewrite Z.geb_leb in Hge.
    + lia.
    + apply Z.leb_gt in Hge. rewrite length_app. cbn [length]. lia.
  - rewrite checkLimit_other_channels by exact Hne. apply Hstate, Hc.
Qed.

(** X21.  Whatever the clock does, the limiter never has more than
    [maxCalls] times on record for a channel with a declared limit:
    what it remembers of a channel is bounded by the ceiling of the
    channel, however many calls are made. *)
Theorem checks_never_record_more_than_the_ceiling
    (requests : list request) (channel : string) (limit : limit) :
  get_property limits channel = Own limit ->
  Z.of_nat (length (default [] ((checks constructor requests).1 !! channel)))
    <= maxCalls limit.
Proof.
  assert (Hall : forall requests state,
            (forall c l, get_property limits c = Own l ->
               Z.of_nat (length (default [] (state !! c))) <= maxCalls l) ->
            forall c l, get_property limits c = Own l ->
              Z.of_nat (length (default [] ((checks state requests).1 !! c)))
                <= maxCalls l).
  { clear. induction requests as [|[now channel] requests IH]; intros state Hstate;
      [exact Hstate|].
    cbn [checks].
    pose proof (checkLimit_keeps_the_ceiling state now channel Hstate) as Hstep.
    destruct (checkLimit state now channel) as [state' outcome]. cbn [fst] in Hstep.
    specialize (IH state' Hstep).
    destruct (checks state' requests) as [final outcomes]. exact IH. }
  apply Hall. intros c l Hc. unfold constructor. rewrite lookup_empty.
  destruct (RateLimiterFacts.declared_limit c l Hc). simpl. lia.
Qed.

(** X21 on [start-scan] after three calls. *)
Lemma checks_never_record_more_than_the_ceiling_witness :
  Z.of_nat (length (default [] ((checks constructor three_starts).1 !! "start-scan")))
    <= 1.
Proof.
  exact (checks_never_record_more_than_the_ceiling three_starts "start-scan"
           (mkLimit 1 60000) eq_refl).
Defined.

(** A channel without a record is let through. *)
Lemma checkLimit_without_record (state : calls) (now : Z) (channel : string) :
  state !! channel = None -> (checkLimit state now channel).2 = Return true.
Proof.
  intros Hnone. destruct (get_property limits channel) as [limit| |] eqn:Hlimit.
  - rewrite (RateLimiterFacts.checkLimit_declared state now channel limit Hlimit).
    rewrite Hnone. cbn [default from_option id in_window List.filter length].
    destruct (RateLimiterFacts.declared_limit channel limit Hlimit) as [Hmax _].
    destruct (Z.of_nat 0 >=? maxCalls limit) eqn:Hge; [|reflexivity].
    rewrite Z.geb_leb in Hge. apply Z.leb_le in Hge. simpl in Hge. lia.
  - unfold checkLimit. rewrite Hlimit. reflexivity.
  - rewrite RateLimiterFacts.checkLimit_absent by exact Hlimit. reflexivity.
Qed.

(** X22.  [reset] of a channel forgets its calls, so that the next
    call of that channel is let through whatever was on record, and
    leaves the records of the other channels as they were; [reset]
    without a channel, and also with the empty string as channel,
    forgets the calls of every channel. *)
Theorem reset_lets_the_next_call_through (state : calls) (now : Z) (channel : string) :
  (checkLimit (reset state (Some channel)) now channel).2 = Return true /\
  (channel <> "" ->
   forall other, other <> channel -> reset state (Some channel) !! other = state !! other) /\
  reset state None = ∅ /\
  reset state (Some "") = ∅ /\
  (forall c, (checkLimit (reset state None) now c).2 = Return true).
Proof.
  split; [|split; [|split; [|split]]].
  - apply checkLimit_without_record. unfold reset.
    destruct (String.eqb channel ""); [apply lookup_empty | apply lookup_delete_eq].
  - intros Hchannel other Hother. unfold reset.
    destruct (String.eqb_spec channel ""); [contradiction|].
    apply lookup_delete_ne. congruence.
  - reflexivity.
  - reflexivity.
  - intros c. apply checkLimit_without_record. apply lookup_empty.
Qed.

(** X22 on one call of [start-scan] on record: after the reset of the
    channel a call a second later passes. *)
Lemma reset_lets_the_next_call_through_witness :
  (checkLimit (reset Scenario.one_recent_call (Some "start-scan")) 2000 "start-scan").2 =
    Return true /\
  reset Scenario.one_recent_call (Some "start-scan") !! "save-config" =
    Scenario.one_recent_call !! "save-config".
Proof.
  destruct (reset_lets_the_next_call_through Scenario.one_recent_call 2000 "start-scan")
    as (Hnext & Hothers & _).
  split; [exact Hnext|]. apply Hothers; discriminate.
Defined.

End HistoryFacts.

(** ** What the validator lets through *)

Module ConformanceFacts.
Import Js IPCValidator Conformance.

(** The loop adds to [validated] only fields of the entries it goes
    through, each holding what [validate_field] returned for it. *)
Lemma for_entries_each (Q : rules -> value -> Prop) (obj : value) (entries : schema) :
  List.Forall (fun kr => forall key value out,
                 validate_field key (snd kr) value = Return (Some out) ->
                 Q (snd kr) out) entries ->
  forall acc validated,
    for_entries validate_field obj entries acc = Return validated ->
    forall key v, validated !! key = Some v ->
      acc !! key = Some v \/ exists r, In (key, r) entries /\ Q r v.
Proof.
  induction 1 as [|[k r] entries Hr Hentries IH]; simpl; intros acc validated Hloop key v Hv.
  - injection Hloop as <-. left. exact Hv.
  - destruct (get obj k) as [value|e]; [|discriminate].
    destruct (validate_field k r value) as [[out|]|e] eqn:Hfield; [| |discriminate].
    + destruct (IH _ _ Hloop key v Hv) as [Hacc|(r' & Hin & Hr')].
      * destruct (decide (k = key)) as [->|Hne].
        -- rewrite lookup_insert_eq in Hacc. injection Hacc as <-.
           right. exists r. split; [left; reflexivity|]. eapply Hr. exact Hfield.
        -- rewrite lookup_insert_ne in Hacc by exact Hne. left. exact Hacc.
      * right. exists r'. split; [right; exact Hin | exact Hr'].
    + destruct (IH _ _ Hloop key v Hv) as [Hacc|(r' & Hin & Hr')].
      * left. exact Hacc.
      * right. exists r'. split; [right; exact Hin | exact Hr'].
Qed.

(** The loop never takes a field away. *)
Lemma for_entries_keeps (obj : value) (entries : schema) :
  forall acc validated,
    for_entries validate_field obj entries acc = Return validated ->
    forall key, is_Some (acc !! key) -> is_Some (validated !! key).
Proof.
  induction entries as [|[k r] entries IH]; simpl; intros acc validated Hloop key Hkey.
  - injection Hloop as <-. exact Hkey.
  - destruct (get obj k) as [value|e]; [|discriminate].
    destruct (validate_field k r value) as [[out|]|e]; [| |discriminate].
    + apply (IH _ _ Hloop). destruct (decide (k = key)) as [->|Hne].
      * rewrite lookup_insert_eq. eauto.
      * rewrite lookup_insert_ne by exact Hne. exact Hkey.
    + apply (IH _ _ Hloop). exact Hkey.
Qed.

(** A required field is not skipped. *)
Lemma validate_field_required (key : string) (r : rules) (value : Js.value) :
  required_of r = true -> validate_field key r value <> Return None.
Proof.
  destruct r as [type required maxLength min max properties validate]. simpl.
  intros ->. simpl.
  repeat match goal with
         | |- (if ?b then _ else _) <> _ => destruct b; [discriminate|]
         end.
  destruct properties as [props|].
  - destruct (is_type type "object").
    + destruct (for_entries _ _ _ _); discriminate.
    + unfold custom_validation. destruct validate as [custom|]; [|discriminate].
      destruct (custom value) as [[| |[]| | | | |]|]; discriminate.
  - unfold custom_validation. destruct validate as [custom|]; [|discriminate].
    destruct (custom value) as [[| |[]| | | | |]|]; discriminate.
Qed.

Lemma for_entries_required (obj : value) (entries : schema) :
  forall acc validated,
    for_entries validate_field obj entries acc = Return validated ->
    forall key r, In (key, r) entries -> required_of r = true ->
      is_Some (validated !! key).
Proof.
  induction entries as [|[k r] entries IH]; simpl; intros acc validated Hloop key r' Hin Hreq;
    [destruct Hin|].
  destruct (get obj k) as [value|e]; [|discriminate].
  destruct (validate_field k r value) as [[out|]|e] eqn:Hfield; [| |discriminate].
  - destruct Hin as [[= -> ->]|Hin]; [|apply (IH _ _ Hloop key r' Hin Hreq)].
    apply (for_entries_keeps _ _ _ _ Hloop). rewrite lookup_insert_eq. eauto.
  - destruct Hin as [[= -> ->]|Hin]; [|apply (IH _ _ Hloop key r' Hin Hreq)].
    exfalso. exact (validate_field_required key r' value Hreq Hfield).
Qed.

Lemma is_type_unique (type : option string) (a b : string) :
  is_type type a = true -> is_type type b = true -> a = b.
Proof.
  destruct type as [t|]; simpl; [|discriminate].
  intros Ha Hb. apply String.eqb_eq in Ha, Hb. congruence.
Qed.

Lemma custom_validation_passed key validate (value out : Js.value) :
  custom_validation key validate value = Return (Some out) ->
  out = value /\ passed validate value.
Proof.
  unfold custom_validation, passed. destruct validate as [custom|].
  - destruct (custom value) as [[| |[]| | | | |]|]; try discriminate;
      intros [= <-]; auto.
  - intros [= <-]. auto.
Qed.

(** What the checks before the recursion establish of a value. *)
Lemma checked_value (type : option string) (required : bool)
    (maxLength min max : option Z) (value : Js.value) :
  required && nullish value = false ->
  negb required && nullish value = false ->
  is_type type "object" && negb (String.eqb (typeof value) "object") = false ->
  is_type type "string" && negb (String.eqb (typeof value) "string") = false ->
  is_type type "number" && negb (String.eqb (typeof value) "number") = false ->
  is_type type "boolean" && negb (String.eqb (typeof value) "boolean") = false ->
  is_type type "string" && too_long maxLength value = false ->
  is_type type "number" && below min value = false ->
  is_type type "number" && above max value = false ->
  nullish value = false /\
  (is_type type "string" = true ->
     exists s, value = VStr s /\ too_long maxLength value = false) /\
  (is_type type "number" = true ->
     value = VNaN \/
     exists x, value = VNum x /\ below min value = false /\ above max value = false) /\
  (is_type type "boolean" = true -> exists b, value = VBool b) /\
  (is_type type "object" = true -> exists sub, value = VObj sub).
Proof.
  intros H1 H2 H3 H4 H5 H6 H7 H8 H9.
  assert (Hnull : nullish value = false).
  { destruct required, (nullish value); simpl in *; congruence. }
  split; [exact Hnull|]. split; [|split; [|split]].
  - intros Ht. rewrite Ht in H4, H7. simpl in H4, H7.
    apply negb_false_iff, String.eqb_eq in H4.
    destruct value; try discriminate. eauto.
  - intros Ht. rewrite Ht in H5, H8, H9. simpl in H5, H8, H9.
    apply negb_false_iff, String.eqb_eq in H5.
    destruct value; try discriminate; [right; eauto | left; reflexivity].
  - intros Ht. rewrite Ht in H6. simpl in H6.
    apply negb_false_iff, String.eqb_eq in H6.
    destruct value; try discriminate. eauto.
  - intros Ht. rewrite Ht in H3. simpl in H3.
    apply negb_false_iff, String.eqb_eq in H3.
    destruct value; try discriminate. eauto.
Qed.

Lemma conforms_object type required maxLength min max props validate sub :
  is_type type "object" = true ->
  (forall key v, sub !! key = Some v ->
     exists r, In (key, r) props /\ conforms r v) ->
  conforms (Rules type required maxLength min max (Some props) validate) (VObj sub).
Proof.
  intros Htype Hsub. simpl. rewrite Htype.
  split; [reflexivity|].
  split; [intros Ht; discriminate (is_type_unique type _ _ Ht Htype)|].
  split; [intros Ht; discriminate (is_type_unique type _ _ Ht Htype)|].
  split; [intros Ht; discriminate (is_type_unique type _ _ Ht Htype)|].
  split; [eauto|].
  exists sub. split; [reflexivity|].
  intros key v Hv. destruct (Hsub key v Hv) as (r & Hin & Hr). clear Hsub Hv.
  induction props as [|[k r'] props IH]; [destruct Hin|].
  destruct Hin as [[= -> ->]|Hin]; [left; auto | right; apply IH, Hin].
Qed.

Lemma validate_field_conforms (r : rules) :
  forall key value out,
    validate_field key r value = Return (Some out) -> conforms r out.
Proof.
  induction r as [type required maxLength min max properties validate IH]
    using ValidatorFacts.rules_nested_ind.
  intros key value out Hfield. simpl in Hfield.
  destruct (required && nullish value) eqn:H1; [discriminate|].
  destruct (negb required && nullish value) eqn:H2; [discriminate|].
  destruct (is_type type "object" && negb (String.eqb (typeof value) "object")) eqn:H3;
    [discriminate|].
  destruct (is_type type "string" && negb (String.eqb (typeof value) "string")) eqn:H4;
    [discriminate|].
  destruct (is_type type "number" && negb (String.eqb (typeof value) "number")) eqn:H5;
    [discriminate|].
  destruct (is_type type "boolean" && negb (String.eqb (typeof value) "boolean")) eqn:H6;
    [discriminate|].
  destruct (is_type type "string" && too_long maxLength value) eqn:H7; [discriminate|].
  destruct (is_type type "number" && below min value) eqn:H8; [discriminate|].
  destruct (is_type type "number" && above max value) eqn:H9; [discriminate|].
  pose proof (checked_value type required maxLength min max value
                H1 H2 H3 H4 H5 H6 H7 H8 H9) as Hchecked.
  assert (Hleaf : custom_validation key validate value = Return (Some out) ->
            (match properties with
             | Some _ => is_type type "object" = false
             | None => True
             end) ->
            conforms (Rules type required maxLength min max properties validate) out).
  { intros Hcustom Hprops.
    apply custom_validation_passed in Hcustom as [-> Hpassed].
    destruct Hchecked as (Hn & Hs & Hx & Hb & Ho). simpl.
    repeat (split; [assumption|]).
    destruct properties; [rewrite Hprops|]; exact Hpassed. }
  destruct properties as [props|]; [|apply Hleaf; [exact Hfield | exact I]].
  destruct (is_type type "object") eqn:Htype;
    [|apply Hleaf; [exact Hfield | reflexivity]].
  destruct (for_entries validate_field value props ∅) as [sub|e] eqn:Hloop;
    [|discriminate].
  injection Hfield as <-.
  apply conforms_object; [exact Htype|].
  intros k v Hv.
  destruct (for_entries_each conforms value props IH ∅ sub Hloop k v Hv)
    as [Hempty|Hfound]; [|exact Hfound].
  rewrite lookup_empty in Hempty. discriminate.
Qed.

Lemma validateObject_conforms
    (schema : schema) (obj : value) (validated : gmap string value) :
  validateObject obj schema = Return validated ->
  forall key v, validated !! key = Some v ->
    exists r, In (key, r) schema /\ conforms r v.
Proof.
  unfold validateObject. intros Hvalid key v Hv.
  destruct (for_entries_each conforms obj schema
              (proj2 (List.Forall_forall _ _)
                 (fun kr _ => validate_field_conforms (snd kr)))
              ∅ validated Hvalid key v Hv) as [Hempty|Hfound]; [|exact Hfound].
  rewrite lookup_empty in Hempty. discriminate.
Qed.

(** X23.  Whatever the schema and the payload: when [validateObject]
    returns, every field the schema requires is in the object it
    returns, and every field of that object is as the rules of a
    schema entry of its name let it through: given, of the declared
    type, a string within [maxLength], a number that is [NaN] or lies
    between [min] and [max], accepted by the custom predicate, and
    under an object rule with properties again an object of fields
    that are as their rules let them through. *)
Theorem validateObject_returns_what_the_rules_want
    (schema : schema) (obj : value) (validated : gmap string value) :
  validateObject obj schema = Return validated ->
  (forall key r, In (key, r) schema -> required_of r = true ->
     is_Some (validated !! key)) /\
  (forall key v, validated !! key = Some v ->
     exists r, In (key, r) schema /\ conforms r v).
Proof.
  intros Hvalid. split.
  - apply (for_entries_required obj schema ∅ validated Hvalid).
  - apply (validateObject_conforms schema obj validated Hvalid).
Qed.

(** X23 on the [start-scan] payload of a Linux user. *)
Lemma validateObject_returns_what_the_rules_want_witness :
  exists validated,
    validateObject (VObj Scenario.payload_fields) Scenario.start_scan_schema =
      Return validated /\
    (forall key r, In (key, r) Scenario.start_scan_schema -> required_of r = true ->
       is_Some (validated !! key)) /\
    (forall key v, validated !! key = Some v ->
       exists r, In (key, r) Scenario.start_scan_schema /\ conforms r v).
Proof.
  destruct (validateObject (VObj Scenario.payload_fields) Scenario.start_scan_schema)
    as [validated|e] eqn:E.
  - exists validated. split; [reflexivity|].
    exact (validateObject_returns_what_the_rules_want Scenario.start_scan_schema
             (VObj Scenario.payload_fields) validated E).
  - exfalso. vm_compute in E. discriminate.
Defined.

Section StartScan.
Context `{Path} `{App}.

Lemma conforms_number_between (lo hi : Z) (v : value) :
  conforms (number_between lo hi) v -> number_in lo hi v.
Proof.
  simpl. intros (_ & _ & Hnumber & _).
  destruct (Hnumber eq_refl) as [->|(x & -> & Hlo & Hhi)]; [left; reflexivity|].
  right. exists x. simpl in Hlo, Hhi. split; [reflexivity|]. lia.
Qed.

Lemma short_string (v : value) (n : Z) :
  0 < n ->
  (exists s, v = VStr s /\ too_long (Some n) v = false) ->
  exists s, v = VStr s /\ Z.of_nat (String.length s) <= n.
Proof.
  intros Hn (s & -> & Hlen). exists s. split; [reflexivity|]. simpl in Hlen.
  destruct (Z.eqb_spec n 0); [lia|]. simpl in Hlen. lia.
Qed.

(** X24.  A payload that [validate] accepts on the channel
    [start-scan] gives a configuration with a store mapping file, a
    string whose length, as [value.length] counts it, is at most 500
    and that [validateFilePath] accepts as a [.csv] path, and settings
    that are an object whose fields are all settings of the schema:
    [headless] a boolean, and each of the five others a number that
    is [NaN], which no comparison excludes, or lies within its
    bounds; the item list file, when there is one, is a string of a
    length of at most 500, empty or accepted by [validateFilePath] as
    a [.csv] or [.xlsx] path. *)
Theorem start_scan_configuration_is_bounded
    (data : value) (validated : gmap string value) :
  validate "start-scan" data = Return validated ->
  (exists file,
     validated !! "storeMappingFile" = Some (VStr file) /\
     Z.of_nat (String.length file) <= 500 /\
     validateFilePath file [".csv"] = Return true) /\
  (exists settings,
     validated !! "settings" = Some (VObj settings) /\ bounded_settings settings) /\
  (forall v, validated !! "itemListFile" = Some v ->
     exists file,
       v = VStr file /\ Z.of_nat (String.length file) <= 500 /\
       (file = "" \/ validateFilePath file [".csv"; ".xlsx"] = Return true)).
Proof.
  unfold validate.
  change (get_property schemas "start-scan") with
    (Own [ ("storeMappingFile",
             Rules (Some "string") true (Some 500) None None None
               (Some (file_path_rule [".csv"])));
           ("itemListFile",
             Rules (Some "string") false (Some 500) None None None
               (Some (optional_file_path_rule [".csv"; ".xlsx"])));
           ("settings",
             Rules (Some "object") true None None None
               (Some [ ("delayBetweenItems", number_between 500 60000);
                       ("delayBetweenStores", number_between 1000 120000);
                       ("pageTimeout", number_between 5000 300000);
                       ("maxRetries", number_between 1 10);
                       ("maxConcurrentAgents", number_between 1 31);
                       ("headless", Rules (Some "boolean") false None None None None None) ])
               None) ]).
  intros Hvalid.
  pose proof (for_entries_required _ _ _ _ Hvalid) as Hreq.
  pose proof (validateObject_conforms _ _ _ Hvalid) as Hconf.
  split; [|split].
  - destruct (Hreq "storeMappingFile" _ (or_introl eq_refl) eq_refl) as [v Hv].
    destruct (Hconf _ _ Hv) as (r & Hin & Hr).
    destruct Hin as [[= <-]|[[=]|[[=]|[]]]].
    destruct Hr as (_ & Hstring & _ & _ & _ & Hpassed).
    destruct (short_string v 500 ltac:(lia) (Hstring eq_refl)) as (file & -> & Hlen).
    exists file. split; [exact Hv|]. split; [exact Hlen|].
    simpl in Hpassed. destruct (validateFilePath file [".csv"]) as [[]|];
      destruct Hpassed; try discriminate. reflexivity.
  - destruct (Hreq "settings" _ (or_intror (or_intror (or_introl eq_refl))) eq_refl)
      as [v Hv].
    destruct (Hconf _ _ Hv) as (r & Hin & Hr).
    destruct Hin as [[=]|[[=]|[[= <-]|[]]]].
    destruct Hr as (_ & _ & _ & _ & _ & (settings & -> & Hsettings)).
    exists settings. split; [exact Hv|].
    intros key v' Hv'. specialize (Hsettings key v' Hv').
    destruct Hsettings as [[<- Hc]|[[<- Hc]|[[<- Hc]|[[<- Hc]|[[<- Hc]|[[<- Hc]|[]]]]]]].
    + left. split; [reflexivity | apply conforms_number_between, Hc].
    + right. left. split; [reflexivity | apply conforms_number_between, Hc].
    + do 2 right. left. split; [reflexivity | apply conforms_number_between, Hc].
    + do 3 right. left. split; [reflexivity | apply conforms_number_between, Hc].
    + do 4 right. left. split; [reflexivity | apply conforms_number_between, Hc].
    + do 5 right. split; [reflexivity|].
      destruct Hc as (_ & _ & _ & Hbool & _). exact (Hbool eq_refl).
  - intros v Hv.
    destruct (Hconf _ _ Hv) as (r & Hin & Hr).
    destruct Hin as [[=]|[[= <-]|[[=]|[]]]].
    destruct Hr as (_ & Hstring & _ & _ & _ & Hpassed).
    destruct (short_string v 500 ltac:(lia) (Hstring eq_refl)) as (file & -> & Hlen).
    exists file. split; [reflexivity|]. split; [exact Hlen|].
    simpl in Hpassed. unfold optional_file_path_rule in Hpassed. simpl in Hpassed.
    destruct (String.eqb_spec file ""); [left; assumption|]. right.
    simpl in Hpassed. destruct (validateFilePath file [".csv"; ".xlsx"]) as [[]|];
      destruct Hpassed; try discriminate. reflexivity.
Qed.

(** X25.  A payload that [validate] accepts on the channel
    [export-results] gives an object with the one field [exportPath],
    a string of at most 500 characters that [validateExportPath]
    accepts. *)
Theorem export_results_path_is_checked
    (data : value) (validated : gmap string value) :
  validate "export-results" data = Return validated ->
  exists path,
    validated = {[ "exportPath" := VStr path ]} /\
    Z.of_nat (String.length path) <= 500 /\
    validateExportPath path = Return true.
Proof.
  unfold validate.
  change (get_property schemas "export-results") with
    (Own [ ("exportPath",
             Rules (Some "string") true (Some 500) None None None
               (Some export_path_rule)) ]).
  intros Hvalid.
  pose proof (for_entries_required _ _ _ _ Hvalid) as Hreq.
  pose proof (validateObject_conforms _ _ _ Hvalid) as Hconf.
  destruct (Hreq "exportPath" _ (or_introl eq_refl) eq_refl) as [v Hv].
  destruct (Hconf _ _ Hv) as (r & Hin & Hr).
  destruct Hin as [[= <-]|[]].
  destruct Hr as (_ & Hstring & _ & _ & _ & Hpassed).
  destruct (short_string v 500 ltac:(lia) (Hstring eq_refl)) as (path & -> & Hlen).
  exists path. split; [|split; [exact Hlen|]].
  - apply map_eq. intros key. destruct (decide (key = "exportPath")) as [->|Hne].
    + rewrite Hv, lookup_singleton_eq. reflexivity.
    + rewrite lookup_singleton_ne by congruence.
      destruct (validated !! key) as [v'|] eqn:Hkey; [|reflexivity].
      destruct (Hconf _ _ Hkey) as (r' & [[= <-]|[]] & _). contradiction.
  - simpl in Hpassed. destruct (validateExportPath path) as [[]|];
      destruct Hpassed; try discriminate. reflexivity.
Qed.

End StartScan.

(** A [maxRetries] that is [NaN] passes the checks of [start-scan]. *)
Example validate_lets_NaN_through :
  exists validated,
    @validate Scenario.linux_path Scenario.linux_app "start-scan"
      (VObj (<["settings" := VObj (<["maxRetries" := VNaN]> ∅)]>
               Scenario.payload_fields)) = Return validated /\
    validated !! "settings" = Some (VObj (<["maxRetries" := VNaN]> ∅)).
Proof.
  eexists. split; vm_compute; reflexivity.
Qed.

(** X24 on the [start-scan] payload of a Linux user. *)
Lemma start_scan_configuration_is_bounded_witness :
  exists validated,
    @validate Scenario.linux_path Scenario.linux_app "start-scan"
      (VObj Scenario.payload_fields) = Return validated /\
    (exists settings,
       validated !! "settings" = Some (VObj settings) /\ bounded_settings settings).
Proof.
  destruct (@validate Scenario.linux_path Scenario.linux_app "start-scan"
              (VObj Scenario.payload_fields)) as [validated|e] eqn:E.
  - exists validated. split; [reflexivity|].
    exact (proj1 (proj2 (@start_scan_configuration_is_bounded
                           Scenario.linux_path Scenario.linux_app
                           (VObj Scenario.payload_fields) validated E))).
  - exfalso. vm_compute in E. discriminate.
Defined.

(** X25 on an export to the Documents of a Linux user. *)
Lemma export_results_path_is_checked_witness :
  exists validated path,
    @validate Scenario.linux_path Scenario.linux_app "export-results"
      (VObj {[ "exportPath" := VStr "/home/user/Documents/scan.xlsx" ]}) =
      Return validated /\
    validated = {[ "exportPath" := VStr path ]} /\
    Z.of_nat (String.length path) <= 500 /\
    @validateExportPath Scenario.linux_path Scenario.linux_app path = Return true.
Proof.
  destruct (@validate Scenario.linux_path Scenario.linux_app "export-results"
              (VObj {[ "exportPath" := VStr "/home/user/Documents/scan.xlsx" ]}))
    as [validated|e] eqn:E.
  - destruct (@export_results_path_is_checked Scenario.linux_path Scenario.linux_app
                _ validated E) as (path & Hpath).
    exists validated, path. split; [reflexivity | exact Hpath].
  - exfalso. vm_compute in E. discriminate.
Defined.

End ConformanceFacts.

(** ** [sanitizeASIN] *)

Module SanitizeFacts.
Import Js Sanitize.

Lemma test_repeat_spec (class : ascii -> bool) (n : nat) (s : string) :
  test_repeat class n s = true <->
  String.length s = n /\
  List.Forall (fun c => class c = true) (list_ascii_of_string s).
Proof.
  revert s. induction n as [|n IH]; intros [|c s]; simpl.
  - split; [intros _; split; [reflexivity | constructor] | reflexivity].
  - split; [discriminate | intros [Hlen _]; discriminate].
  - split; [discriminate | intros [Hlen _]; discriminate].
  - rewrite andb_true_iff, IH. split.
    + intros [Hc [Hlen Hs]]. split; [f_equal; exact Hlen | constructor; assumption].
    + intros [Hlen Hs]. inversion Hs; subst. injection Hlen as Hlen. auto.
Qed.

Lemma upper_or_digit_spec (c : ascii) :
  upper_or_digit c = true <->
  (65 <= N_of_ascii c <= 90)%N \/ (48 <= N_of_ascii c <= 57)%N.
Proof.
  unfold upper_or_digit. rewrite orb_true_iff, !andb_true_iff, !N.leb_le. tauto.
Qed.

(** X26.  [sanitizeASIN] returns exactly on the strings of ten
    characters that are each a capital letter from A to Z or a digit,
    and then returns the string itself: it changes nothing, so a
    lower-case letter, a space around the ASIN or a value that is not
    a string makes it throw. *)
Theorem sanitizeASIN_accepts_ten_capitals_or_digits (asin : value) (s : string) :
  sanitizeASIN asin = Return s <->
  asin = VStr s /\ String.length s = 10%nat /\
  List.Forall (fun c => (65 <= N_of_ascii c <= 90)%N \/ (48 <= N_of_ascii c <= 57)%N)
    (list_ascii_of_string s).
Proof.
  assert (Hclass : forall l,
            List.Forall (fun c => upper_or_digit c = true) l <->
            List.Forall (fun c => (65 <= N_of_ascii c <= 90)%N \/
                                  (48 <= N_of_ascii c <= 57)%N) l).
  { intros l. split; intros Hl; (eapply List.Forall_impl; [|exact Hl]);
      intros c; apply upper_or_digit_spec. }
  unfold sanitizeASIN. split.
  - destruct asin as [| | | |text| | |]; try discriminate.
    destruct (test_repeat upper_or_digit 10 text) eqn:E; [|discriminate].
    simpl. intros [= <-]. apply test_repeat_spec in E as [Hlen Hall].
    rewrite Hclass in Hall. auto.
  - intros (-> & Hlen & Hall). rewrite <- Hclass in Hall.
    rewrite (proj2 (test_repeat_spec upper_or_digit 10 s) (conj Hlen Hall)).
    reflexivity.
Qed.

End SanitizeFacts.

(** ** The guarded handlers *)

Module MainFacts.
Import Js Main.

(** When [checkLimit] returns, it returns [true]. *)
Lemma checkLimit_returns_true (state : RateLimiter.calls) (now : Z) (channel : string)
    (b : bool) :
  (RateLimiter.checkLimit state now channel).2 = Return b -> b = true.
Proof.
  unfold RateLimiter.checkLimit.
  destruct (get_property RateLimiter.limits channel) as [limit| |]; cbv zeta.
  - destruct (_ >=? _); cbn [snd]; [discriminate | intros [= <-]; reflexivity].
  - cbn [snd]. intros [= <-]. reflexivity.
  - cbn [snd]. intros [= <-]. reflexivity.
Qed.

Section HandlerFacts.
Context `{IPCValidator.Path} `{IPCValidator.App}.

Lemma validate_save_config (config : value) :
  IPCValidator.validate "save-config" (VObj {[ "config" := config ]}) =
  match config with
  | VObj fields => Return {[ "config" := config ]}
  | VUndefined | VNull => Throw (IPCValidator.MissingRequiredField "config")
  | _ => Throw (IPCValidator.MustBeAnObject "config")
  end.
Proof.
  unfold IPCValidator.validate.
  change (get_property IPCValidator.schemas "save-config") with
    (Own [ ("config", IPCValidator.Rules (Some "object") true None None None None None) ]).
  unfold IPCValidator.validateObject. cbn [IPCValidator.for_entries IPCValidator.get].
  rewrite lookup_singleton_eq. cbn [default from_option id].
  destruct config; reflexivity.
Qed.

(** X27.  The handler of [save-config] hands the configuration to
    [saveConfig] exactly when the limiter lets the call through and the
    configuration is an object, and then hands it over as it was
    given, whatever it holds, and replies with success; in every other
    case [saveConfig] is not called and the reply is the failure.  In
    both cases the limiter is left as its check left it, so a
    configuration that is refused counts against the limit. *)
Theorem save_config_saves_any_object
    (state : RateLimiter.calls) (now : Z) (config : value) :
  let state' := (RateLimiter.checkLimit state now "save-config").1 in
  let allowed :=
    (RateLimiter.checkLimit state now "save-config").2 = Return true /\
    exists fields, config = VObj fields in
  (allowed -> save_config state now config = (state', Some config, Success tt)) /\
  (~ allowed -> exists e, save_config state now config = (state', None, Failure e)).
Proof.
  intros state' allowed. subst state' allowed. unfold save_config.
  rewrite validate_save_config.
  destruct (RateLimiter.checkLimit state now "save-config") as [state' [b|e]] eqn:Hcheck;
    cbn [fst snd].
  - split.
    + intros [_ [fields ->]]. reflexivity.
    + intros Hnot. destruct config; eauto.
      exfalso. apply Hnot. split; [|eauto].
      rewrite (checkLimit_returns_true state now "save-config" b); [reflexivity|].
      rewrite Hcheck. reflexivity.
  - split.
    + intros [Hthrow _]. discriminate.
    + intros _. eauto.
Qed.

(** X28.  The handler of [start-scan] checks the limit before it
    validates, so a request that validation refuses uses up the one
    call a minute of the channel: with no call of [start-scan] on
    record in the last minute, a request with a configuration that
    [validate] refuses is answered with the validation failure, and
    every request less than a minute later, whatever its
    configuration, is answered with the rate-limit failure, to be
    tried again after between 1 and 60 seconds, and no scan is run. *)
Theorem start_scan_refused_request_uses_the_quota
    (R : Type) (run_scan : gmap string value -> R)
    (state : RateLimiter.calls) (now later : Z) (config config' : value)
    (e : IPCValidator.error) :
  RateLimiter.in_window now 60000 (default [] (state !! "start-scan")) = [] ->
  IPCValidator.validate "start-scan" config = Throw e ->
  now <= later < now + 60000 ->
  let first := start_scan R run_scan state now config in
  first.2 = Failure (Validation e) /\
  exists resetTime,
    (start_scan R run_scan first.1 later config').2 =
      Failure (RateLimit (RateLimiter.RateLimitExceeded "start-scan" (Some resetTime))) /\
    0 < resetTime <= 60.
Proof.
  intros Hnone Hinvalid Hlater first. subst first. unfold start_scan.
  rewrite (RateLimiterFacts.checkLimit_declared state now "start-scan"
             (RateLimiter.mkLimit 1 60000) eq_refl).
  cbv zeta. cbn [RateLimiter.windowMs RateLimiter.maxCalls]. rewrite Hnone.
  cbn [length app]. change (Z.of_nat 0 >=? 1) with false. cbv iota.
  rewrite Hinvalid. cbn [fst snd]. split; [reflexivity|].
  rewrite (RateLimiterFacts.checkLimit_declared _ later "start-scan"
             (RateLimiter.mkLimit 1 60000) eq_refl).
  cbv zeta. cbn [RateLimiter.windowMs RateLimiter.maxCalls].
  rewrite lookup_insert_eq. cbn [default from_option id].
  unfold RateLimiter.in_window. cbn [List.filter].
  replace (later - now <? 60000) with true by (symmetry; apply Z.ltb_lt; lia).
  cbn [length]. change (Z.of_nat 1 >=? 1) with true. cbv iota.
  cbn [snd RateLimiter.Math_min fold_left].
  eexists. split; [reflexivity|]. split.
  - apply RateLimiterFacts.ceil_seconds_positive. lia.
  - apply RateLimiterFacts.ceil_seconds_le. lia.
Qed.

End HandlerFacts.

(** X27 on a first call with a configuration object. *)
Lemma save_config_saves_any_object_witness :
  @save_config Scenario.linux_path Scenario.linux_app RateLimiter.constructor 0
    (VObj Scenario.settings_fields) =
  ((RateLimiter.checkLimit RateLimiter.constructor 0 "save-config").1,
   Some (VObj Scenario.settings_fields), Success tt).
Proof.
  apply (proj1 (@save_config_saves_any_object Scenario.linux_path Scenario.linux_app
                  RateLimiter.constructor 0 (VObj Scenario.settings_fields))).
  split; [reflexivity | eexists; reflexivity].
Defined.

(** X28 on a first request without a store mapping file and a second
    request thirty seconds later. *)
Lemma start_scan_refused_request_uses_the_quota_witness :
  let first := @start_scan Scenario.linux_path Scenario.linux_app unit (fun _ => tt)
                 RateLimiter.constructor 0 (VObj ∅) in
  first.2 = Failure (Validation (IPCValidator.MissingRequiredField "storeMappingFile")) /\
  exists resetTime,
    (@start_scan Scenario.linux_path Scenario.linux_app unit (fun _ => tt)
       first.1 30000 (VObj Scenario.payload_fields)).2 =
      Failure (RateLimit (RateLimiter.RateLimitExceeded "start-scan" (Some resetTime))) /\
    0 < resetTime <= 60.
Proof.
  apply (@start_scan_refused_request_uses_the_quota Scenario.linux_path
           Scenario.linux_app unit (fun _ => tt) RateLimiter.constructor 0 30000
           (VObj ∅) (VObj Scenario.payload_fields)
           (IPCValidator.MissingRequiredField "storeMappingFile")).
  - reflexivity.
  - reflexivity.
  - lia.
Defined.

End MainFacts.
